(** * WAD3 spray encoder: a shallow embedding of [src/index.ts]

    The development follows the encoder of the plugin, function by
    function: [requiredPadding], [resizeWithAspectRatioAndAlign] (the
    dimension planner) and [generateWad3Spray] (palette, index buffer, mip
    levels and the WAD3 byte layout).

    JavaScript numbers are IEEE-754 doubles.  The planner's square root,
    product and quotient are embedded with the kernel's binary64 floats
    ([PrimFloat]), so that rounding is the rounding of the program; every
    value past [Math.floor] is an integer and is embedded in [Z], which is
    exact for doubles below [2^53].  Past [2^53] the planner of this
    development returns [None]; [resizeDoubles] is the planner on doubles
    throughout, and the two are proved to agree where the former
    returns. *)

From Stdlib Require Import String Ascii.
From Stdlib Require Import ZArith List Lia Bool.
From Stdlib Require Import Reals Lra.
From Stdlib Require Import Floats Uint63.
From Equations Require Import Equations.
Import ListNotations.

#[local] Open Scope Z_scope.

(** A test kept next to the value it returned, so that the branches of a
    loop know which way it went. *)
Definition inspect {A : Type} (x : A) : {y : A | x = y} := exist _ x eq_refl.

(** ** [requiredPadding] *)

(** [length % multiple]: the remainder of JavaScript takes the sign of the
    dividend, as [Z.rem] does. *)
Definition requiredPadding (length multiple : Z) : Z :=
  let excess := Z.rem length multiple in
  if excess =? 0 then 0 else multiple - excess.

(** ** The dimension planner *)

Module Planner.

(** An integer of [0, 2^63) read as a JavaScript number.  Image dimensions
    and pixel budgets are far below [2^53], where the conversion is exact. *)
Definition toNumber (z : Z) : float := PrimFloat.of_uint63 (Uint63.of_Z z).

(** [Math.floor] on the unfolded double: [None] stands for [NaN] and the two
    infinities, which [Math.floor] returns unchanged. *)
Definition floorSF (x : spec_float) : option Z :=
  match x with
  | S754_zero _ => Some 0
  | S754_finite s m e =>
      let v := if s then Z.neg m else Z.pos m in
      Some (if 0 <=? e then v * 2 ^ e else v / 2 ^ (- e))
  | S754_infinity _ => None
  | S754_nan => None
  end.

Definition mathFloor (x : float) : option Z := floorSF (Prim2SF x).

(** Steps 1 and 2 up to the floor: [scale], [wIdeal], [hIdeal] and the two
    quotients [Math.floor(wIdeal / align)], [Math.floor(hIdeal / align)].
    ([aspect] is computed by the source and never used.) *)
Definition scaleOf (fw fh maxPixel : Z) : float :=
  PrimFloat.sqrt (toNumber maxPixel / (toNumber fw * toNumber fh))%float.

Definition idealCells (fw fh maxPixel align : Z) : option (Z * Z) :=
  let scale := scaleOf fw fh maxPixel in
  let wIdeal := (toNumber fw * scale)%float in
  let hIdeal := (toNumber fh * scale)%float in
  match mathFloor (wIdeal / toNumber align)%float,
        mathFloor (hIdeal / toNumber align)%float with
  | Some qw, Some qh => Some (qw, qh)
  | _, _ => None
  end.

(** Step 3, one round of the correction loop: the larger of the two sides
    (the width on a tie) loses [align]. *)
Definition shrinkW (align : positive) (w h : Z) : Z :=
  if w >=? h then w - Z.pos align else w.

Definition shrinkH (align : positive) (w h : Z) : Z :=
  if w >=? h then h else h - Z.pos align.

(** [while (w * h > maxPixel) { ...; if (w <= 0 || h <= 0) break; }] on
    the integers, which is the loop of the program as long as its doubles
    are exact ([isExact] below).  The alignment is a positive constant (16
    at the only call), which is what makes this loop end: [w + h] falls in
    every round that goes on. *)
Equations? shrink (maxPixel : Z) (align : positive) (w h : Z) : Z * Z
  by wf (Z.to_nat (w + h)) lt :=
  shrink maxPixel align w h with inspect (w * h >? maxPixel) => {
    | exist _ false _ => (w, h)
    | exist _ true _
        with inspect ((shrinkW align w h <=? 0) || (shrinkH align w h <=? 0)) => {
        | exist _ true _ => (shrinkW align w h, shrinkH align w h)
        | exist _ false _ =>
            shrink maxPixel align (shrinkW align w h) (shrinkH align w h) } }.
Proof.
  unfold shrinkW, shrinkH in *. destruct (w >=? h); lia.
Qed.

(** The same loop as the program runs it, on doubles, followed for [fuel]
    rounds: [None] when the loop is still running after them. *)
Fixpoint shrinkDoubles (fuel : nat) (maxPixel align w h : float)
  : option (float * float) :=
  if (maxPixel <? w * h)%float then
    match fuel with
    | O => None
    | S fuel' =>
        let w' := if (h <=? w)%float then (w - align)%float else w in
        let h' := if (h <=? w)%float then h else (h - align)%float in
        if (w' <=? 0)%float || (h' <=? 0)%float then Some (w', h')
        else shrinkDoubles fuel' maxPixel align w' h'
    end
  else Some (w, h).

(** Steps 2 and 3 on doubles, from the two floors. *)
Definition alignAndShrinkDoubles (fuel : nat) (maxPixel align qw qh : float)
  : option (float * float) :=
  let w := (qw * align)%float in
  let h := (qh * align)%float in
  let w := if (w =? 0)%float then align else w in
  let h := if (h =? 0)%float then align else h in
  shrinkDoubles fuel maxPixel align w h.

(** The double of an integer that [Math.floor] returned: the floor of a
    double is a double, so the rounding to nearest returns it unchanged. *)
Definition numberOf (z : Z) : float :=
  SF2Prim (binary_normalize prec emax z 0 false).

(** The planner on doubles throughout. *)
Definition resizeDoubles (fuel : nat) (fw fh maxPixel : Z) (align : positive)
  : option (float * float) :=
  match idealCells fw fh maxPixel (Z.pos align) with
  | Some (qw, qh) =>
      alignAndShrinkDoubles fuel (toNumber maxPixel) (toNumber (Z.pos align))
        (numberOf qw) (numberOf qh)
  | None => None
  end.

(** The integers a double holds exactly, and on which the arithmetic of
    the loop is the arithmetic of the integers: below [2^53] the difference
    [w - align] is exact, [w >= h] and [w <= 0] compare the integers, and
    the rounded product [w * h] is above an integer budget below [2^53]
    exactly when the product of the integers is (a product of [2^53] or
    more rounds to [2^53] or more).  [shrinkDoubles_exact] below proves
    that the loop on doubles goes through the same states. *)
Definition isExact (z : Z) : bool := (0 <=? z) && (z <? 2 ^ 53).

(** Alignment of the two quotients, the clamp to [align], and the loop.
    The loop is followed from a state of exact integers only; past [2^53]
    the doubles of the program round, the loop may stop early or never
    stop, and the result is [None]. *)
Definition alignAndShrink (maxPixel : Z) (align : positive) (qw qh : Z)
  : option (Z * Z) :=
  let w := qw * Z.pos align in
  let h := qh * Z.pos align in
  let w := if w =? 0 then Z.pos align else w in
  let h := if h =? 0 then Z.pos align else h in
  if isExact maxPixel && isExact w && isExact h
  then Some (shrink maxPixel align w h)
  else None.

(** [resizeWithAspectRatioAndAlign(fw, fh, maxPixel, align)].  The result is
    [None] when the double computation leaves the finite range or the
    exact integers: the program then carries [NaN], [Infinity] or rounded
    sides, which the integer part of this model does not follow. *)
Definition resizeWithAspectRatioAndAlign (fw fh maxPixel : Z) (align : positive)
  : option (Z * Z) :=
  match idealCells fw fh maxPixel (Z.pos align) with
  | Some (qw, qh) => alignAndShrink maxPixel align qw qh
  | None => None
  end.

End Planner.

(** ** Outcomes of the asynchronous encoder *)

(** The two errors the encoder raises itself, the [RangeError] of Node's
    [Buffer] writers, and a rejection of the delegated image pipeline. *)
Inductive error : Type :=
| InvalidImage
| InvalidImageSize
| RangeError
| DecodeFailure.

(** A promise either resolves with a value or rejects with an error.
    [Unrepresented] marks the runs in which the planner left the finite
    doubles or the exact integers, which this model does not follow. *)
Inductive outcome (A : Type) : Type :=
| Returns (x : A)
| Throws (e : error)
| Unrepresented.

Arguments Returns {A} x.
Arguments Throws {A} e.
Arguments Unrepresented {A}.

Definition bind {A B : Type} (c : outcome A) (k : A -> outcome B) : outcome B :=
  match c with
  | Returns x => k x
  | Throws e => Throws e
  | Unrepresented => Unrepresented
  end.

Notation "x <- c ;; k" := (bind c (fun x => k))
  (at level 61, c at next level, right associativity).

(** ** Node buffers *)

Module Buffer.

(** A buffer is its list of bytes, each a number in [0, 255]. *)
Definition t : Type := list Z.

Definition alloc (n : nat) : t := repeat 0 n.

(** [Buffer.from(array)]: every entry is stored as an unsigned byte. *)
Definition from (l : list Z) : t := map (fun v => v mod 256) l.

Definition concat (chunks : list t) : t := List.concat chunks.

(** Overwriting a run of bytes in place; the buffer keeps its length (a
    string that does not fit is cut). *)
Definition blit (buf : t) (offset : nat) (bytes : list Z) : t :=
  firstn (length buf)
    (firstn offset buf ++ bytes ++ skipn (offset + length bytes) buf).

(** [buf.write(string, offset)] for an ASCII string. *)
Definition codes (s : string) : list Z :=
  map (fun c => Z.of_N (N_of_ascii c)) (list_ascii_of_string s).

Definition write (buf : t) (s : list Z) (offset : nat) : t := blit buf offset s.

Definition le16 (v : Z) : list Z :=
  [Z.land v 255; Z.land (Z.shiftr v 8) 255].

Definition le32 (v : Z) : list Z :=
  [Z.land v 255; Z.land (Z.shiftr v 8) 255;
   Z.land (Z.shiftr v 16) 255; Z.land (Z.shiftr v 24) 255].

(** The integer writers reject a value outside their range and a position
    outside the buffer. *)
Definition writeUInt (width : nat) (bytes : Z -> list Z) (buf : t) (value : Z)
    (offset : nat) : outcome t :=
  if (value <? 0) || (value >? 2 ^ (8 * Z.of_nat width) - 1) then Throws RangeError
  else if (length buf <? offset + width)%nat then Throws RangeError
  else Returns (blit buf offset (bytes value)).

Definition writeUInt8 : t -> Z -> nat -> outcome t :=
  writeUInt 1 (fun v => [Z.land v 255]).
Definition writeUInt16LE : t -> Z -> nat -> outcome t := writeUInt 2 le16.
Definition writeUInt32LE : t -> Z -> nat -> outcome t := writeUInt 4 le32.

(** [buf.readUInt32LE(offset)], used to state what the writers stored. *)
Definition readUInt32LE (buf : t) (offset : nat) : option Z :=
  match nth_error buf offset, nth_error buf (offset + 1),
        nth_error buf (offset + 2), nth_error buf (offset + 3) with
  | Some b0, Some b1, Some b2, Some b3 =>
      Some (b0 + b1 * 2 ^ 8 + b2 * 2 ^ 16 + b3 * 2 ^ 24)
  | _, _, _, _ => None
  end.

End Buffer.

(** ** Colours, palette and index buffer *)

Module Color.

(** One [{ r, g, b, a }] object.  A component read past the end of the raw
    buffer is [undefined], here [None]. *)
Record t : Type := mk { r : option Z; g : option Z; b : option Z; a : option Z }.

(** [===] on a component: two numbers, or [undefined] twice. *)
Definition sameComponent (x y : option Z) : bool :=
  match x, y with
  | Some u, Some v => u =? v
  | None, None => true
  | _, _ => false
  end.

Definition eqb (c d : t) : bool :=
  sameComponent (r c) (r d) && sameComponent (g c) (g d) &&
  sameComponent (b c) (b d) && sameComponent (a c) (a d).

Definition black : t := mk (Some 0) (Some 0) (Some 0) (Some 255).
Definition transparentKey : t := mk (Some 0) (Some 0) (Some 255) (Some 255).

(** [a <= 128]; the comparison is false on [undefined]. *)
Definition isTransparent (c : t) : bool :=
  match a c with
  | Some v => v <=? 128
  | None => false
  end.

End Color.

(** The quadruples [pixelData[i], ..., pixelData[i + 3]] for [i = 0, 4, 8,
    ...] below [pixelData.length]; both scans of the source read them. *)
Fixpoint pixelsOf (pixelData : list Z) : list Color.t :=
  match pixelData with
  | [] => []
  | r :: tl1 =>
      match tl1 with
      | [] => [Color.mk (Some r) None None None]
      | g :: tl2 =>
          match tl2 with
          | [] => [Color.mk (Some r) (Some g) None None]
          | b :: tl3 =>
              match tl3 with
              | [] => [Color.mk (Some r) (Some g) (Some b) None]
              | a :: rest =>
                  Color.mk (Some r) (Some g) (Some b) (Some a) :: pixelsOf rest
              end
          end
      end
  end.

(** The key [`${r},${g},${b},${a}`] of the set [seen].  The text of a number
    determines the number, so the key is kept as the four components. *)
Definition key : Type := (option Z * option Z * option Z * option Z)%type.

Definition keyOf (c : Color.t) : key :=
  (Color.r c, Color.g c, Color.b c, Color.a c).

Definition sameKey (k l : key) : bool :=
  let '(r1, g1, b1, a1) := k in
  let '(r2, g2, b2, a2) := l in
  Color.sameComponent r1 r2 && Color.sameComponent g1 g2 &&
  Color.sameComponent b1 b2 && Color.sameComponent a1 a2.

Definition has (seen : list key) (k : key) : bool := existsb (sameKey k) seen.

(** One round of the first scan: a colour not yet seen is recorded in
    [seen] and pushed on [rgbaPalette]. *)
Definition scanPixel (st : list key * list Color.t) (c : Color.t)
  : list key * list Color.t :=
  let '(seen, rgbaPalette) := st in
  if has seen (keyOf c) then st
  else (keyOf c :: seen, rgbaPalette ++ [c]).

Definition scanPalette (pixels : list Color.t) : list key * list Color.t :=
  fold_left scanPixel pixels ([], []).

(** [while (rgbaPalette.length < 255) rgbaPalette.push(black)]. *)
#[local] Obligation Tactic := idtac.

Equations? padPalette (rgbaPalette : list Color.t) : list Color.t
  by wf (Z.to_nat (255 - Z.of_nat (List.length rgbaPalette))) lt :=
  padPalette rgbaPalette
    with inspect (Z.of_nat (List.length rgbaPalette) <? 255) => {
    | exist _ true _ => padPalette (rgbaPalette ++ [Color.black])
    | exist _ false _ => rgbaPalette }.
Proof.
  intros. rewrite length_app. cbn [List.length]. lia.
Qed.

(** The palette after the scan, the padding and the push of the key colour. *)
Definition buildPalette (pixels : list Color.t) : list Color.t :=
  padPalette (snd (scanPalette pixels)) ++ [Color.transparentKey].

(** [array.findIndex(pred)], with [-1] when no entry passes. *)
Fixpoint findIndexFrom (pred : Color.t -> bool) (l : list Color.t) (i : Z) : Z :=
  match l with
  | [] => -1
  | c :: l' => if pred c then i else findIndexFrom pred l' (i + 1)
  end.

Definition findIndex (pred : Color.t -> bool) (l : list Color.t) : Z :=
  findIndexFrom pred l 0.

(** The index pushed for one pixel. *)
Definition indexOfPixel (rgbaPalette : list Color.t) (c : Color.t) : Z :=
  if Color.isTransparent c then 255
  else
    let idx := findIndex (fun d => Color.eqb d c) rgbaPalette in
    if idx >=? 0 then idx else 255.

Definition buildIndexedPixels (rgbaPalette pixels : list Color.t) : list Z :=
  map (indexOfPixel rgbaPalette) pixels.

(** ** Mip levels *)

(** The values of [i] in [for (i = start; i < n; i += step)]. *)
Equations? forStride (i n : Z) (step : positive) : list Z
  by wf (Z.to_nat (n - i)) lt :=
  forStride i n step with inspect (i <? n) => {
    | exist _ true _ => i :: forStride (i + Z.pos step) n step
    | exist _ false _ => [] }.
Proof. intros. lia. Qed.

(** [array[idx]]: [undefined] outside the array. *)
Definition at_ {A : Type} (l : list A) (idx : Z) : option A :=
  if idx <? 0 then None else nth_error l (Z.to_nat idx).

(** [x ?? d]. *)
Definition orElse {A : Type} (x : option A) (d : A) : A :=
  match x with
  | Some v => v
  | None => d
  end.

(** [1 << level]. *)
Definition stepOf (level : N) : positive := Pos.shiftl 1 level.

(** The array [buf] of one level, before it is turned into a buffer. *)
Definition mipSamples (indexedPixels : list Z) (w h : Z) (level : N) : list Z :=
  let step := stepOf level in
  flat_map
    (fun y => map (fun x => orElse (at_ indexedPixels (y * w + x)) 255)
                  (forStride 0 w step))
    (forStride 0 h step).

Definition levels : list N := [0; 1; 2; 3]%N.

Definition buildMips (indexedPixels : list Z) (w h : Z) : list Buffer.t :=
  map (fun level => Buffer.from (mipSamples indexedPixels w h level)) levels.

(** ** The WAD3 layout *)

(** The literal ['{LOGO\0\0\0\0\0\0\0\0\0\0\0'], sixteen characters. *)
Definition logoName : list Z := Buffer.codes "{LOGO" ++ repeat 0 11.

Definition typeMarker : Buffer.t := [0; 1; 0; 0].

(** One round of [for (i = 0; i < 4; i++)]: the running offset is stored at
    [36 + i * 4] and advanced by [mipsSizes[i]]. *)
Definition mipOffsetStep (mipsSizes : list Z) (st : outcome (Buffer.t * Z))
    (i : nat) : outcome (Buffer.t * Z) :=
  s <- st ;;
  header <- Buffer.writeUInt32LE (fst s) (snd s) (36 + i * 4) ;;
  Returns (header, snd s + nth i mipsSizes 0).

(** The 52 bytes written first: the global header up to byte 12 and the
    texture sub-header with its four mip offsets. *)
Definition buildHeader (w h : Z) (mipsSizes : list Z) : outcome Buffer.t :=
  let header := Buffer.alloc 52 in
  let header := Buffer.write header (Buffer.codes "WAD3") 0 in
  header <- Buffer.writeUInt32LE header 1 4 ;;
  let header := Buffer.write header logoName 12 in
  header <- Buffer.writeUInt32LE header w 28 ;;
  header <- Buffer.writeUInt32LE header h 32 ;;
  s <- fold_left (mipOffsetStep mipsSizes) [0; 1; 2; 3]%nat (Returns (header, 40)) ;;
  Returns (fst s).

(** [paletteBuf.writeUInt8(c.r, at)]: [undefined] becomes [NaN], which
    passes the range test and is stored as 0. *)
Definition writeComponent (buf : Buffer.t) (x : option Z) (offset : nat)
  : outcome Buffer.t :=
  match x with
  | Some v => Buffer.writeUInt8 buf v offset
  | None => Returns (Buffer.blit buf offset [0])
  end.

Definition paletteStep (rgbaPalette : list Color.t) (st : outcome Buffer.t)
    (i : nat) : outcome Buffer.t :=
  buf <- st ;;
  let c := orElse (nth_error rgbaPalette i)
                  (Color.mk (Some 0) (Some 0) (Some 0) None) in
  buf <- writeComponent buf (Color.r c) (i * 3) ;;
  buf <- writeComponent buf (Color.g c) (i * 3 + 1) ;;
  writeComponent buf (Color.b c) (i * 3 + 2).

Definition buildPaletteBuf (rgbaPalette : list Color.t) : outcome Buffer.t :=
  fold_left (paletteStep rgbaPalette) (seq 0 256) (Returns (Buffer.alloc (256 * 3))).

(** The 32-byte directory entry. *)
Definition buildLump (mainDataEnd : Z) : outcome Buffer.t :=
  let lump := Buffer.alloc 32 in
  lump <- Buffer.writeUInt32LE lump 12 0 ;;
  let sizeOnDisk := mainDataEnd - 40 in
  lump <- Buffer.writeUInt32LE lump sizeOnDisk 4 ;;
  lump <- Buffer.writeUInt32LE lump sizeOnDisk 8 ;;
  lump <- Buffer.writeUInt8 lump 67 12 ;;
  lump <- Buffer.writeUInt8 lump 0 13 ;;
  lump <- Buffer.writeUInt16LE lump 0 14 ;;
  Returns (Buffer.write lump logoName 16).

(** [array.reduce((a, b) => a + b, 0)]. *)
Definition total (l : list Z) : Z := fold_left Z.add l 0.

(** Steps 2 to 4 of [generateWad3Spray], from the raw pixels of the resized
    and quantized image on. *)
Definition encode (pixelData : list Z) (w h : Z) : outcome Buffer.t :=
  let pixels := pixelsOf pixelData in
  let rgbaPalette := buildPalette pixels in
  let indexedPixels := buildIndexedPixels rgbaPalette pixels in
  let mipsData := buildMips indexedPixels w h in
  let mipsSizes := map (fun buf => Z.of_nat (List.length buf)) mipsData in
  let totalMipSize := total mipsSizes in
  header <- buildHeader w h mipsSizes ;;
  paletteBuf <- buildPaletteBuf rgbaPalette ;;
  let currentLength := 52 + totalMipSize + 4 + 256 * 3 in
  let pad := requiredPadding currentLength 4 in
  let mainDataEnd := currentLength + pad in
  lump <- buildLump mainDataEnd ;;
  let chunks :=
    [header] ++ mipsData ++ [typeMarker] ++ [paletteBuf] ++
    (if pad >? 0 then [Buffer.alloc (Z.to_nat pad)] else []) ++ [lump] in
  let fullBuffer := Buffer.concat chunks in
  Buffer.writeUInt32LE fullBuffer mainDataEnd 8.

(** [!x] on a dimension of the metadata: true on [undefined] and on 0. *)
Definition missing (x : option Z) : bool :=
  match x with
  | Some v => v =? 0
  | None => true
  end.

Section Encoder.

(** The delegated pipeline [sharp(imageBuffer).resize(w, h, { fit: 'fill' })
    .png({ palette: true, quality: 100, colors: 255 })] followed by
    [.raw().toBuffer()]: the raw bytes of the quantized image, or a
    rejection. *)
Variable sharpRaw : Z -> Z -> option (list Z).

(** [generateWad3Spray(imageBuffer, maxPixiel)], from the [width] and
    [height] of the decoded metadata on. *)
Definition generateWad3Spray (width height : option Z) (maxPixiel : Z)
  : outcome Buffer.t :=
  if missing width || missing height then Throws InvalidImage
  else
    let fw := orElse width 0 in
    let fh := orElse height 0 in
    match Planner.resizeWithAspectRatioAndAlign fw fh maxPixiel 16 with
    | None => Unrepresented
    | Some (w, h) =>
        if (w =? 0) || (h =? 0) then Throws InvalidImageSize
        else
          match sharpRaw w h with
          | None => Throws DecodeFailure
          | Some pixelData => encode pixelData w h
          end
    end.

End Encoder.

(** ** The command

    [apply] registers one command.  Its action takes the image from the
    URL argument or from the first image of the message, encodes it and
    replies with the file. *)

Module Element.

(** One element of [session.elements]: its [type] and the value of
    [el.attrs?.src], [None] when the element has no attributes or no
    source.  A source that is present is a string. *)
Record t : Type := mk { type : string; src : option string }.

End Element.

(** What the action does to the outside: requests sent through
    [ctx.http.get] and warnings given to [ctx.logger.warn], in order. *)
Inductive event : Type :=
| Request (url : string)
| Warning (url : string).

(** What the action resolves with: the fixed text that asks for an image,
    or [h.file(wadBuffer, mime, { filename })]. *)
Inductive reply : Type :=
| Prompt
| File (data : Buffer.t) (mime filename : string).

(** A value used as a condition: [undefined] and the empty string are
    false. *)
Definition truthy (x : option string) : bool :=
  match x with
  | Some EmptyString => false
  | Some _ => true
  | None => false
  end.

(** [el.type === 'img' && el.attrs?.src]. *)
Definition isImage (el : Element.t) : bool :=
  String.eqb (Element.type el) "img" && truthy (Element.src el).

Section Command.

(** [ctx.http.get(url, { responseType: 'arraybuffer', timeout: 10000 })]:
    the bytes received, or [None] when the request throws. *)
Variable httpGet : string -> option Buffer.t.

(** [sharp(imageBuffer).metadata()]: the [width] and [height] it reports,
    or [None] when it rejects. *)
Variable metadata : Buffer.t -> option (option Z * option Z).

(** The resize and quantization pipeline of the encoder, for one image. *)
Variable sharpRaw : Buffer.t -> Z -> Z -> option (list Z).

Definition getImageBufferFromUrl (url : string) : option Buffer.t * list event :=
  match httpGet url with
  | Some arrayBuffer => (Some arrayBuffer, [Request url])
  | None => (None, [Request url; Warning url])
  end.

Definition getFirstImageAsBuffer (elements : list Element.t)
  : option Buffer.t * list event :=
  match find isImage elements with
  | None => (None, [])
  | Some firstImg =>
      if negb (truthy (Element.src firstImg)) then (None, [])
      else getImageBufferFromUrl (orElse (Element.src firstImg) EmptyString)
  end.

(** [generateWad3Spray(imageBuffer, maxPixiel)] as a whole: the metadata
    is read off the image, and the pipeline runs on it. *)
Definition generateWad3SprayOf (imageBuffer : Buffer.t) (maxPixiel : Z)
  : outcome Buffer.t :=
  match metadata imageBuffer with
  | None => Throws DecodeFailure
  | Some (width, height) =>
      generateWad3Spray (sharpRaw imageBuffer) width height maxPixiel
  end.

(** The action of the command, for the configured [maxPixiel], the
    elements of the message, the id of its author and the argument. *)
Definition action (maxPixiel : Z) (elements : list Element.t)
    (authorId : string) (url : option string) : outcome reply * list event :=
  let got :=
    match url with
    | Some u => getImageBufferFromUrl u
    | None => getFirstImageAsBuffer elements
    end in
  match fst got with
  | None => (Returns Prompt, snd got)
  | Some image =>
      (wadBuffer <- generateWad3SprayOf image maxPixiel ;;
       Returns (File wadBuffer "application/wad3"
                     ("tempdecal-" ++ authorId ++ ".wad")),
       snd got)
  end.

End Command.

(** ** The earlier encoder

    The file carries a second, earlier version of the plugin after the
    current one.  Its palette, index buffer, mip levels, palette buffer and
    directory entry are built as above; its planner, its alignment and its
    header differ. *)

Module Legacy.

(** [Math.round] on the unfolded double: the floor of [x + 1/2], computed
    exactly; [None] stands for [NaN] and the infinities. *)
Definition roundSF (x : spec_float) : option Z :=
  match x with
  | S754_zero _ => Some 0
  | S754_finite s m e =>
      let v := if s then Z.neg m else Z.pos m in
      Some (if 0 <=? e then v * 2 ^ e
            else (2 * v + 2 ^ (- e)) / 2 ^ (1 - e))
  | S754_infinity _ => None
  | S754_nan => None
  end.

Definition mathRound (x : float) : option Z := roundSF (Prim2SF x).

(** The double nearest to 0.97. *)
Definition ninetySeven : float := 0x1.f0a3d70a3d70ap-1%float.

(** The longer side becomes 256, the other follows the aspect ratio. *)
Definition fit (fw fh : Z) : option (Z * Z) :=
  if fw >? fh then
    match mathRound (Planner.toNumber fh / Planner.toNumber fw * 256)%float with
    | Some fh' => Some (256, fh')
    | None => None
    end
  else
    match mathRound (Planner.toNumber fw / Planner.toNumber fh * 256)%float with
    | Some fw' => Some (fw', 256)
    | None => None
    end.

(** One round of the loop: both sides lose three percent. *)
Definition shrinkStep (fw fh : Z) : option (Z * Z) :=
  match mathRound (Planner.toNumber fw * ninetySeven)%float,
        mathRound (Planner.toNumber fh * ninetySeven)%float with
  | Some fw', Some fh' => Some (fw', fh')
  | _, _ => None
  end.

(** A computation that is followed for a number of rounds. *)
Inductive run (A : Type) : Type :=
| Finished (x : A)
| OutOfFuel.

Arguments Finished {A} x.
Arguments OutOfFuel {A}.

(** [while (fw * fh > maxPixiel) { ... }], followed for [fuel] rounds.  The
    result [None] is a side that left the finite doubles.  The sides are
    integers of [0, 2^63), as [toNumber] reads them, and their product is
    the product of the integers, which the doubles give exactly below
    2^53. *)
Fixpoint shrink (fuel : nat) (maxPixiel fw fh : Z) : run (option (Z * Z)) :=
  if fw * fh >? maxPixiel then
    match fuel with
    | O => OutOfFuel
    | S fuel' =>
        match shrinkStep fw fh with
        | Some (fw', fh') => shrink fuel' maxPixiel fw' fh'
        | None => Finished None
        end
    end
  else Finished (Some (fw, fh)).

Definition plan (fuel : nat) (maxPixiel fw fh : Z) : run (option (Z * Z)) :=
  if fw * fh >? 14336 then
    match fit fw fh with
    | Some (fw', fh') => shrink fuel maxPixiel fw' fh'
    | None => Finished None
    end
  else Finished (Some (fw, fh)).

(** [fw % gap > gap / 2 ? fw + gap - (fw % gap) : fw - (fw % gap)] with
    [gap = 16]. *)
Definition alignGap (fw : Z) : Z :=
  let gap := 16 in
  if Z.rem fw gap >? gap / 2 then fw + gap - Z.rem fw gap
  else fw - Z.rem fw gap.

(** The header: 40 bytes are allocated, and the four mip offsets are
    written at 36, 40, 44 and 48. *)
Definition buildHeader (w h : Z) (mipsOffsets : list Z) : outcome Buffer.t :=
  let header := Buffer.alloc 40 in
  let header := Buffer.write header (Buffer.codes "WAD3") 0 in
  header <- Buffer.writeUInt32LE header 1 4 ;;
  let header := Buffer.write header logoName 12 in
  header <- Buffer.writeUInt32LE header w 28 ;;
  header <- Buffer.writeUInt32LE header h 32 ;;
  header <- Buffer.writeUInt32LE header (nth 0 mipsOffsets 0) 36 ;;
  header <- Buffer.writeUInt32LE header (nth 1 mipsOffsets 0) 40 ;;
  header <- Buffer.writeUInt32LE header (nth 2 mipsOffsets 0) 44 ;;
  Buffer.writeUInt32LE header (nth 3 mipsOffsets 0) 48.

(** The encoder from the raw pixels on. *)
Definition encode (pixelData : list Z) (w h : Z) : outcome Buffer.t :=
  let pixels := pixelsOf pixelData in
  let rgbaPalette := buildPalette pixels in
  let indexedPixels := buildIndexedPixels rgbaPalette pixels in
  let size := w * h in
  let mipsSizes := [size; size / 4; size / 16; size / 64] in
  let mipsOffsets :=
    [40; 40 + nth 0 mipsSizes 0;
     40 + nth 0 mipsSizes 0 + nth 1 mipsSizes 0;
     40 + nth 0 mipsSizes 0 + nth 1 mipsSizes 0 + nth 2 mipsSizes 0] in
  header <- buildHeader w h mipsOffsets ;;
  let mipsData := buildMips indexedPixels w h in
  paletteBuf <- buildPaletteBuf rgbaPalette ;;
  let mainData :=
    Buffer.concat ([firstn 52 header] ++ mipsData ++ [typeMarker; paletteBuf]) in
  let padMain := requiredPadding (Z.of_nat (List.length mainData)) 4 in
  let mainData :=
    if padMain >? 0 then Buffer.concat [mainData; Buffer.alloc (Z.to_nat padMain)]
    else mainData in
  let lumpOffset := Z.of_nat (List.length mainData) in
  lump <- buildLump lumpOffset ;;
  let full := Buffer.concat [mainData; lump] in
  Buffer.writeUInt32LE full lumpOffset 8.

Section Encoder.

Variable sharpRaw : Z -> Z -> option (list Z).

(** The earlier [generateWad3Spray], from the decoded metadata on and with
    its loop followed for [fuel] rounds. *)
Definition generateWad3Spray (fuel : nat) (width height : option Z)
    (maxPixiel : Z) : run (outcome Buffer.t) :=
  if missing width || missing height then Finished (Throws InvalidImage)
  else
    match plan fuel maxPixiel (orElse width 0) (orElse height 0) with
    | OutOfFuel => OutOfFuel
    | Finished None => Finished Unrepresented
    | Finished (Some (fw, fh)) =>
        let w := alignGap fw in
        let h := alignGap fh in
        Finished
          match sharpRaw w h with
          | None => Throws DecodeFailure
          | Some pixelData => encode pixelData w h
          end
    end.

End Encoder.

End Legacy.

Import Planner.

(** * Vocabulary of the statements *)

(** ** Doubles

    Predicates on the unfolded doubles of [SpecFloat], and the integer
    quotient and root that the division and the square root round. *)

Module Rounding.

(** A positive double with a full 53-bit mantissa and an exponent between
    [lo] and [hi]. *)
Definition normalSF (lo hi : Z) (x : spec_float) : Prop :=
  exists m e, x = S754_finite false m e /\
    Z.pos (digits2_pos m) = 53 /\ lo <= e <= hi.

(** The two halves of what [binary_round_aux] computes: neither the
    mantissa nor the change of the exponent depends on the exponent. *)
Definition roundedOnce (mx : Z) (lx : location) : Z :=
  let mrs := fst (shr (shr_record_of_loc mx lx) 0 (Zdigits2 mx - 53)) in
  round_nearest_even (shr_m mrs) (loc_of_shr_record mrs).

Definition roundedMantissa (mx : Z) (lx : location) : Z :=
  let m := roundedOnce mx lx in
  shr_m (fst (shr (shr_record_of_loc m loc_Exact) 0 (Zdigits2 m - 53))).

Definition roundedShift (mx : Z) (lx : location) : Z :=
  let m := roundedOnce mx lx in
  snd (shr (shr_record_of_loc mx lx) 0 (Zdigits2 mx - 53)) +
  snd (shr (shr_record_of_loc m loc_Exact) 0 (Zdigits2 m - 53)).

(** Adding to the exponent of a finite double: a product by a power of 2. *)
Definition addExp (k : Z) (x : spec_float) : spec_float :=
  match x with
  | S754_finite s m e => S754_finite s m (e + k)
  | _ => x
  end.

(** The quotient and the square root of doubles in the normal range, as
    one rounding of an integer quotient or root. *)
Definition divMantissa (mx my : positive) : Z :=
  fst (Z.div_eucl (Z.pos mx * 2 ^ 53) (Z.pos my)).

Definition divLocation (mx my : positive) : location :=
  new_location (Z.pos my) (snd (Z.div_eucl (Z.pos mx * 2 ^ 53) (Z.pos my))).

Definition sqrtShift (ex : Z) : Z := ex - 2 * (ex / 2 + 27 - 53).

Definition sqrtMantissa (mx : positive) (ex : Z) : Z :=
  fst (Z.sqrtrem (Z.shiftl (Z.pos mx) (sqrtShift ex))).

Definition sqrtLocation (mx : positive) (ex : Z) : location :=
  let qr := Z.sqrtrem (Z.shiftl (Z.pos mx) (sqrtShift ex)) in
  if Z.eqb (snd qr) 0 then loc_Exact
  else loc_Inexact (if Z.leb (snd qr) (fst qr) then Lt else Gt).

(** The real number a double stands for. *)
Definition valueOf (x : spec_float) : R :=
  match x with
  | S754_finite s m e =>
      ((if s then -1 else 1) * IZR (Z.pos m) * powerRZ 2 e)%R
  | _ => 0%R
  end.

(** One part in [2^52], which bounds the relative error of one rounding. *)
Definition ulp : R := (/ 4503599627370496)%R.

(** [a] is at most [b], up to [n] roundings down and [k] roundings up. *)
Definition rel (n k : nat) (a b : R) : Prop :=
  (a * (1 - ulp) ^ n <= b * (1 + ulp) ^ k)%R.

(** A double that is not negative ([NaN] has no sign). *)
Definition nonnegSF (x : spec_float) : Prop :=
  match x with
  | S754_nan => True
  | S754_zero s | S754_infinity s | S754_finite s _ _ => s = false
  end.

End Rounding.

(** ** The planner *)

(** The double the planner floors for one side: [side * scale / align]. *)
Definition cellQuotient (side fw fh maxPixel align : Z) : float :=
  (toNumber side * scaleOf fw fh maxPixel / toNumber align)%float.

(** The plan of a square source within a budget that is not the square of
    a multiple of 16: the largest multiple of 16 below the root, and the
    degenerate pair when the budget is below one cell. *)
Definition squarePlan (maxPixel : Z) : Z * Z :=
  let k := Z.sqrt maxPixel / 16 in
  if k =? 0 then (0, 16) else (16 * k, 16 * k).

(** What the correction loop keeps: both sides are multiples of [align] and
    at least [align]. *)
Definition onGrid (align : positive) (w h : Z) : Prop :=
  exists a b, w = a * Z.pos align /\ h = b * Z.pos align /\ 1 <= a /\ 1 <= b.

(** What the loop returns from such a state: still multiples of [align],
    not negative, and either within the budget or with a side that reached
    zero, the latter only if one cell of the grid is over budget. *)
Definition shrunk (maxPixel : Z) (align : positive) (r : Z * Z) : Prop :=
  exists a b, fst r = a * Z.pos align /\ snd r = b * Z.pos align /\
    ((1 <= a /\ 1 <= b /\ fst r * snd r <= maxPixel) \/
     ((a = 0 /\ 1 <= b \/ 1 <= a /\ b = 0) /\
      maxPixel < Z.pos align * Z.pos align)).

(** ** Palette, mip levels and layout *)

(** [ceil(a / b)] for a positive [b]. *)
Definition ceilDiv (a b : Z) : Z := (a + b - 1) / b.

(** The colours of a buffer in first-seen order, each kept once: what the
    specification calls the ordered, deduplicated list. *)
Fixpoint firstSeen (l : list Color.t) : list Color.t :=
  match l with
  | [] => []
  | c :: l' => c :: filter (fun d => negb (Color.eqb d c)) (firstSeen l')
  end.

(** Membership of a colour in a list, as the scan tests it. *)
Definition member (c : Color.t) (l : list Color.t) : bool :=
  existsb (Color.eqb c) l.

(** The raw pixels seen as the index buffer and the mip buffers the encoder
    derives from them. *)
Definition indexedPixelsOf (pixelData : list Z) : list Z :=
  buildIndexedPixels (buildPalette (pixelsOf pixelData)) (pixelsOf pixelData).

Definition mipsDataOf (pixelData : list Z) (w h : Z) : list Buffer.t :=
  buildMips (indexedPixelsOf pixelData) w h.

(** The position at which the directory entry is written. *)
Definition mainDataEndOf (pixelData : list Z) (w h : Z) : Z :=
  let currentLength :=
    52 + Z.of_nat (List.length (List.concat (mipsDataOf pixelData w h))) + 4 + 256 * 3 in
  currentLength + requiredPadding currentLength 4.

(** An outcome that, when it is not a value, is a [RangeError]. *)
Definition rangeOnly {A : Type} (c : outcome A) : Prop :=
  match c with
  | Returns _ => True
  | Throws e => e = RangeError
  | Unrepresented => False
  end.

(** An outcome whose value, if there is one, has [n] bytes. *)
Definition sized (n : nat) (c : outcome Buffer.t) : Prop :=
  match c with
  | Returns buf => List.length buf = n
  | _ => True
  end.

(** A stand-in for the image pipeline: every pixel of the resized image is
    the same opaque colour. *)
Definition flatRaw (w h : Z) : option (list Z) :=
  Some (flat_map (fun _ => [10; 20; 30; 255]) (seq 0 (Z.to_nat (w * h)))).

(** ** The file, written out *)

(** The byte [writeUInt8] stores for a component: the number itself, and 0
    for [undefined]. *)
Definition componentByte (x : option Z) : Z := orElse x 0.

(** A component [writeUInt8] accepts. *)
Definition componentOk (x : option Z) : bool :=
  match x with
  | Some v => (0 <=? v) && (v <=? 255)
  | None => true
  end.

(** [rgbaPalette[i] || { r: 0, g: 0, b: 0 }]. *)
Definition paletteEntry (rgbaPalette : list Color.t) (i : nat) : Color.t :=
  orElse (nth_error rgbaPalette i) (Color.mk (Some 0) (Some 0) (Some 0) None).

Definition entryOk (c : Color.t) : bool :=
  componentOk (Color.r c) && componentOk (Color.g c) && componentOk (Color.b c).

Definition entryBytes (c : Color.t) : list Z :=
  [componentByte (Color.r c); componentByte (Color.g c); componentByte (Color.b c)].

(** The first [n] entries of the palette, three bytes each, alpha dropped. *)
Definition paletteBytesUpTo (rgbaPalette : list Color.t) (n : nat) : list Z :=
  flat_map (fun i => entryBytes (paletteEntry rgbaPalette i)) (seq 0 n).

Definition paletteBytes (rgbaPalette : list Color.t) : list Z :=
  paletteBytesUpTo rgbaPalette 256.

(** The 52 bytes in front of the mip data, with [directoryOffset] at byte 8. *)
Definition headerBytes (w h : Z) (mipsSizes : list Z) (directoryOffset : Z) : list Z :=
  Buffer.codes "WAD3" ++ Buffer.le32 1 ++ Buffer.le32 directoryOffset ++
  logoName ++ Buffer.le32 w ++ Buffer.le32 h ++
  Buffer.le32 40 ++
  Buffer.le32 (40 + nth 0 mipsSizes 0) ++
  Buffer.le32 (40 + nth 0 mipsSizes 0 + nth 1 mipsSizes 0) ++
  Buffer.le32 (40 + nth 0 mipsSizes 0 + nth 1 mipsSizes 0 + nth 2 mipsSizes 0).

(** The 32 bytes of the directory entry. *)
Definition lumpBytes (directoryOffset : Z) : list Z :=
  Buffer.le32 12 ++ Buffer.le32 (directoryOffset - 40) ++
  Buffer.le32 (directoryOffset - 40) ++ [67; 0; 0; 0] ++ logoName.

(** The whole file for raw pixels [pixelData] and dimensions [w] and [h]. *)
Definition wadFile (pixelData : list Z) (w h : Z) : list Z :=
  let mips := mipsDataOf pixelData w h in
  let mipsSizes := map (fun buf => Z.of_nat (List.length buf)) mips in
  let currentLength := 52 + Z.of_nat (List.length (List.concat mips)) + 4 + 256 * 3 in
  let directoryOffset := mainDataEndOf pixelData w h in
  headerBytes w h mipsSizes directoryOffset ++
  List.concat mips ++
  typeMarker ++
  paletteBytes (buildPalette (pixelsOf pixelData)) ++
  repeat 0 (Z.to_nat (directoryOffset - currentLength)) ++
  lumpBytes directoryOffset.

(** A value [writeUInt32LE] accepts. *)
Definition isUInt32 (v : Z) : bool := (0 <=? v) && (v <? 2 ^ 32).

(** What [encode] needs in order to return: every number written as a
    32-bit word fits, and so does every component of the palette. *)
Definition encodable (pixelData : list Z) (w h : Z) : bool :=
  let mips := mipsDataOf pixelData w h in
  let size k := Z.of_nat (List.length (nth k mips [])) in
  let directoryOffset := mainDataEndOf pixelData w h in
  isUInt32 w && isUInt32 h &&
  isUInt32 (40 + size 0%nat) &&
  isUInt32 (40 + size 0%nat + size 1%nat) &&
  isUInt32 (40 + size 0%nat + size 1%nat + size 2%nat) &&
  forallb (fun i => entryOk (paletteEntry (buildPalette (pixelsOf pixelData)) i))
          (seq 0 256) &&
  isUInt32 (directoryOffset - 40) && isUInt32 directoryOffset.

(** * Properties *)

(** ** Doubles in the normal range

    The planner only meets doubles far from overflow and underflow.  For
    those, the specification of the binary64 operations ([SpecFloat]) gives
    a finite, positive result with a full 53-bit mantissa, and an exponent
    that is known up to the carry of the rounding. *)

Module DoubleFacts.

Import Rounding.

Lemma digits2_pos_size p : digits2_pos p = Pos.size p.
Proof. induction p; simpl; congruence. Qed.

Lemma Zdigits2_log2 m : 0 < m -> Zdigits2 m = Z.log2 m + 1.
Proof.
  destruct m as [| p | p]; try lia. intros _. simpl.
  rewrite digits2_pos_size. destruct p; simpl; lia.
Qed.

Lemma Zdigits2_range k m :
  1 <= k -> 2 ^ (k - 1) <= m < 2 ^ k -> Zdigits2 m = k.
Proof.
  intros Hk Hm.
  assert (0 < 2 ^ (k - 1)) by (apply Z.pow_pos_nonneg; lia).
  rewrite Zdigits2_log2 by lia.
  rewrite (Z.log2_unique m (k - 1)); try lia.
  replace (Z.succ (k - 1)) with k by lia. exact Hm.
Qed.

Lemma Zdigits2_bounds m :
  0 < m -> 2 ^ (Zdigits2 m - 1) <= m < 2 ^ Zdigits2 m.
Proof.
  intros Hm. rewrite Zdigits2_log2 by exact Hm.
  replace (Z.log2 m + 1 - 1) with (Z.log2 m) by lia.
  replace (Z.log2 m + 1) with (Z.succ (Z.log2 m)) by lia.
  apply Z.log2_spec. exact Hm.
Qed.

Lemma shr_1_m mrs : 0 <= shr_m mrs -> shr_m (shr_1 mrs) = shr_m mrs / 2.
Proof.
  destruct mrs as [m r s]. simpl. intros Hm.
  destruct m as [| [p | p |] | p]; simpl; try reflexivity; try lia.
  - rewrite Pos2Z.inj_xI.
    apply Z.div_unique with (r := 1); lia.
  - rewrite Pos2Z.inj_xO.
    apply Z.div_unique with (r := 0); lia.
Qed.

Lemma iter_shr_1_m n mrs :
  0 <= shr_m mrs ->
  shr_m (iter_pos shr_1 n mrs) = shr_m mrs / 2 ^ Z.pos n.
Proof.
  revert mrs. induction n as [n IH | n IH |]; intros mrs Hm; simpl iter_pos.
  - assert (H1 : 0 <= shr_m (shr_1 mrs)).
    { rewrite shr_1_m by exact Hm. apply Z.div_pos; lia. }
    assert (H2 : 0 <= shr_m (iter_pos shr_1 n (shr_1 mrs))).
    { rewrite IH by exact H1. apply Z.div_pos; [exact H1 |]. apply Z.pow_pos_nonneg; lia. }
    rewrite IH by exact H2. rewrite IH by exact H1. rewrite shr_1_m by exact Hm.
    rewrite !Z.div_div by (try apply Z.pow_pos_nonneg; lia).
    f_equal.
    replace (Z.pos n~1) with (1 + Z.pos n + Z.pos n) by lia.
    rewrite !Z.pow_add_r by lia. lia.
  - assert (H2 : 0 <= shr_m (iter_pos shr_1 n mrs)).
    { rewrite IH by exact Hm. apply Z.div_pos; [exact Hm |]. apply Z.pow_pos_nonneg; lia. }
    rewrite IH by exact H2. rewrite IH by exact Hm.
    rewrite !Z.div_div by (try apply Z.pow_pos_nonneg; lia).
    f_equal.
    replace (Z.pos n~0) with (Z.pos n + Z.pos n) by lia.
    rewrite !Z.pow_add_r by lia. lia.
  - rewrite shr_1_m by exact Hm. reflexivity.
Qed.

Lemma shr_spec mrs e n :
  0 <= shr_m mrs -> 0 <= n ->
  shr_m (fst (shr mrs e n)) = shr_m mrs / 2 ^ n /\ snd (shr mrs e n) = e + n.
Proof.
  intros Hm Hn. destruct n as [| p | p]; simpl; try lia.
  - rewrite Z.div_1_r. lia.
  - split; [| reflexivity]. apply iter_shr_1_m. exact Hm.
Qed.

Lemma shr_record_of_loc_m m l : shr_m (shr_record_of_loc m l) = m.
Proof. destruct l as [| []]; reflexivity. Qed.

Lemma round_nearest_even_bounds m l :
  m <= round_nearest_even m l <= m + 1.
Proof.
  destruct l as [| []]; simpl; try lia. destruct (Z.even m); lia.
Qed.

Lemma fexp_normal e : -1074 <= e - 53 -> fexp prec emax e = e - 53.
Proof. intros H. unfold fexp, emin, prec, emax. lia. Qed.

Lemma pow2_split a b : 0 <= a -> 0 <= b -> 2 ^ (a + b) = 2 ^ a * 2 ^ b.
Proof. intros. apply Z.pow_add_r; assumption. Qed.

Lemma shr_shift mrs e n : shr mrs e n = (fst (shr mrs 0 n), e + snd (shr mrs 0 n)).
Proof. destruct n; cbn [shr fst snd]; f_equal; lia. Qed.

Lemma binary_round_aux_normal_form mx ex lx :
  2 ^ 52 <= mx ->
  -1074 <= Zdigits2 mx + ex - 53 ->
  Zdigits2 mx + ex - 52 <= 971 ->
  exists m,
    roundedMantissa mx lx = Z.pos m /\
    Z.pos (digits2_pos m) = 53 /\
    (roundedShift mx lx = Zdigits2 mx - 53 \/ roundedShift mx lx = Zdigits2 mx - 52) /\
    binary_round_aux prec emax false mx ex lx =
      S754_finite false m (ex + roundedShift mx lx).
Proof.
  intros Hmx Hlo Hhi.
  assert (Hpos : 0 < mx) by (assert (0 < 2 ^ 52) by reflexivity; lia).
  pose proof (Zdigits2_bounds mx Hpos) as Hd.
  unfold roundedMantissa, roundedShift, roundedOnce. cbv zeta.
  unfold binary_round_aux, shr_fexp.
  set (d := Zdigits2 mx) in *.
  assert (Hd53 : 53 <= d).
  { destruct (Z_lt_le_dec d 53) as [Hlt |]; [| assumption].
    assert (2 ^ d <= 2 ^ 52) by (apply Z.pow_le_mono_r; lia). lia. }
  rewrite fexp_normal by lia.
  replace (d + ex - 53 - ex) with (d - 53) by lia.
  rewrite (shr_shift _ ex).
  pose proof (shr_spec (shr_record_of_loc mx lx) 0 (d - 53)) as Hs1.
  rewrite shr_record_of_loc_m in Hs1.
  specialize (Hs1 ltac:(lia) ltac:(lia)).
  destruct (shr (shr_record_of_loc mx lx) 0 (d - 53)) as [mrs1 e1].
  cbn [fst snd] in *. destruct Hs1 as [Hm1 He1].
  assert (Hp : 0 < 2 ^ (d - 53)) by (apply Z.pow_pos_nonneg; lia).
  assert (Hr1 : 2 ^ 52 <= shr_m mrs1 < 2 ^ 53).
  { rewrite Hm1. split.
    - apply Z.div_le_lower_bound; [exact Hp |].
      rewrite <- pow2_split by lia. replace (d - 53 + 52) with (d - 1) by lia. lia.
    - apply Z.div_lt_upper_bound; [exact Hp |].
      rewrite <- pow2_split by lia. replace (d - 53 + 53) with d by lia. lia. }
  pose proof (round_nearest_even_bounds (shr_m mrs1) (loc_of_shr_record mrs1)) as Hrne.
  set (m2 := round_nearest_even (shr_m mrs1) (loc_of_shr_record mrs1)) in *.
  assert (Hcase : Zdigits2 m2 = 53 /\ m2 < 2 ^ 53 \/ Zdigits2 m2 = 54 /\ m2 = 2 ^ 53).
  { destruct (Z_lt_le_dec m2 (2 ^ 53)) as [Hlt | Hge].
    - left. split; [| exact Hlt]. apply Zdigits2_range; [lia |].
      change (53 - 1) with 52. lia.
    - right. assert (Heq : m2 = 2 ^ 53) by lia. split; [| assumption].
      rewrite Heq. reflexivity. }
  rewrite fexp_normal by (destruct Hcase as [[-> _] | [-> _]]; lia).
  replace (Zdigits2 m2 + (ex + e1) - 53 - (ex + e1)) with (Zdigits2 m2 - 53) by lia.
  rewrite (shr_shift _ (ex + e1)).
  pose proof (shr_spec (shr_record_of_loc m2 loc_Exact) 0 (Zdigits2 m2 - 53)) as Hs2.
  rewrite shr_record_of_loc_m in Hs2.
  specialize (Hs2 ltac:(lia) ltac:(destruct Hcase as [[-> _] | [-> _]]; lia)).
  destruct (shr (shr_record_of_loc m2 loc_Exact) 0 (Zdigits2 m2 - 53)) as [mrs3 e3].
  cbn [fst snd] in *. destruct Hs2 as [Hm3 He3].
  assert (Hr3 : 2 ^ 52 <= shr_m mrs3 < 2 ^ 53 /\ (e1 + e3 = d - 53 \/ e1 + e3 = d - 52)).
  { destruct Hcase as [[Hdg Hlt] | [Hdg Heq]]; rewrite Hdg in *.
    - change (53 - 53) with 0 in *. rewrite Z.pow_0_r, Z.div_1_r in Hm3. lia.
    - change (54 - 53) with 1 in *. rewrite Heq in Hm3.
      change (2 ^ 53 / 2 ^ 1) with (2 ^ 52) in Hm3.
      rewrite Hm3. split; [split; [lia | reflexivity] | lia]. }
  destruct Hr3 as [Hr3 He3'].
  destruct (shr_m mrs3) as [| m3 | m3] eqn:Em3.
  - exfalso. assert (0 < 2 ^ 52) by reflexivity. lia.
  - assert (Hle : Z.leb (ex + e1 + e3) (Z.sub emax prec) = true).
    { apply Z.leb_le. unfold emax, prec. lia. }
    rewrite Hle. exists m3. split; [reflexivity |]. split.
    + change (Z.pos (digits2_pos m3)) with (Zdigits2 (Z.pos m3)).
      apply Zdigits2_range; [lia |]. exact Hr3.
    + split; [exact He3' |]. f_equal. lia.
  - exfalso. assert (0 < 2 ^ 52) by reflexivity. lia.
Qed.

Lemma binary_round_aux_normal mx ex lx :
  2 ^ 52 <= mx ->
  -1074 <= Zdigits2 mx + ex - 53 ->
  Zdigits2 mx + ex - 52 <= 971 ->
  normalSF (Zdigits2 mx + ex - 53) (Zdigits2 mx + ex - 52)
    (binary_round_aux prec emax false mx ex lx).
Proof.
  intros Hmx Hlo Hhi.
  destruct (binary_round_aux_normal_form mx ex lx Hmx Hlo Hhi)
    as (m & _ & Hd & Hs & ->).
  exists m, (ex + roundedShift mx lx). split; [reflexivity |]. split; [exact Hd | lia].
Qed.

Lemma addExp_0 x : addExp 0 x = x.
Proof. destruct x; cbn [addExp]; rewrite ?Z.add_0_r; reflexivity. Qed.

(** In the normal range rounding commutes with a change of exponent. *)
Lemma binary_round_aux_shift mx ex k lx :
  2 ^ 52 <= mx ->
  -1074 <= Zdigits2 mx + ex - 53 -> Zdigits2 mx + ex - 52 <= 971 ->
  -1074 <= Zdigits2 mx + (ex + k) - 53 -> Zdigits2 mx + (ex + k) - 52 <= 971 ->
  binary_round_aux prec emax false mx (ex + k) lx =
  addExp k (binary_round_aux prec emax false mx ex lx).
Proof.
  intros Hmx Hlo Hhi Hlo' Hhi'.
  destruct (binary_round_aux_normal_form mx ex lx Hmx Hlo Hhi) as (m & Em & _ & _ & ->).
  destruct (binary_round_aux_normal_form mx (ex + k) lx Hmx Hlo' Hhi')
    as (m' & Em' & _ & _ & ->).
  assert (m' = m) by congruence. subst m'.
  cbn [addExp]. f_equal. lia.
Qed.

Lemma normalSF_weaken lo hi lo' hi' x :
  normalSF lo hi x -> lo' <= lo -> hi <= hi' -> normalSF lo' hi' x.
Proof.
  intros (m & e & -> & Hd & He) Hlo Hhi. exists m, e. repeat split; try assumption; lia.
Qed.

Lemma Zdigits2_between a b m :
  0 <= a -> 2 ^ a <= m < 2 ^ b -> a + 1 <= Zdigits2 m <= b.
Proof.
  intros Ha Hm.
  assert (Hpos : 0 < m) by (assert (0 < 2 ^ a) by (apply Z.pow_pos_nonneg; lia); lia).
  pose proof (Zdigits2_bounds m Hpos) as Hd.
  assert (Hd1 : 1 <= Zdigits2 m) by (rewrite Zdigits2_log2 by exact Hpos; pose proof (Z.log2_nonneg m); lia).
  split.
  - destruct (Z_lt_le_dec (Zdigits2 m) (a + 1)) as [Hlt |]; [| assumption].
    assert (2 ^ Zdigits2 m <= 2 ^ a) by (apply Z.pow_le_mono_r; lia). lia.
  - destruct (Z_lt_le_dec b (Zdigits2 m)) as [Hlt |]; [| lia].
    assert (2 ^ b <= 2 ^ (Zdigits2 m - 1)) by (apply Z.pow_le_mono_r; lia). lia.
Qed.

Lemma normal_mantissa m :
  Z.pos (digits2_pos m) = 53 -> 2 ^ 52 <= Z.pos m < 2 ^ 53.
Proof.
  intros Hd. pose proof (Zdigits2_bounds (Z.pos m) ltac:(lia)) as H.
  change (Zdigits2 (Z.pos m)) with (Z.pos (digits2_pos m)) in H.
  rewrite Hd in H. exact H.
Qed.

Lemma pos_iter_xO p k : Z.pos (Pos.iter xO p k) = Z.pos p * 2 ^ Z.pos k.
Proof.
  induction k as [| k IH] using Pos.peano_ind.
  - simpl. lia.
  - rewrite Pos.iter_succ, Pos2Z.inj_xO, IH, Pos2Z.inj_succ, Z.pow_succ_r by lia. lia.
Qed.

(** The nearest double of an integer in [1, 2^63). *)
Lemma binary_normalize_normal z :
  0 < z < 2 ^ 63 -> normalSF (-52) 11 (binary_normalize prec emax z 0 false).
Proof.
  intros Hz. destruct z as [| p | p]; try lia. cbn [binary_normalize].
  unfold binary_round.
  assert (Hdg : 1 <= Z.pos (digits2_pos p) <= 63).
  { change (Z.pos (digits2_pos p)) with (Zdigits2 (Z.pos p)).
    pose proof (Zdigits2_between 0 63 (Z.pos p) ltac:(lia) ltac:(simpl (2 ^ 0); lia)). lia. }
  pose proof (Zdigits2_bounds (Z.pos p) ltac:(lia)) as Hb.
  change (Zdigits2 (Z.pos p)) with (Z.pos (digits2_pos p)) in Hb.
  set (d := Z.pos (digits2_pos p)) in *.
  rewrite fexp_normal by lia. unfold shl_align.
  replace (d + 0 - 53 - 0) with (d - 53) by lia.
  destruct (d - 53) as [| k | k] eqn:Ek.
  - assert (2 ^ 52 <= Z.pos p) by (replace 52 with (d - 1) by lia; lia).
    eapply normalSF_weaken.
    + apply binary_round_aux_normal; [assumption | |];
        change (Zdigits2 (Z.pos p)) with d; lia.
    + change (Zdigits2 (Z.pos p)) with d; lia.
    + change (Zdigits2 (Z.pos p)) with d; lia.
  - assert (2 ^ 52 <= Z.pos p).
    { assert (2 ^ 52 <= 2 ^ (d - 1)) by (apply Z.pow_le_mono_r; lia). lia. }
    eapply normalSF_weaken.
    + apply binary_round_aux_normal; [assumption | |];
        change (Zdigits2 (Z.pos p)) with d; lia.
    + change (Zdigits2 (Z.pos p)) with d; lia.
    + change (Zdigits2 (Z.pos p)) with d; lia.
  - assert (Hk : Z.pos k = 53 - d) by lia.
    assert (Hr : 2 ^ 52 <= Z.pos (Pos.iter xO p k) < 2 ^ 53).
    { rewrite pos_iter_xO, Hk.
      assert (0 < 2 ^ (53 - d)) by (apply Z.pow_pos_nonneg; lia).
      replace (2 ^ 52) with (2 ^ (d - 1) * 2 ^ (53 - d))
        by (rewrite <- pow2_split by lia; f_equal; lia).
      replace (2 ^ 53) with (2 ^ d * 2 ^ (53 - d))
        by (rewrite <- pow2_split by lia; f_equal; lia).
      nia. }
    assert (Hd53 : Zdigits2 (Z.pos (Pos.iter xO p k)) = 53)
      by (apply Zdigits2_range; [lia | exact Hr]).
    eapply normalSF_weaken.
    + apply binary_round_aux_normal; [apply Hr | |]; rewrite Hd53; lia.
    + rewrite Hd53; lia.
    + rewrite Hd53; lia.
Qed.

Lemma SFmul_normal a b c d x y :
  normalSF a b x -> normalSF c d y ->
  -1126 <= a + c -> b + d <= 917 ->
  normalSF (a + c + 52) (b + d + 54) (SFmul prec emax x y).
Proof.
  intros (mx & ex & -> & Hdx & Hex) (my & ey & -> & Hdy & Hey) Hlo Hhi.
  cbn [SFmul xorb].
  pose proof (normal_mantissa mx Hdx) as Hmx.
  pose proof (normal_mantissa my Hdy) as Hmy.
  rewrite Pos2Z.inj_mul.
  assert (Hr : 2 ^ 104 <= Z.pos mx * Z.pos my < 2 ^ 106).
  { change (2 ^ 104) with (2 ^ 52 * 2 ^ 52). change (2 ^ 106) with (2 ^ 53 * 2 ^ 53).
    assert (0 < 2 ^ 52) by reflexivity. nia. }
  pose proof (Zdigits2_between 104 106 _ ltac:(lia) Hr) as Hdg.
  eapply normalSF_weaken.
  - apply binary_round_aux_normal; [| lia | lia].
    assert (2 ^ 52 <= 2 ^ 104) by (apply Z.pow_le_mono_r; lia). lia.
  - lia.
  - lia.
Qed.

Lemma SFmul_shift mx ex my ey k j :
  Z.pos (digits2_pos mx) = 53 -> Z.pos (digits2_pos my) = 53 ->
  -1126 <= ex + ey <= 917 -> -1126 <= ex + ey + (k + j) <= 917 ->
  SFmul prec emax (S754_finite false mx (ex + k)) (S754_finite false my (ey + j)) =
  addExp (k + j) (SFmul prec emax (S754_finite false mx ex) (S754_finite false my ey)).
Proof.
  intros Hdx Hdy He He'. cbn [SFmul xorb].
  pose proof (normal_mantissa mx Hdx) as Hmx.
  pose proof (normal_mantissa my Hdy) as Hmy.
  replace (ex + k + (ey + j)) with (ex + ey + (k + j)) by lia.
  rewrite Pos2Z.inj_mul.
  assert (Hr : 2 ^ 104 <= Z.pos mx * Z.pos my < 2 ^ 106).
  { change (2 ^ 104) with (2 ^ 52 * 2 ^ 52). change (2 ^ 106) with (2 ^ 53 * 2 ^ 53).
    assert (0 < 2 ^ 52) by reflexivity. nia. }
  pose proof (Zdigits2_between 104 106 _ ltac:(lia) Hr) as Hdg.
  apply binary_round_aux_shift; lia.
Qed.

Lemma SFdiv_finite mx ex my ey :
  Z.pos (digits2_pos mx) = 53 -> Z.pos (digits2_pos my) = 53 ->
  -1021 <= ex - ey ->
  SFdiv prec emax (S754_finite false mx ex) (S754_finite false my ey) =
  binary_round_aux prec emax false (divMantissa mx my) (ex - ey - 53)
    (divLocation mx my).
Proof.
  intros Hdx Hdy Hlo. cbn [SFdiv xorb].
  unfold SFdiv_core_binary, divMantissa, divLocation. cbn [Zdigits2]. rewrite Hdx, Hdy.
  replace (53 + ex - (53 + ey)) with (ex - ey) by lia.
  rewrite fexp_normal by lia.
  rewrite Z.min_l by lia.
  replace (ex - ey - (ex - ey - 53)) with 53 by lia.
  cbv iota.
  rewrite Z.shiftl_mul_pow2 by lia.
  destruct (Z.div_eucl (Z.pos mx * 2 ^ 53) (Z.pos my)) as [q r]. reflexivity.
Qed.

Lemma divMantissa_range mx my :
  Z.pos (digits2_pos mx) = 53 -> Z.pos (digits2_pos my) = 53 ->
  2 ^ 52 <= divMantissa mx my < 2 ^ 54.
Proof.
  intros Hdx Hdy. unfold divMantissa.
  pose proof (normal_mantissa mx Hdx) as Hmx.
  pose proof (normal_mantissa my Hdy) as Hmy.
  pose proof (Z_div_mod (Z.pos mx * 2 ^ 53) (Z.pos my) ltac:(lia)) as Hdm.
  destruct (Z.div_eucl (Z.pos mx * 2 ^ 53) (Z.pos my)) as [q r].
  destruct Hdm as [Hq Hr]. cbn [fst].
  change (2 ^ 54) with (2 * 2 ^ 53). change (2 ^ 53) with (2 * 2 ^ 52) in *.
  assert (0 < 2 ^ 52) by reflexivity. split; nia.
Qed.

Lemma SFdiv_normal a b c d x y :
  normalSF a b x -> normalSF c d y ->
  -1021 <= a - d -> b - c <= 1022 ->
  normalSF (a - d - 53) (b - c - 51) (SFdiv prec emax x y).
Proof.
  intros (mx & ex & -> & Hdx & Hex) (my & ey & -> & Hdy & Hey) Hlo Hhi.
  rewrite SFdiv_finite by (assumption || lia).
  pose proof (divMantissa_range mx my Hdx Hdy) as Hqr.
  pose proof (Zdigits2_between 52 54 _ ltac:(lia) Hqr) as Hdg.
  eapply normalSF_weaken.
  - apply binary_round_aux_normal; lia.
  - lia.
  - lia.
Qed.

Lemma SFdiv_shift mx ex my ey k j :
  Z.pos (digits2_pos mx) = 53 -> Z.pos (digits2_pos my) = 53 ->
  -1021 <= ex - ey <= 1022 -> -1021 <= ex - ey + (k - j) <= 1022 ->
  SFdiv prec emax (S754_finite false mx (ex + k)) (S754_finite false my (ey + j)) =
  addExp (k - j) (SFdiv prec emax (S754_finite false mx ex) (S754_finite false my ey)).
Proof.
  intros Hdx Hdy He He'.
  rewrite !SFdiv_finite by (assumption || lia).
  pose proof (divMantissa_range mx my Hdx Hdy) as Hqr.
  pose proof (Zdigits2_between 52 54 _ ltac:(lia) Hqr) as Hdg.
  replace (ex + k - (ey + j) - 53) with (ex - ey - 53 + (k - j)) by lia.
  apply binary_round_aux_shift; lia.
Qed.

Lemma sqrtShift_cases ex : sqrtShift ex = 52 \/ sqrtShift ex = 53.
Proof.
  unfold sqrtShift.
  pose proof (Z.div_mod ex 2 ltac:(lia)) as Hdm.
  pose proof (Z.mod_pos_bound ex 2 ltac:(lia)) as Hmod. lia.
Qed.

Lemma sqrtShift_even ex k : sqrtShift (ex + 2 * k) = sqrtShift ex.
Proof.
  unfold sqrtShift. replace (ex + 2 * k) with (ex + k * 2) by lia.
  rewrite Z.div_add by lia. lia.
Qed.

Lemma SFsqrt_finite mx ex :
  Z.pos (digits2_pos mx) = 53 -> -2094 <= ex ->
  SFsqrt prec emax (S754_finite false mx ex) =
  binary_round_aux prec emax false (sqrtMantissa mx ex) (ex / 2 - 26)
    (sqrtLocation mx ex).
Proof.
  intros Hdx Hlo. cbn [SFsqrt].
  unfold SFsqrt_core_binary, sqrtMantissa, sqrtLocation. cbn [Zdigits2]. rewrite Hdx.
  rewrite !Z.div2_div.
  assert (Ha' : -1047 <= ex / 2) by (apply Z.div_le_lower_bound; lia).
  replace ((53 + ex + 1) / 2) with (ex / 2 + 27)
    by (replace (53 + ex + 1) with (ex + 27 * 2) by lia; rewrite Z.div_add by lia; reflexivity).
  rewrite fexp_normal by lia.
  rewrite Z.min_l by lia.
  fold (sqrtShift ex).
  assert (Hsel : match sqrtShift ex with
                 | Z.pos _ => Z.shiftl (Z.pos mx) (sqrtShift ex)
                 | 0 => Z.pos mx
                 | Z.neg _ => 0
                 end = Z.shiftl (Z.pos mx) (sqrtShift ex))
    by (destruct (sqrtShift_cases ex) as [-> | ->]; reflexivity).
  rewrite Hsel. clear Hsel. cbv zeta.
  destruct (Z.sqrtrem (Z.shiftl (Z.pos mx) (sqrtShift ex))) as [q r].
  cbn [fst snd]. f_equal. lia.
Qed.

Lemma sqrtMantissa_range mx ex :
  Z.pos (digits2_pos mx) = 53 -> 2 ^ 52 <= sqrtMantissa mx ex < 2 ^ 53.
Proof.
  intros Hdx. unfold sqrtMantissa.
  pose proof (normal_mantissa mx Hdx) as Hmx.
  assert (Hm' : 2 ^ 104 <= Z.shiftl (Z.pos mx) (sqrtShift ex) < 2 ^ 106).
  { destruct (sqrtShift_cases ex) as [-> | ->]; rewrite Z.shiftl_mul_pow2 by lia.
    - change (2 ^ 104) with (2 ^ 52 * 2 ^ 52). change (2 ^ 106) with (2 * 2 ^ 53 * 2 ^ 52).
      assert (0 < 2 ^ 52) by reflexivity. nia.
    - change (2 ^ 104) with (2 ^ 52 * 2 ^ 52). change (2 ^ 106) with (2 ^ 53 * 2 ^ 53).
      assert (0 < 2 ^ 52) by reflexivity. nia. }
  rewrite Z.sqrtrem_sqrt. split.
  - apply Z.sqrt_le_square; [lia | lia |]. change (2 ^ 52 * 2 ^ 52) with (2 ^ 104). lia.
  - apply Z.sqrt_lt_square; [lia | lia |]. change (2 ^ 53 * 2 ^ 53) with (2 ^ 106). lia.
Qed.

Lemma SFsqrt_normal a b x :
  normalSF a b x ->
  -2094 <= a -> b <= 1900 ->
  normalSF (a / 2 - 26) (b / 2 - 25) (SFsqrt prec emax x).
Proof.
  intros (mx & ex & -> & Hdx & Hex) Hlo Hhi.
  rewrite SFsqrt_finite by (assumption || lia).
  assert (Ha : a / 2 <= ex / 2) by (apply Z.div_le_mono; lia).
  assert (Hb : ex / 2 <= b / 2) by (apply Z.div_le_mono; lia).
  assert (Ha' : -1047 <= a / 2) by (apply Z.div_le_lower_bound; lia).
  assert (Hb' : b / 2 <= 950) by (apply Z.div_le_upper_bound; lia).
  pose proof (sqrtMantissa_range mx ex Hdx) as Hq.
  assert (Hdg : Zdigits2 (sqrtMantissa mx ex) = 53) by (apply Zdigits2_range; [lia | exact Hq]).
  eapply normalSF_weaken.
  - apply binary_round_aux_normal; [apply Hq | |]; rewrite Hdg; lia.
  - rewrite Hdg. lia.
  - rewrite Hdg. lia.
Qed.

Lemma SFsqrt_shift mx ex k :
  Z.pos (digits2_pos mx) = 53 ->
  -2094 <= ex <= 1900 -> -2094 <= ex + 2 * k <= 1900 ->
  SFsqrt prec emax (S754_finite false mx (ex + 2 * k)) =
  addExp k (SFsqrt prec emax (S754_finite false mx ex)).
Proof.
  intros Hdx He He'.
  rewrite !SFsqrt_finite by (assumption || lia).
  unfold sqrtMantissa, sqrtLocation. rewrite !sqrtShift_even.
  fold (sqrtMantissa mx ex). fold (sqrtLocation mx ex).
  pose proof (sqrtMantissa_range mx ex Hdx) as Hq.
  assert (Hdg : Zdigits2 (sqrtMantissa mx ex) = 53) by (apply Zdigits2_range; [lia | exact Hq]).
  replace ((ex + 2 * k) / 2 - 26) with (ex / 2 - 26 + k)
    by (replace (ex + 2 * k) with (ex + k * 2) by lia; rewrite Z.div_add by lia; lia).
  assert (-1047 <= ex / 2) by (apply Z.div_le_lower_bound; lia).
  assert (ex / 2 <= 950) by (apply Z.div_le_upper_bound; lia).
  assert (-1047 <= (ex + 2 * k) / 2) by (apply Z.div_le_lower_bound; lia).
  assert ((ex + 2 * k) / 2 <= 950) by (apply Z.div_le_upper_bound; lia).
  assert ((ex + 2 * k) / 2 = ex / 2 + k)
    by (replace (ex + 2 * k) with (ex + k * 2) by lia; rewrite Z.div_add by lia; lia).
  apply binary_round_aux_shift; [apply Hq | | | |]; rewrite Hdg; lia.
Qed.

(** The double of an integer below [2^53], and of its product by a power
    of 2. *)
Lemma binary_normalize_small z :
  0 < z < 2 ^ 53 ->
  binary_normalize prec emax z 0 false =
  binary_round_aux prec emax false (z * 2 ^ (53 - Zdigits2 z)) (Zdigits2 z - 53) loc_Exact.
Proof.
  intros Hz. destruct z as [| p | p]; try lia. cbn [binary_normalize].
  unfold binary_round.
  pose proof (Zdigits2_between 0 53 (Z.pos p) ltac:(lia) ltac:(simpl (2 ^ 0); lia)) as Hdg.
  cbn [Zdigits2] in *. set (d := Z.pos (digits2_pos p)) in *.
  rewrite fexp_normal by lia. unfold shl_align.
  destruct (d + 0 - 53 - 0) as [| k | k] eqn:Ek; try lia.
  - replace (53 - d) with 0 by lia. replace (d - 53) with 0 by lia.
    rewrite Z.pow_0_r, Z.mul_1_r. reflexivity.
  - rewrite pos_iter_xO. replace (53 - d) with (Z.pos k) by lia.
    replace (d + 0 - 53) with (d - 53) by lia. reflexivity.
Qed.

Lemma binary_normalize_shift z k :
  0 < z -> 0 <= k -> z * 2 ^ k < 2 ^ 53 ->
  binary_normalize prec emax (z * 2 ^ k) 0 false =
  addExp k (binary_normalize prec emax z 0 false).
Proof.
  intros Hz Hk Hlt.
  assert (Hp : 0 < 2 ^ k) by (apply Z.pow_pos_nonneg; lia).
  assert (Hz53 : z < 2 ^ 53) by nia.
  pose proof (Zdigits2_bounds z Hz) as Hb.
  pose proof (Zdigits2_between 0 53 z ltac:(lia) ltac:(simpl (2 ^ 0); lia)) as Hdg.
  set (d := Zdigits2 z) in *.
  assert (Hd' : Zdigits2 (z * 2 ^ k) = d + k).
  { apply Zdigits2_range; [lia |].
    replace (d + k - 1) with (d - 1 + k) by lia.
    rewrite !pow2_split by lia. nia. }
  assert (Hdk : d + k <= 53).
  { destruct (Z_lt_le_dec 53 (d + k)) as [Hgt |]; [| assumption].
    assert (2 ^ 53 <= 2 ^ (d + k - 1)) by (apply Z.pow_le_mono_r; lia).
    replace (d + k - 1) with (d - 1 + k) in * by lia.
    rewrite pow2_split in * by lia. nia. }
  rewrite !binary_normalize_small by nia.
  fold d. rewrite Hd'.
  replace (z * 2 ^ k * 2 ^ (53 - (d + k))) with (z * 2 ^ (53 - d)).
  2:{ replace (53 - d) with (k + (53 - (d + k))) by lia.
      rewrite pow2_split by lia. lia. }
  assert (Hm : 2 ^ 52 <= z * 2 ^ (53 - d) < 2 ^ 53).
  { assert (0 < 2 ^ (53 - d)) by (apply Z.pow_pos_nonneg; lia).
    replace (2 ^ 52) with (2 ^ (d - 1) * 2 ^ (53 - d))
      by (rewrite <- pow2_split by lia; f_equal; lia).
    replace (2 ^ 53) with (2 ^ d * 2 ^ (53 - d))
      by (rewrite <- pow2_split by lia; f_equal; lia).
    nia. }
  assert (Hd53 : Zdigits2 (z * 2 ^ (53 - d)) = 53) by (apply Zdigits2_range; [lia | exact Hm]).
  replace (d + k - 53) with (d - 53 + k) by lia.
  apply binary_round_aux_shift; [apply Hm | | | |]; rewrite Hd53; lia.
Qed.

(** *** Signs

    Outside the normal range the operations may overflow, underflow or
    yield [NaN], but from operands that are not negative they never yield a
    negative number. *)

Lemma binary_round_aux_nonneg mx ex lx :
  nonnegSF (binary_round_aux prec emax false mx ex lx).
Proof.
  unfold binary_round_aux.
  destruct (shr_fexp prec emax mx ex lx) as [mrs1 e1].
  destruct (shr_fexp prec emax _ e1 loc_Exact) as [mrs2 e2].
  destruct (shr_m mrs2); [reflexivity | | exact I].
  destruct (Z.leb e2 (Z.sub emax prec)); reflexivity.
Qed.

Lemma binary_normalize_nonneg z :
  0 <= z -> nonnegSF (binary_normalize prec emax z 0 false).
Proof.
  intros Hz. destruct z as [| p | p]; [reflexivity | | lia].
  cbn [binary_normalize]. unfold binary_round.
  destruct (shl_align p 0 _) as [mz ez]. apply binary_round_aux_nonneg.
Qed.

Lemma SFmul_nonneg x y :
  nonnegSF x -> nonnegSF y -> nonnegSF (SFmul prec emax x y).
Proof.
  destruct x as [sx | sx | | sx mx ex], y as [sy | sy | | sy my ey];
    cbn [nonnegSF SFmul]; intros Hx Hy; subst; try exact I; try reflexivity.
  apply binary_round_aux_nonneg.
Qed.

Lemma SFdiv_nonneg x y :
  nonnegSF x -> nonnegSF y -> nonnegSF (SFdiv prec emax x y).
Proof.
  destruct x as [sx | sx | | sx mx ex], y as [sy | sy | | sy my ey];
    cbn [nonnegSF SFdiv]; intros Hx Hy; subst; try exact I; try reflexivity.
  destruct (SFdiv_core_binary prec emax (Z.pos mx) ex (Z.pos my) ey) as [[mz ez] lz].
  apply binary_round_aux_nonneg.
Qed.

Lemma SFsqrt_nonneg x : nonnegSF x -> nonnegSF (SFsqrt prec emax x).
Proof.
  destruct x as [sx | sx | | sx mx ex]; cbn [nonnegSF SFsqrt]; intros Hx; subst;
    try exact I; try reflexivity.
  destruct (SFsqrt_core_binary prec emax (Z.pos mx) ex) as [[mz ez] lz].
  apply binary_round_aux_nonneg.
Qed.

(** *** Values

    What a rounding returns, against the integer it rounds. *)

Lemma shr_1_exact m :
  0 <= m -> m mod 2 = 0 ->
  shr_1 (Build_shr_record m false false) = Build_shr_record (m / 2) false false.
Proof.
  intros Hm Hev. destruct m as [| [p | p |] | p]; try lia; cbn [shr_1 orb].
  - reflexivity.
  - exfalso. rewrite Pos2Z.inj_xI in Hev. revert Hev.
    Z.to_euclidean_division_equations. lia.
  - f_equal. rewrite Pos2Z.inj_xO. apply Z.div_unique with (r := 0); lia.
  - exfalso. discriminate Hev.
Qed.

Lemma iter_shr_1_exact n m :
  0 <= m -> m mod 2 ^ Z.pos n = 0 ->
  iter_pos shr_1 n (Build_shr_record m false false) =
  Build_shr_record (m / 2 ^ Z.pos n) false false.
Proof.
  revert m. induction n as [n IH | n IH |]; intros m Hm Hdiv; cbn [iter_pos].
  - replace (Z.pos n~1) with (1 + Z.pos n + Z.pos n) in * by lia.
    rewrite !Z.pow_add_r in * by lia. change (2 ^ 1) with 2 in *.
    assert (Hp : 0 < 2 ^ Z.pos n) by (apply Z.pow_pos_nonneg; lia).
    apply Z.mod_divide in Hdiv; [| lia]. destruct Hdiv as [k Hk].
    assert (Hk0 : 0 <= k) by nia.
    rewrite shr_1_exact; [| lia |].
    2:{ subst m. replace (k * (2 * 2 ^ Z.pos n * 2 ^ Z.pos n))
          with (k * 2 ^ Z.pos n * 2 ^ Z.pos n * 2) by lia.
        apply Z.mod_mul. lia. }
    assert (E1 : m / 2 = k * 2 ^ Z.pos n * 2 ^ Z.pos n).
    { subst m. replace (k * (2 * 2 ^ Z.pos n * 2 ^ Z.pos n))
        with (k * 2 ^ Z.pos n * 2 ^ Z.pos n * 2) by lia.
      apply Z.div_mul. lia. }
    rewrite E1. rewrite IH; [| nia | apply Z.mod_mul; lia].
    rewrite Z.div_mul by lia.
    rewrite IH; [| nia | apply Z.mod_mul; lia].
    rewrite Z.div_mul by lia. f_equal. subst m.
    replace (k * (2 * 2 ^ Z.pos n * 2 ^ Z.pos n))
      with (k * (2 * 2 ^ Z.pos n * 2 ^ Z.pos n)) by lia.
    symmetry. apply Z.div_mul. lia.
  - replace (Z.pos n~0) with (Z.pos n + Z.pos n) in * by lia.
    rewrite !Z.pow_add_r in * by lia.
    assert (Hp : 0 < 2 ^ Z.pos n) by (apply Z.pow_pos_nonneg; lia).
    apply Z.mod_divide in Hdiv; [| lia]. destruct Hdiv as [k Hk].
    assert (Hk0 : 0 <= k) by nia.
    rewrite IH; [| lia |].
    2:{ subst m. replace (k * (2 ^ Z.pos n * 2 ^ Z.pos n))
          with (k * 2 ^ Z.pos n * 2 ^ Z.pos n) by lia.
        apply Z.mod_mul. lia. }
    assert (E1 : m / 2 ^ Z.pos n = k * 2 ^ Z.pos n).
    { subst m. replace (k * (2 ^ Z.pos n * 2 ^ Z.pos n))
        with (k * 2 ^ Z.pos n * 2 ^ Z.pos n) by lia.
      apply Z.div_mul. lia. }
    rewrite E1. rewrite IH; [| nia | apply Z.mod_mul; lia].
    rewrite Z.div_mul by lia. f_equal. subst m. symmetry. apply Z.div_mul. lia.
  - change (2 ^ 1) with 2 in *. apply shr_1_exact; assumption.
Qed.

Lemma shr_exact m n :
  0 <= m -> 0 <= n -> m mod 2 ^ n = 0 ->
  fst (shr (Build_shr_record m false false) 0 n) =
  Build_shr_record (m / 2 ^ n) false false.
Proof.
  intros Hm Hn Hdiv. destruct n as [| p | p]; try lia; cbn [shr fst].
  - rewrite Z.div_1_r. reflexivity.
  - apply iter_shr_1_exact; assumption.
Qed.

(** The value a rounding returns, against the integer it rounds. *)
Lemma binary_round_aux_value mx ex lx :
  2 ^ 52 <= mx ->
  -1074 <= Zdigits2 mx + ex - 53 ->
  Zdigits2 mx + ex - 52 <= 971 ->
  exists m s,
    binary_round_aux prec emax false mx ex lx = S754_finite false m (ex + s) /\
    Z.pos (digits2_pos m) = 53 /\
    Zdigits2 mx - 53 <= s <= Zdigits2 mx - 52 /\
    mx / 2 ^ (Zdigits2 mx - 53) <= Z.pos m * 2 ^ (s - (Zdigits2 mx - 53))
      <= mx / 2 ^ (Zdigits2 mx - 53) + 1 /\
    (lx = loc_Exact -> mx mod 2 ^ (Zdigits2 mx - 53) = 0 ->
     Z.pos m * 2 ^ (s - (Zdigits2 mx - 53)) = mx / 2 ^ (Zdigits2 mx - 53)).
Proof.
  intros Hmx Hlo Hhi.
  destruct (binary_round_aux_normal_form mx ex lx Hmx Hlo Hhi)
    as (m & Em & Hd & Hs & E).
  exists m, (roundedShift mx lx). split; [exact E |]. split; [exact Hd |].
  split; [lia |].
  assert (Hpos : 0 < mx) by (assert (0 < 2 ^ 52) by reflexivity; lia).
  pose proof (Zdigits2_bounds mx Hpos) as Hdb.
  unfold roundedMantissa, roundedShift, roundedOnce in *. cbv zeta in *.
  set (d := Zdigits2 mx) in *.
  assert (Hd53 : 53 <= d).
  { destruct (Z_lt_le_dec d 53) as [Hlt |]; [| assumption].
    assert (2 ^ d <= 2 ^ 52) by (apply Z.pow_le_mono_r; lia). lia. }
  pose proof (shr_spec (shr_record_of_loc mx lx) 0 (d - 53)) as Hs1.
  rewrite shr_record_of_loc_m in Hs1.
  specialize (Hs1 ltac:(lia) ltac:(lia)). destruct Hs1 as [Hm1 He1].
  assert (Hp : 0 < 2 ^ (d - 53)) by (apply Z.pow_pos_nonneg; lia).
  assert (Hr1 : 2 ^ 52 <= mx / 2 ^ (d - 53) < 2 ^ 53).
  { split.
    - apply Z.div_le_lower_bound; [exact Hp |].
      rewrite <- pow2_split by lia. replace (d - 53 + 52) with (d - 1) by lia. lia.
    - apply Z.div_lt_upper_bound; [exact Hp |].
      rewrite <- pow2_split by lia. replace (d - 53 + 53) with d by lia. lia. }
  set (mrs1 := fst (shr (shr_record_of_loc mx lx) 0 (d - 53))) in *.
  pose proof (round_nearest_even_bounds (shr_m mrs1) (loc_of_shr_record mrs1)) as Hrne.
  set (m2 := round_nearest_even (shr_m mrs1) (loc_of_shr_record mrs1)) in *.
  rewrite Hm1 in Hrne.
  assert (Hcase : Zdigits2 m2 = 53 /\ m2 < 2 ^ 53 \/ Zdigits2 m2 = 54 /\ m2 = 2 ^ 53).
  { destruct (Z_lt_le_dec m2 (2 ^ 53)) as [Hlt | Hge].
    - left. split; [| exact Hlt]. apply Zdigits2_range; [lia |].
      change (53 - 1) with 52. lia.
    - right. assert (Heq : m2 = 2 ^ 53) by lia. split; [| assumption].
      rewrite Heq. reflexivity. }
  pose proof (shr_spec (shr_record_of_loc m2 loc_Exact) 0 (Zdigits2 m2 - 53)) as Hs2.
  rewrite shr_record_of_loc_m in Hs2.
  specialize (Hs2 ltac:(lia) ltac:(destruct Hcase as [[-> _] | [-> _]]; lia)).
  destruct Hs2 as [Hm3 He3].
  rewrite Hm3 in Em. rewrite He1, He3 in *.
  assert (Eval : Z.pos m * 2 ^ (0 + (d - 53) + (0 + (Zdigits2 m2 - 53)) - (d - 53)) = m2).
  { rewrite <- Em. destruct Hcase as [[Hdg Hlt] | [Hdg Heq]]; rewrite Hdg.
    - replace (0 + (d - 53) + (0 + (53 - 53)) - (d - 53)) with 0 by lia.
      change (53 - 53) with 0. rewrite Z.pow_0_r, Z.div_1_r. lia.
    - replace (0 + (d - 53) + (0 + (54 - 53)) - (d - 53)) with 1 by lia.
      rewrite Heq. reflexivity. }
  rewrite Eval. split; [lia |].
  intros -> Hdiv.
  assert (Eloc : loc_of_shr_record mrs1 = loc_Exact).
  { unfold mrs1. cbn [shr_record_of_loc]. rewrite shr_exact by lia. reflexivity. }
  unfold m2. rewrite Eloc. cbn [round_nearest_even]. exact Hm1.
Qed.

End DoubleFacts.

(** ** The double stage of the planner *)

Section IdealCells.

Import Rounding DoubleFacts.

Lemma toNumber_spec z :
  Prim2SF (toNumber z) = binary_normalize prec emax (z mod 2 ^ 63) 0 false.
Proof.
  unfold toNumber. rewrite of_uint63_spec, Uint63.of_Z_spec. reflexivity.
Qed.

Lemma toNumber_nonneg z : nonnegSF (Prim2SF (toNumber z)).
Proof.
  rewrite toNumber_spec. apply binary_normalize_nonneg.
  apply Z.mod_pos_bound. reflexivity.
Qed.

Lemma toNumber_normal z :
  0 < z < 2 ^ 63 -> normalSF (-52) 11 (Prim2SF (toNumber z)).
Proof.
  intros Hz. rewrite toNumber_spec, Z.mod_small by lia.
  apply binary_normalize_normal. exact Hz.
Qed.

Lemma floorSF_nonneg x q : nonnegSF x -> floorSF x = Some q -> 0 <= q.
Proof.
  destruct x as [s | s | | s m e]; unfold nonnegSF, floorSF; intros Hs Hq;
    try discriminate.
  - injection Hq as <-. lia.
  - subst s. cbv zeta in Hq.
    assert (Hq' : q = if 0 <=? e then Z.pos m * 2 ^ e else Z.pos m / 2 ^ (- e))
      by congruence.
    rewrite Hq'. clear Hq Hq'.
    destruct (0 <=? e) eqn:He.
    + apply Z.mul_nonneg_nonneg; [lia |]. apply Z.pow_nonneg. lia.
    + apply Z.div_pos; [lia |]. apply Z.pow_pos_nonneg; lia.
Qed.

Lemma floorSF_normal lo hi x :
  normalSF lo hi x -> exists q, floorSF x = Some q /\ 0 <= q.
Proof.
  intros (m & e & -> & _ & _). eexists. split; [reflexivity |].
  apply (floorSF_nonneg (S754_finite false m e)); reflexivity.
Qed.

Lemma idealCells_unfold fw fh maxPixel align :
  idealCells fw fh maxPixel align =
  match mathFloor (cellQuotient fw fw fh maxPixel align),
        mathFloor (cellQuotient fh fw fh maxPixel align) with
  | Some qw, Some qh => Some (qw, qh)
  | _, _ => None
  end.
Proof. reflexivity. Qed.

Lemma cellQuotient_nonneg side fw fh maxPixel align :
  nonnegSF (Prim2SF (cellQuotient side fw fh maxPixel align)).
Proof.
  unfold cellQuotient, scaleOf.
  rewrite FloatAxioms.div_spec, FloatAxioms.mul_spec, FloatAxioms.sqrt_spec,
    FloatAxioms.div_spec, FloatAxioms.mul_spec.
  apply SFdiv_nonneg; [| apply toNumber_nonneg].
  apply SFmul_nonneg; [apply toNumber_nonneg |].
  apply SFsqrt_nonneg, SFdiv_nonneg; [apply toNumber_nonneg |].
  apply SFmul_nonneg; apply toNumber_nonneg.
Qed.

Lemma cellQuotient_normal side fw fh maxPixel align :
  0 < side < 2 ^ 63 -> 0 < fw < 2 ^ 63 -> 0 < fh < 2 ^ 63 ->
  0 < maxPixel < 2 ^ 63 -> 0 < align < 2 ^ 63 ->
  normalSF (-181) 47 (Prim2SF (cellQuotient side fw fh maxPixel align)).
Proof.
  intros Hs Hw Hh Hm Ha. unfold cellQuotient, scaleOf.
  rewrite FloatAxioms.div_spec, FloatAxioms.mul_spec, FloatAxioms.sqrt_spec,
    FloatAxioms.div_spec, FloatAxioms.mul_spec.
  pose proof (toNumber_normal side Hs) as Ns.
  pose proof (toNumber_normal fw Hw) as Nw.
  pose proof (toNumber_normal fh Hh) as Nh.
  pose proof (toNumber_normal maxPixel Hm) as Nm.
  pose proof (toNumber_normal align Ha) as Na.
  pose proof (SFmul_normal _ _ _ _ _ _ Nw Nh ltac:(lia) ltac:(lia)) as Nwh.
  pose proof (SFdiv_normal _ _ _ _ _ _ Nm Nwh ltac:(lia) ltac:(lia)) as Nq.
  pose proof (SFsqrt_normal _ _ _ Nq ltac:(lia) ltac:(lia)) as Nsc.
  assert (Nsc' : normalSF (-117) (-19)
                   (SFsqrt prec emax
                      (SFdiv prec emax (Prim2SF (toNumber maxPixel))
                         (SFmul prec emax (Prim2SF (toNumber fw)) (Prim2SF (toNumber fh)))))).
  { eapply normalSF_weaken; [exact Nsc | |].
    - apply Z.le_trans with (-91 - 26); [lia |].
      apply Z.sub_le_mono_r. apply Z.div_le_lower_bound; lia.
    - apply Z.le_trans with (6 - 25); [| lia].
      apply Z.sub_le_mono_r. apply Z.div_le_upper_bound; lia. }
  pose proof (SFmul_normal _ _ _ _ _ _ Ns Nsc' ltac:(lia) ltac:(lia)) as Nid.
  pose proof (SFdiv_normal _ _ _ _ _ _ Nid Na ltac:(lia) ltac:(lia)) as Nres.
  eapply normalSF_weaken; [exact Nres | lia | lia].
Qed.

(** Whatever the double stage returns is not negative. *)
Lemma idealCells_nonneg fw fh maxPixel align qw qh :
  idealCells fw fh maxPixel align = Some (qw, qh) -> 0 <= qw /\ 0 <= qh.
Proof.
  rewrite idealCells_unfold. unfold mathFloor.
  destruct (floorSF (Prim2SF (cellQuotient fw fw fh maxPixel align))) as [a |] eqn:Ea;
    [| discriminate].
  destruct (floorSF (Prim2SF (cellQuotient fh fw fh maxPixel align))) as [b |] eqn:Eb;
    [| discriminate].
  intros H. injection H as <- <-. split.
  - eapply floorSF_nonneg; [apply cellQuotient_nonneg | exact Ea].
  - eapply floorSF_nonneg; [apply cellQuotient_nonneg | exact Eb].
Qed.

(** On integers of at most 63 bits the double stage stays finite. *)
Lemma idealCells_finite fw fh maxPixel align :
  0 < fw < 2 ^ 63 -> 0 < fh < 2 ^ 63 ->
  0 < maxPixel < 2 ^ 63 -> 0 < align < 2 ^ 63 ->
  exists qw qh,
    idealCells fw fh maxPixel align = Some (qw, qh) /\ 0 <= qw /\ 0 <= qh.
Proof.
  intros Hw Hh Hm Ha. rewrite idealCells_unfold. unfold mathFloor.
  destruct (floorSF_normal _ _ _ (cellQuotient_normal fw fw fh maxPixel align Hw Hw Hh Hm Ha))
    as (qw & -> & Hqw).
  destruct (floorSF_normal _ _ _ (cellQuotient_normal fh fw fh maxPixel align Hh Hw Hh Hm Ha))
    as (qh & -> & Hqh).
  exists qw, qh. repeat split; assumption.
Qed.

(** *** Sources scaled by a power of 2

    Doubling both sides of the source divides [scale] by 2 exactly, so the
    ideal target size, and with it the whole plan, is unchanged. *)

Lemma toNumber_scaled z k :
  0 < z -> 0 <= k -> z * 2 ^ k < 2 ^ 53 ->
  Prim2SF (toNumber (z * 2 ^ k)) = addExp k (Prim2SF (toNumber z)).
Proof.
  intros Hz Hk Hlt.
  assert (0 < 2 ^ k) by (apply Z.pow_pos_nonneg; lia).
  assert (2 ^ 53 < 2 ^ 63) by reflexivity.
  rewrite !toNumber_spec, !Z.mod_small by nia.
  apply binary_normalize_shift; assumption.
Qed.

Lemma scaled_exponent z k : 0 < z -> 0 <= k -> z * 2 ^ k < 2 ^ 53 -> k <= 52.
Proof.
  intros Hz Hk Hlt. destruct (Z_lt_le_dec 52 k) as [Hgt |]; [| assumption].
  assert (2 ^ 53 <= 2 ^ k) by (apply Z.pow_le_mono_r; lia). nia.
Qed.

Lemma cellQuotient_scaling side fw fh maxPixel align k :
  0 < side -> 0 < fw -> 0 < fh -> 0 <= k ->
  side * 2 ^ k < 2 ^ 53 -> fw * 2 ^ k < 2 ^ 53 -> fh * 2 ^ k < 2 ^ 53 ->
  0 < maxPixel < 2 ^ 63 ->
  Prim2SF (cellQuotient (side * 2 ^ k) (fw * 2 ^ k) (fh * 2 ^ k) maxPixel align) =
  Prim2SF (cellQuotient side fw fh maxPixel align).
Proof.
  intros Hs Hw Hh Hk Hsk Hwk Hhk Hm.
  pose proof (scaled_exponent side k Hs Hk Hsk) as Hk52.
  assert (Hp : 0 < 2 ^ k) by (apply Z.pow_pos_nonneg; lia).
  assert (H53 : 2 ^ 53 < 2 ^ 63) by reflexivity.
  unfold cellQuotient, scaleOf.
  rewrite !FloatAxioms.div_spec, !FloatAxioms.mul_spec, !FloatAxioms.sqrt_spec,
    !FloatAxioms.div_spec, !FloatAxioms.mul_spec.
  rewrite !toNumber_scaled by assumption.
  unfold SF64mul, SF64div, SF64sqrt.
  pose proof (toNumber_normal side ltac:(nia)) as Ns.
  pose proof (toNumber_normal fw ltac:(nia)) as Nw.
  pose proof (toNumber_normal fh ltac:(nia)) as Nh.
  pose proof (toNumber_normal maxPixel Hm) as Nm.
  pose proof (SFmul_normal _ _ _ _ _ _ Nw Nh ltac:(lia) ltac:(lia)) as N1.
  pose proof (SFdiv_normal _ _ _ _ _ _ Nm N1 ltac:(lia) ltac:(lia)) as N2.
  pose proof (SFsqrt_normal _ _ _ N2 ltac:(lia) ltac:(lia)) as N3.
  destruct Ns as (ms & es & Es & Ds & Rs).
  destruct Nw as (mw & ew & Ew & Dw & Rw).
  destruct Nh as (mh & eh & Eh & Dh & Rh).
  destruct Nm as (mm & em & Em & Dm & Rm).
  rewrite Es, Ew, Eh, Em. cbn [addExp].
  rewrite Ew, Eh in N1. rewrite Em, Ew, Eh in N2. rewrite Em, Ew, Eh in N3.
  destruct N1 as (m1 & e1 & E1 & D1 & R1).
  assert (H1 : SFmul prec emax (S754_finite false mw (ew + k)) (S754_finite false mh (eh + k)) =
               S754_finite false m1 (e1 + (k + k)))
    by (rewrite SFmul_shift, E1 by (assumption || lia); reflexivity).
  rewrite H1, E1. rewrite E1 in N2, N3.
  destruct N2 as (m2 & e2 & E2 & D2 & R2).
  assert (H2 : SFdiv prec emax (S754_finite false mm em) (S754_finite false m1 (e1 + (k + k))) =
               S754_finite false m2 (e2 + 2 * (- k))).
  { pose proof (SFdiv_shift mm em m1 e1 0 (k + k) Dm D1 ltac:(lia) ltac:(lia)) as H.
    rewrite Z.add_0_r, E2 in H. rewrite H. cbn [addExp]. f_equal. lia. }
  rewrite H2, E2. rewrite E2 in N3.
  assert (R2' : -181 <= e2 <= 12) by lia.
  destruct N3 as (m3 & e3 & E3 & D3 & R3).
  assert (R3' : -117 <= e3 <= -19).
  { split.
    - apply Z.le_trans with (-91 - 26); [lia |].
      apply Z.le_trans with ((-52 - (11 + 11 + 54) - 53) / 2 - 26); [| lia].
      apply Z.sub_le_mono_r. apply Z.div_le_lower_bound; lia.
    - apply Z.le_trans with (6 - 25); [| lia].
      apply Z.le_trans with ((11 - (-52 + -52 + 52) - 51) / 2 - 25); [lia |].
      apply Z.sub_le_mono_r. apply Z.div_le_upper_bound; lia. }
  assert (H3 : SFsqrt prec emax (S754_finite false m2 (e2 + 2 * (- k))) =
               S754_finite false m3 (e3 + - k))
    by (rewrite SFsqrt_shift, E3 by (assumption || lia); reflexivity).
  rewrite H3, E3.
  assert (H4 : SFmul prec emax (S754_finite false ms (es + k)) (S754_finite false m3 (e3 + - k)) =
               SFmul prec emax (S754_finite false ms es) (S754_finite false m3 e3)).
  { rewrite SFmul_shift by (assumption || lia).
    replace (k + - k) with 0 by lia. apply addExp_0. }
  rewrite H4. reflexivity.
Qed.

Lemma idealCells_scaling fw fh maxPixel align k :
  0 < fw -> 0 < fh -> 0 <= k ->
  fw * 2 ^ k < 2 ^ 53 -> fh * 2 ^ k < 2 ^ 53 -> 0 < maxPixel < 2 ^ 63 ->
  idealCells (fw * 2 ^ k) (fh * 2 ^ k) maxPixel align = idealCells fw fh maxPixel align.
Proof.
  intros Hw Hh Hk Hwk Hhk Hm. rewrite !idealCells_unfold. unfold mathFloor.
  rewrite (cellQuotient_scaling fw fw fh maxPixel align k) by assumption.
  rewrite (cellQuotient_scaling fh fw fh maxPixel align k) by assumption.
  reflexivity.
Qed.

End IdealCells.

(** ** Doubles as real numbers

    Each operation of the planner is within one part in [2^52] of the
    exact result; [rel] keeps count of the roundings along the way. *)

Module DoubleValues.

Import Rounding DoubleFacts.
#[local] Open Scope R_scope.

Lemma ulp_pos : 0 < ulp.
Proof. unfold ulp. lra. Qed.

Lemma ulp_small : ulp < 1.
Proof. unfold ulp. lra. Qed.

Lemma low_pos n : 0 < (1 - ulp) ^ n.
Proof. apply pow_lt. pose proof ulp_small. lra. Qed.

Lemma high_pos k : 0 < (1 + ulp) ^ k.
Proof. apply pow_lt. pose proof ulp_pos. lra. Qed.

Lemma low_le_1 n : (1 - ulp) ^ n <= 1.
Proof.
  induction n as [| n IH]; [simpl; lra |]. simpl.
  pose proof ulp_pos. pose proof ulp_small. pose proof (low_pos n). nra.
Qed.

Lemma high_ge_1 k : 1 <= (1 + ulp) ^ k.
Proof. apply pow_R1_Rle. pose proof ulp_pos. lra. Qed.

Lemma rel_refl a : rel 0 0 a a.
Proof. unfold rel. simpl. lra. Qed.

Lemma rel_le a b : a <= b -> rel 0 0 a b.
Proof. unfold rel. simpl. lra. Qed.

Lemma rel_trans n1 k1 n2 k2 a b c :
  rel n1 k1 a b -> rel n2 k2 b c -> rel (n1 + n2) (k1 + k2) a c.
Proof.
  unfold rel. intros H1 H2. rewrite !pow_add.
  pose proof (low_pos n1). pose proof (low_pos n2).
  pose proof (high_pos k1). pose proof (high_pos k2).
  apply Rle_trans with (b * (1 + ulp) ^ k1 * (1 - ulp) ^ n2).
  - replace (a * ((1 - ulp) ^ n1 * (1 - ulp) ^ n2))
      with (a * (1 - ulp) ^ n1 * (1 - ulp) ^ n2) by ring.
    apply Rmult_le_compat_r; lra.
  - replace (b * (1 + ulp) ^ k1 * (1 - ulp) ^ n2)
      with (b * (1 - ulp) ^ n2 * (1 + ulp) ^ k1) by ring.
    replace (c * ((1 + ulp) ^ k1 * (1 + ulp) ^ k2))
      with (c * (1 + ulp) ^ k2 * (1 + ulp) ^ k1) by ring.
    apply Rmult_le_compat_r; lra.
Qed.

Lemma rel_mult n1 k1 n2 k2 a b c d :
  0 <= a -> 0 <= c ->
  rel n1 k1 a b -> rel n2 k2 c d -> rel (n1 + n2) (k1 + k2) (a * c) (b * d).
Proof.
  unfold rel. intros Ha Hc H1 H2. rewrite !pow_add.
  pose proof (low_pos n1). pose proof (low_pos n2).
  replace (a * c * ((1 - ulp) ^ n1 * (1 - ulp) ^ n2))
    with ((a * (1 - ulp) ^ n1) * (c * (1 - ulp) ^ n2)) by ring.
  replace (b * d * ((1 + ulp) ^ k1 * (1 + ulp) ^ k2))
    with ((b * (1 + ulp) ^ k1) * (d * (1 + ulp) ^ k2)) by ring.
  apply Rmult_le_compat; try assumption.
  - apply Rmult_le_pos; lra.
  - apply Rmult_le_pos; lra.
Qed.

Lemma rel_inv n k a b :
  0 < a -> 0 < b -> rel n k a b -> rel n k (/ b) (/ a).
Proof.
  unfold rel. intros Ha Hb H.
  pose proof (low_pos n). pose proof (high_pos k).
  apply Rmult_le_reg_r with (a * b); [apply Rmult_lt_0_compat; assumption |].
  replace (/ b * (1 - ulp) ^ n * (a * b)) with (a * (1 - ulp) ^ n) by (field; lra).
  replace (/ a * (1 + ulp) ^ k * (a * b)) with (b * (1 + ulp) ^ k) by (field; lra).
  exact H.
Qed.

Lemma rel_weaken n k n' k' a b :
  0 <= a -> 0 <= b -> (n <= n')%nat -> (k <= k')%nat ->
  rel n k a b -> rel n' k' a b.
Proof.
  unfold rel. intros Ha Hb Hn Hk H.
  replace n' with (n + (n' - n))%nat by lia.
  replace k' with (k + (k' - k))%nat by lia.
  rewrite !pow_add.
  pose proof (low_pos n). pose proof (high_pos k).
  pose proof (low_pos (n' - n)). pose proof (low_le_1 (n' - n)).
  pose proof (high_ge_1 (k' - k)).
  apply Rle_trans with (a * (1 - ulp) ^ n).
  - replace (a * ((1 - ulp) ^ n * (1 - ulp) ^ (n' - n)))
      with (a * (1 - ulp) ^ n * (1 - ulp) ^ (n' - n)) by ring.
    assert (0 <= a * (1 - ulp) ^ n) by (apply Rmult_le_pos; lra). nra.
  - apply Rle_trans with (b * (1 + ulp) ^ k); [exact H |].
    replace (b * ((1 + ulp) ^ k * (1 + ulp) ^ (k' - k)))
      with (b * (1 + ulp) ^ k * (1 + ulp) ^ (k' - k)) by ring.
    assert (0 <= b * (1 + ulp) ^ k) by (apply Rmult_le_pos; lra). nra.
Qed.

(** Powers of 2. *)
Lemma bpow_pos e : 0 < powerRZ 2 e.
Proof. apply powerRZ_lt. lra. Qed.

Lemma bpow_add a b : powerRZ 2 (a + b) = powerRZ 2 a * powerRZ 2 b.
Proof. apply powerRZ_add. lra. Qed.

Lemma IZR_pow2 k : (0 <= k)%Z -> IZR (2 ^ k) = powerRZ 2 k.
Proof.
  intros Hk. rewrite <- (Z2Nat.id k) by exact Hk.
  rewrite <- pow_IZR, <- pow_powerRZ. reflexivity.
Qed.

Lemma valueOf_normal lo hi x :
  normalSF lo hi x ->
  exists m e, x = S754_finite false m e /\
    (2 ^ 52 <= Z.pos m < 2 ^ 53)%Z /\ (lo <= e <= hi)%Z /\
    valueOf x = IZR (Z.pos m) * powerRZ 2 e /\ 0 < valueOf x.
Proof.
  intros (m & e & -> & Hd & He). exists m, e.
  split; [reflexivity |]. split; [apply normal_mantissa; exact Hd |].
  split; [exact He |]. cbn [valueOf]. split; [ring |].
  rewrite Rmult_1_l. apply Rmult_lt_0_compat; [apply IZR_lt; lia | apply bpow_pos].
Qed.

(** A rounding is within one part in 2^52 of the integer it rounds. *)
Lemma round_value mx ex lx :
  (2 ^ 52 <= mx)%Z ->
  (-1074 <= Zdigits2 mx + ex - 53)%Z ->
  (Zdigits2 mx + ex - 52 <= 971)%Z ->
  rel 0 1 (valueOf (binary_round_aux prec emax false mx ex lx))
          (IZR mx * powerRZ 2 ex) /\
  rel 1 0 (IZR mx * powerRZ 2 ex)
          (valueOf (binary_round_aux prec emax false mx ex lx)).
Proof.
  intros Hmx Hlo Hhi.
  destruct (binary_round_aux_value mx ex lx Hmx Hlo Hhi)
    as (m & s & -> & Hd & Hs & Hv & _).
  assert (Hpos : (0 < mx)%Z) by (assert (0 < 2 ^ 52)%Z by reflexivity; lia).
  pose proof (Zdigits2_bounds mx Hpos) as Hdb.
  set (d := Zdigits2 mx) in *.
  assert (Hd53 : (53 <= d)%Z).
  { destruct (Z_lt_le_dec d 53) as [Hlt |]; [| assumption].
    assert (2 ^ d <= 2 ^ 52)%Z by (apply Z.pow_le_mono_r; lia). lia. }
  set (m2 := (Z.pos m * 2 ^ (s - (d - 53)))%Z) in *.
  set (P := (2 ^ (d - 53))%Z) in *.
  assert (HP : (0 < P)%Z) by (apply Z.pow_pos_nonneg; lia).
  assert (HPT : (P * 2 ^ 52 <= mx)%Z).
  { unfold P. rewrite <- pow2_split by lia.
    replace (d - 53 + 52)%Z with (d - 1)%Z by lia. lia. }
  pose proof (Z.div_mod mx P ltac:(lia)) as Hdm.
  pose proof (Z.mod_pos_bound mx P HP) as Hmod.
  assert (Hup : (m2 * P * 2 ^ 52 <= mx * (2 ^ 52 + 1))%Z) by nia.
  assert (Hdn : (mx * (2 ^ 52 - 1) <= m2 * P * 2 ^ 52)%Z) by nia.
  assert (Eval : valueOf (S754_finite false m (ex + s)) =
                 IZR (m2 * P) * powerRZ 2 ex).
  { cbn [valueOf]. unfold m2, P. rewrite Rmult_1_l.
    rewrite <- Z.mul_assoc, <- pow2_split by lia.
    replace (s - (d - 53) + (d - 53))%Z with s by lia.
    rewrite mult_IZR, IZR_pow2 by lia. rewrite bpow_add. ring. }
  rewrite Eval.
  apply IZR_le in Hup, Hdn. rewrite !mult_IZR in Hup, Hdn.
  rewrite plus_IZR in Hup. rewrite minus_IZR in Hdn.
  change (IZR (2 ^ 52)) with 4503599627370496 in *.
  pose proof (bpow_pos ex) as Hb.
  unfold rel, ulp. simpl pow. split.
  - apply Rmult_le_reg_r with 4503599627370496; [lra |].
    replace (IZR (m2 * P) * powerRZ 2 ex * 1 * 4503599627370496)
      with (IZR m2 * IZR P * 4503599627370496 * powerRZ 2 ex)
      by (rewrite mult_IZR; ring).
    replace (IZR mx * powerRZ 2 ex * ((1 + / 4503599627370496) * 1) * 4503599627370496)
      with (IZR mx * (4503599627370496 + 1) * powerRZ 2 ex) by (field; lra).
    apply Rmult_le_compat_r; lra.
  - apply Rmult_le_reg_r with 4503599627370496; [lra |].
    replace (IZR (m2 * P) * powerRZ 2 ex * 1 * 4503599627370496)
      with (IZR m2 * IZR P * 4503599627370496 * powerRZ 2 ex)
      by (rewrite mult_IZR; ring).
    replace (IZR mx * powerRZ 2 ex * ((1 - / 4503599627370496) * 1) * 4503599627370496)
      with (IZR mx * (4503599627370496 - 1) * powerRZ 2 ex) by (field; lra).
    apply Rmult_le_compat_r; lra.
Qed.

Lemma SFmul_value a b c d x y :
  normalSF a b x -> normalSF c d y ->
  (-1126 <= a + c)%Z -> (b + d <= 917)%Z ->
  rel 0 1 (valueOf (SFmul prec emax x y)) (valueOf x * valueOf y) /\
  rel 1 0 (valueOf x * valueOf y) (valueOf (SFmul prec emax x y)).
Proof.
  intros (mx & ex & -> & Hdx & Hex) (my & ey & -> & Hdy & Hey) Hlo Hhi.
  cbn [SFmul xorb].
  pose proof (normal_mantissa mx Hdx) as Hmx.
  pose proof (normal_mantissa my Hdy) as Hmy.
  rewrite Pos2Z.inj_mul.
  assert (Hr : (2 ^ 104 <= Z.pos mx * Z.pos my < 2 ^ 106)%Z).
  { change (2 ^ 104)%Z with (2 ^ 52 * 2 ^ 52)%Z.
    change (2 ^ 106)%Z with (2 ^ 53 * 2 ^ 53)%Z.
    assert (0 < 2 ^ 52)%Z by reflexivity. nia. }
  pose proof (Zdigits2_between 104 106 _ ltac:(lia) Hr) as Hdg.
  assert (E : valueOf (S754_finite false mx ex) * valueOf (S754_finite false my ey) =
              IZR (Z.pos mx * Z.pos my) * powerRZ 2 (ex + ey)).
  { cbn [valueOf]. rewrite mult_IZR, bpow_add. ring. }
  rewrite E. apply round_value; [| lia | lia].
  assert (2 ^ 52 <= 2 ^ 104)%Z by (apply Z.pow_le_mono_r; lia). lia.
Qed.

Lemma SFdiv_value a b c d x y :
  normalSF a b x -> normalSF c d y ->
  (-1021 <= a - d)%Z -> (b - c <= 1022)%Z ->
  rel 0 1 (valueOf (SFdiv prec emax x y)) (valueOf x / valueOf y) /\
  rel 1 1 (valueOf x / valueOf y) (valueOf (SFdiv prec emax x y)).
Proof.
  intros (mx & ex & -> & Hdx & Hex) (my & ey & -> & Hdy & Hey) Hlo Hhi.
  rewrite SFdiv_finite by (assumption || lia).
  pose proof (divMantissa_range mx my Hdx Hdy) as Hqr.
  pose proof (Zdigits2_between 52 54 _ ltac:(lia) Hqr) as Hdg.
  pose proof (normal_mantissa mx Hdx) as Hmx.
  pose proof (normal_mantissa my Hdy) as Hmy.
  destruct (round_value (divMantissa mx my) (ex - ey - 53) (divLocation mx my)
              ltac:(lia) ltac:(lia) ltac:(lia)) as [Hup Hdn].
  set (Q := valueOf (binary_round_aux prec emax false (divMantissa mx my)
                       (ex - ey - 53) (divLocation mx my))) in *.
  set (q := divMantissa mx my) in *.
  set (X := IZR q * powerRZ 2 (ex - ey - 53)) in *.
  set (T := valueOf (S754_finite false mx ex) / valueOf (S754_finite false my ey)).
  assert (Hq : (q * Z.pos my <= Z.pos mx * 2 ^ 53 < (q + 1) * Z.pos my)%Z).
  { unfold q, divMantissa.
    pose proof (Z_div_mod (Z.pos mx * 2 ^ 53) (Z.pos my) ltac:(lia)) as Hdm.
    destruct (Z.div_eucl (Z.pos mx * 2 ^ 53) (Z.pos my)) as [q0 r0].
    cbn [fst]. nia. }
  pose proof (bpow_pos ex) as Bx. pose proof (bpow_pos ey) as By.
  pose proof (bpow_pos (ex - ey - 53)) as Bq.
  assert (Hmy0 : 0 < IZR (Z.pos my)) by (apply IZR_lt; lia).
  assert (ET : T * IZR (Z.pos my) =
               IZR (Z.pos mx) * IZR (2 ^ 53) * powerRZ 2 (ex - ey - 53)).
  { unfold T. cbn [valueOf].
    rewrite IZR_pow2 by lia.
    replace (powerRZ 2 ex) with (powerRZ 2 (ex - ey - 53) * powerRZ 2 53 * powerRZ 2 ey).
    2:{ rewrite <- !bpow_add. f_equal. lia. }
    field. split; lra. }
  destruct Hq as [Hq1 Hq2]. apply IZR_le in Hq1. apply IZR_lt in Hq2.
  rewrite !mult_IZR in Hq1, Hq2. rewrite plus_IZR in Hq2.
  assert (HXT : X <= T).
  { apply Rmult_le_reg_r with (IZR (Z.pos my)); [exact Hmy0 |].
    rewrite ET. unfold X.
    replace (IZR q * powerRZ 2 (ex - ey - 53) * IZR (Z.pos my))
      with (IZR q * IZR (Z.pos my) * powerRZ 2 (ex - ey - 53)) by ring.
    apply Rmult_le_compat_r; lra. }
  assert (HTX : rel 0 1 T X).
  { unfold rel, ulp. simpl pow.
    apply Rmult_le_reg_r with (IZR (Z.pos my)); [exact Hmy0 |].
    replace (T * 1 * IZR (Z.pos my)) with (T * IZR (Z.pos my)) by ring.
    rewrite ET. unfold X.
    assert (Hq52 : 4503599627370496 <= IZR q).
    { change 4503599627370496 with (IZR (2 ^ 52)). apply IZR_le. lia. }
    replace (IZR q * powerRZ 2 (ex - ey - 53) * ((1 + / 4503599627370496) * 1) *
             IZR (Z.pos my))
      with ((IZR q + IZR q / 4503599627370496) * IZR (Z.pos my) *
            powerRZ 2 (ex - ey - 53)) by (field; lra).
    apply Rmult_le_compat_r; [lra |].
    assert (1 <= IZR q / 4503599627370496).
    { apply Rmult_le_reg_r with 4503599627370496; [lra |].
      replace (IZR q / 4503599627370496 * 4503599627370496) with (IZR q)
        by (field; lra). lra. }
    nra. }
  split.
  - apply (rel_trans 0 1 0 0 Q X T); [exact Hup | apply rel_le; exact HXT].
  - apply (rel_trans 0 1 1 0 T X Q); [exact HTX | exact Hdn].
Qed.

Lemma SFsqrt_value a b x :
  normalSF a b x ->
  (-2094 <= a)%Z -> (b <= 1900)%Z ->
  rel 0 2 (valueOf (SFsqrt prec emax x) * valueOf (SFsqrt prec emax x)) (valueOf x) /\
  rel 2 2 (valueOf x) (valueOf (SFsqrt prec emax x) * valueOf (SFsqrt prec emax x)) /\
  0 < valueOf (SFsqrt prec emax x).
Proof.
  intros N Hlo Hhi.
  destruct (valueOf_normal _ _ _ (SFsqrt_normal _ _ _ N Hlo Hhi))
    as (_ & _ & _ & _ & _ & _ & Spos).
  destruct N as (mx & ex & -> & Hdx & Hex).
  rewrite SFsqrt_finite in * by (assumption || lia).
  assert (Ha' : (-1047 <= ex / 2)%Z) by (apply Z.div_le_lower_bound; lia).
  assert (Hb' : (ex / 2 <= 950)%Z) by (apply Z.div_le_upper_bound; lia).
  pose proof (sqrtMantissa_range mx ex Hdx) as Hq.
  assert (Hdg : Zdigits2 (sqrtMantissa mx ex) = 53%Z)
    by (apply Zdigits2_range; [lia | exact Hq]).
  pose proof (normal_mantissa mx Hdx) as Hmx.
  destruct (round_value (sqrtMantissa mx ex) (ex / 2 - 26) (sqrtLocation mx ex)
              ltac:(lia) ltac:(rewrite Hdg; lia) ltac:(rewrite Hdg; lia))
    as [Hup Hdn].
  set (S := valueOf (binary_round_aux prec emax false (sqrtMantissa mx ex)
                       (ex / 2 - 26) (sqrtLocation mx ex))) in *.
  set (q := sqrtMantissa mx ex) in *.
  set (e' := (ex / 2 - 26)%Z) in *.
  set (X := IZR q * powerRZ 2 e') in *.
  set (V := valueOf (S754_finite false mx ex)).
  assert (Hsh : (0 <= sqrtShift ex)%Z) by (destruct (sqrtShift_cases ex); lia).
  assert (Hq2 : (q * q <= Z.pos mx * 2 ^ sqrtShift ex < (q + 1) * (q + 1))%Z).
  { unfold q, sqrtMantissa. rewrite Z.sqrtrem_sqrt, Z.shiftl_mul_pow2 by exact Hsh.
    pose proof (Z.sqrt_spec (Z.pos mx * 2 ^ sqrtShift ex)
                  ltac:(apply Z.mul_nonneg_nonneg; [lia | apply Z.pow_nonneg; lia])) as Hs.
    cbv zeta in Hs. unfold Z.succ in Hs. exact Hs. }
  assert (EV : V = IZR (Z.pos mx * 2 ^ sqrtShift ex) * (powerRZ 2 e' * powerRZ 2 e')).
  { unfold V. cbn [valueOf]. rewrite mult_IZR, IZR_pow2 by exact Hsh.
    rewrite <- bpow_add, Rmult_1_l, Rmult_assoc, <- bpow_add. do 2 f_equal.
    unfold sqrtShift, e'. lia. }
  pose proof (bpow_pos e') as Be.
  assert (Hqpos : 0 < IZR q) by (apply IZR_lt; lia).
  assert (HX : 0 < X) by (unfold X; apply Rmult_lt_0_compat; assumption).
  destruct Hq2 as [Hq1 Hq3]. apply IZR_le in Hq1. apply IZR_lt in Hq3.
  rewrite (mult_IZR q q) in Hq1.
  rewrite (mult_IZR (q + 1) (q + 1)), plus_IZR in Hq3.
  assert (HXV : X * X <= V).
  { rewrite EV. unfold X.
    replace (IZR q * powerRZ 2 e' * (IZR q * powerRZ 2 e'))
      with (IZR q * IZR q * (powerRZ 2 e' * powerRZ 2 e')) by ring.
    apply Rmult_le_compat_r; [| lra].
    apply Rmult_le_pos; lra. }
  assert (HVX : rel 0 2 V (X * X)).
  { unfold rel, ulp. simpl pow. rewrite EV. unfold X.
    assert (Hq52 : 4503599627370496 <= IZR q).
    { change 4503599627370496 with (IZR (2 ^ 52)). apply IZR_le. lia. }
    assert (Hone : IZR q + 1 <= IZR q * (1 + / 4503599627370496)).
    { assert (1 <= IZR q * / 4503599627370496).
      { apply Rmult_le_reg_r with 4503599627370496; [lra |].
        replace (IZR q * / 4503599627370496 * 4503599627370496) with (IZR q)
          by (field; lra). lra. }
      lra. }
    replace (IZR q * powerRZ 2 e' * (IZR q * powerRZ 2 e') *
             ((1 + / 4503599627370496) * ((1 + / 4503599627370496) * 1)))
      with ((IZR q * (1 + / 4503599627370496)) * (IZR q * (1 + / 4503599627370496)) *
            (powerRZ 2 e' * powerRZ 2 e')) by ring.
    rewrite Rmult_1_r. apply Rmult_le_compat_r; [apply Rmult_le_pos; lra |].
    apply Rle_trans with ((IZR q + 1) * (IZR q + 1)); [lra |].
    apply Rmult_le_compat; lra. }
  assert (HS0 : 0 <= S) by lra.
  split; [| split; [| exact Spos]].
  - apply (rel_trans 0 2 0 0 (S * S) (X * X) V).
    + apply (rel_mult 0 1 0 1 S X S X); assumption.
    + apply rel_le. exact HXV.
  - apply (rel_trans 0 2 2 0 V (X * X) (S * S)); [exact HVX |].
    apply (rel_mult 1 0 1 0 X S X S); (lra || assumption).
Qed.

Lemma binary_normalize_round z :
  (0 < z < 2 ^ 63)%Z ->
  exists mx ex,
    binary_normalize prec emax z 0 false =
      binary_round_aux prec emax false mx ex loc_Exact /\
    (2 ^ 52 <= mx)%Z /\ (-52 <= Zdigits2 mx + ex - 53)%Z /\
    (Zdigits2 mx + ex - 52 <= 11)%Z /\
    IZR mx * powerRZ 2 ex = IZR z.
Proof.
  intros Hz. destruct (Z_lt_le_dec z (2 ^ 53)) as [Hs | Hl].
  - pose proof (Zdigits2_bounds z ltac:(lia)) as Hb.
    pose proof (Zdigits2_between 0 53 z ltac:(lia) ltac:(simpl (2 ^ 0)%Z; lia)) as Hdg.
    set (d := Zdigits2 z) in *.
    exists (z * 2 ^ (53 - d))%Z, (d - 53)%Z.
    assert (Hm : (2 ^ 52 <= z * 2 ^ (53 - d) < 2 ^ 53)%Z).
    { assert (0 < 2 ^ (53 - d))%Z by (apply Z.pow_pos_nonneg; lia).
      replace (2 ^ 52)%Z with (2 ^ (d - 1) * 2 ^ (53 - d))%Z
        by (rewrite <- pow2_split by lia; f_equal; lia).
      replace (2 ^ 53)%Z with (2 ^ d * 2 ^ (53 - d))%Z
        by (rewrite <- pow2_split by lia; f_equal; lia).
      nia. }
    assert (Hd53 : Zdigits2 (z * 2 ^ (53 - d)) = 53%Z)
      by (apply Zdigits2_range; [lia | exact Hm]).
    split; [apply binary_normalize_small; lia |].
    split; [lia |]. rewrite Hd53. split; [lia |]. split; [lia |].
    rewrite mult_IZR, IZR_pow2 by lia. rewrite Rmult_assoc, <- bpow_add.
    replace (53 - d + (d - 53))%Z with 0%Z by lia. simpl. ring.
  - exists z, 0%Z.
    pose proof (Zdigits2_between 53 63 z ltac:(lia) ltac:(lia)) as Hdg.
    split.
    + destruct z as [| p | p]; try lia. cbn [binary_normalize]. unfold binary_round.
      change (Z.pos (digits2_pos p)) with (Zdigits2 (Z.pos p)).
      rewrite fexp_normal by lia. unfold shl_align.
      destruct (Zdigits2 (Z.pos p) + 0 - 53 - 0)%Z eqn:E; try lia; reflexivity.
    + split; [assert (2 ^ 52 < 2 ^ 53)%Z by reflexivity; lia |].
      split; [lia |]. split; [lia |]. simpl. ring.
Qed.

Lemma toNumber_value z :
  (0 < z < 2 ^ 63)%Z ->
  rel 0 1 (valueOf (Prim2SF (toNumber z))) (IZR z) /\
  rel 1 0 (IZR z) (valueOf (Prim2SF (toNumber z))).
Proof.
  intros Hz. rewrite toNumber_spec, Z.mod_small by lia.
  destruct (binary_normalize_round z Hz) as (mx & ex & -> & Hm & Hlo & Hhi & <-).
  apply round_value; lia.
Qed.

(** [Math.floor] of a positive double. *)
Lemma floorSF_value lo hi x :
  normalSF lo hi x ->
  exists q, floorSF x = Some q /\ (0 <= q)%Z /\
    IZR q <= valueOf x < IZR q + 1.
Proof.
  intros (m & e & -> & Hd & He). cbn [floorSF valueOf]. rewrite Rmult_1_l.
  destruct (Z.leb_spec 0 e) as [Hpos | Hneg].
  - exists (Z.pos m * 2 ^ e)%Z. split; [reflexivity |].
    split; [apply Z.mul_nonneg_nonneg; [lia | apply Z.pow_nonneg; lia] |].
    rewrite mult_IZR, IZR_pow2 by exact Hpos. lra.
  - set (P := (2 ^ (- e))%Z).
    assert (HP : (0 < P)%Z) by (apply Z.pow_pos_nonneg; lia).
    exists (Z.pos m / P)%Z. split; [reflexivity |].
    split; [apply Z.div_pos; lia |].
    pose proof (Z.div_mod (Z.pos m) P ltac:(lia)) as Hdm.
    pose proof (Z.mod_pos_bound (Z.pos m) P HP) as Hmod.
    assert (H1 : (Z.pos m / P * P <= Z.pos m)%Z) by lia.
    assert (H2 : (Z.pos m < (Z.pos m / P + 1) * P)%Z) by lia.
    apply IZR_le in H1. apply IZR_lt in H2.
    rewrite mult_IZR in H1, H2. rewrite plus_IZR in H2.
    assert (EP : IZR P * powerRZ 2 e = 1).
    { unfold P. rewrite IZR_pow2 by lia. rewrite <- bpow_add.
      replace (- e + e)%Z with 0%Z by lia. reflexivity. }
    pose proof (bpow_pos e) as Be.
    assert (HPR : 0 < IZR P) by (apply IZR_lt; exact HP).
    split.
    + replace (IZR (Z.pos m / P)) with (IZR (Z.pos m / P) * (IZR P * powerRZ 2 e))
        by (rewrite EP; ring).
      rewrite <- Rmult_assoc. apply Rmult_le_compat_r; lra.
    + replace (IZR (Z.pos m / P) + 1)
        with ((IZR (Z.pos m / P) + 1) * (IZR P * powerRZ 2 e))
        by (rewrite EP; ring).
      rewrite <- Rmult_assoc. apply Rmult_lt_compat_r; lra.
Qed.

Lemma high_low_16 : (1 + ulp) ^ 16 <= 2 * (1 - ulp) ^ 16.
Proof. unfold ulp. lra. Qed.

(** The double floored for one side, against the real number it stands
    for: [side * sqrt(maxPixel / (fw * fh)) / align], squared. *)
Lemma cellQuotient_value side fw fh maxPixel align :
  (0 < side < 2 ^ 63)%Z -> (0 < fw < 2 ^ 63)%Z -> (0 < fh < 2 ^ 63)%Z ->
  (0 < maxPixel < 2 ^ 63)%Z -> (0 < align < 2 ^ 63)%Z ->
  let c := valueOf (Prim2SF (cellQuotient side fw fh maxPixel align)) in
  let target := IZR side * IZR side * (IZR maxPixel * / (IZR fw * IZR fh)) *
                (/ IZR align * / IZR align) in
  0 < c /\ rel 16 16 (c * c) target /\ rel 16 16 target (c * c).
Proof.
  intros Hs Hw Hh Hm Ha. unfold cellQuotient, scaleOf.
  rewrite FloatAxioms.div_spec, FloatAxioms.mul_spec, FloatAxioms.sqrt_spec,
    FloatAxioms.div_spec, FloatAxioms.mul_spec.
  unfold SF64mul, SF64div, SF64sqrt.
  pose proof (toNumber_normal side Hs) as Ns.
  pose proof (toNumber_normal fw Hw) as Nw.
  pose proof (toNumber_normal fh Hh) as Nh.
  pose proof (toNumber_normal maxPixel Hm) as Nm.
  pose proof (toNumber_normal align Ha) as Na.
  pose proof (SFmul_normal _ _ _ _ _ _ Nw Nh ltac:(lia) ltac:(lia)) as Nwh.
  pose proof (SFdiv_normal _ _ _ _ _ _ Nm Nwh ltac:(lia) ltac:(lia)) as Nq.
  pose proof (SFsqrt_normal _ _ _ Nq ltac:(lia) ltac:(lia)) as Nsc.
  assert (Nsc' : normalSF (-117) (-19)
                   (SFsqrt prec emax
                      (SFdiv prec emax (Prim2SF (toNumber maxPixel))
                         (SFmul prec emax (Prim2SF (toNumber fw)) (Prim2SF (toNumber fh)))))).
  { eapply normalSF_weaken; [exact Nsc | |].
    - apply Z.le_trans with (-91 - 26)%Z; [lia |].
      apply Z.sub_le_mono_r. apply Z.div_le_lower_bound; lia.
    - apply Z.le_trans with (6 - 25)%Z; [| lia].
      apply Z.sub_le_mono_r. apply Z.div_le_upper_bound; lia. }
  pose proof (SFmul_normal _ _ _ _ _ _ Ns Nsc' ltac:(lia) ltac:(lia)) as Nid.
  pose proof (SFdiv_normal _ _ _ _ _ _ Nid Na ltac:(lia) ltac:(lia)) as Nres.
  destruct (toNumber_value side Hs) as [Us Ls].
  destruct (toNumber_value fw Hw) as [Uw Lw].
  destruct (toNumber_value fh Hh) as [Uh Lh].
  destruct (toNumber_value maxPixel Hm) as [Um Lm].
  destruct (toNumber_value align Ha) as [Ua La].
  destruct (SFmul_value _ _ _ _ _ _ Nw Nh ltac:(lia) ltac:(lia)) as [Up Lp].
  destruct (SFdiv_value _ _ _ _ _ _ Nm Nwh ltac:(lia) ltac:(lia)) as [Ur Lr].
  destruct (SFsqrt_value _ _ _ Nq ltac:(lia) ltac:(lia)) as (USq & LSq & _).
  destruct (SFmul_value _ _ _ _ _ _ Ns Nsc' ltac:(lia) ltac:(lia)) as [Ui Li].
  destruct (SFdiv_value _ _ _ _ _ _ Nid Na ltac:(lia) ltac:(lia)) as [Uc Lc].
  destruct (valueOf_normal _ _ _ Ns) as (_ & _ & _ & _ & _ & _ & Ps).
  destruct (valueOf_normal _ _ _ Nw) as (_ & _ & _ & _ & _ & _ & Pw).
  destruct (valueOf_normal _ _ _ Nh) as (_ & _ & _ & _ & _ & _ & Ph).
  destruct (valueOf_normal _ _ _ Nm) as (_ & _ & _ & _ & _ & _ & Pm).
  destruct (valueOf_normal _ _ _ Na) as (_ & _ & _ & _ & _ & _ & Pa).
  destruct (valueOf_normal _ _ _ Nwh) as (_ & _ & _ & _ & _ & _ & Pp).
  destruct (valueOf_normal _ _ _ Nq) as (_ & _ & _ & _ & _ & _ & Pr).
  destruct (valueOf_normal _ _ _ Nsc) as (_ & _ & _ & _ & _ & _ & PS).
  destruct (valueOf_normal _ _ _ Nid) as (_ & _ & _ & _ & _ & _ & Pi).
  destruct (valueOf_normal _ _ _ Nres) as (_ & _ & _ & _ & _ & _ & Pc).
  set (vs := valueOf (Prim2SF (toNumber side))) in *.
  set (vw := valueOf (Prim2SF (toNumber fw))) in *.
  set (vh := valueOf (Prim2SF (toNumber fh))) in *.
  set (vm := valueOf (Prim2SF (toNumber maxPixel))) in *.
  set (va := valueOf (Prim2SF (toNumber align))) in *.
  set (fp := SFmul prec emax (Prim2SF (toNumber fw)) (Prim2SF (toNumber fh))) in *.
  set (vp := valueOf fp) in *.
  set (fr := SFdiv prec emax (Prim2SF (toNumber maxPixel)) fp) in *.
  set (vr := valueOf fr) in *.
  set (fS := SFsqrt prec emax fr) in *.
  set (vS := valueOf fS) in *.
  set (fi := SFmul prec emax (Prim2SF (toNumber side)) fS) in *.
  set (vi := valueOf fi) in *.
  set (fc := SFdiv prec emax fi (Prim2SF (toNumber align))) in *.
  set (vc := valueOf fc) in *.
  assert (Rs : 0 < IZR side) by (apply IZR_lt; lia).
  assert (Rw : 0 < IZR fw) by (apply IZR_lt; lia).
  assert (Rh : 0 < IZR fh) by (apply IZR_lt; lia).
  assert (Rm : 0 < IZR maxPixel) by (apply IZR_lt; lia).
  assert (Ra : 0 < IZR align) by (apply IZR_lt; lia).
  assert (Rwh : 0 < IZR fw * IZR fh) by (apply Rmult_lt_0_compat; assumption).
  assert (Pwh : 0 < vw * vh) by (apply Rmult_lt_0_compat; assumption).
  assert (Ia : 0 < / IZR align) by (apply Rinv_0_lt_compat; assumption).
  assert (Iva : 0 < / va) by (apply Rinv_0_lt_compat; assumption).
  assert (Iwh : 0 < / (IZR fw * IZR fh)) by (apply Rinv_0_lt_compat; assumption).
  assert (Ivwh : 0 < / (vw * vh)) by (apply Rinv_0_lt_compat; assumption).
  assert (Ivp : 0 < / vp) by (apply Rinv_0_lt_compat; assumption).
  cbv zeta. split; [exact Pc |].
  (* one side against the other, without its square *)
  assert (Hup1 : exists n k, (n <= 4)%nat /\ (k <= 4)%nat /\
                   rel n k vc (IZR side * vS * / IZR align)).
  { do 2 eexists. split; [| split]; cycle 2.
    - eapply rel_trans; [exact Uc |]. unfold Rdiv.
      eapply rel_mult; [lra | lra | | apply rel_inv; [exact Ra | exact Pa | exact La]].
      eapply rel_trans; [exact Ui |].
      eapply rel_mult; [lra | lra | exact Us | apply rel_refl].
    - simpl. lia.
    - simpl. lia. }
  assert (Hdn1 : exists n k, (n <= 4)%nat /\ (k <= 4)%nat /\
                   rel n k (IZR side * vS * / IZR align) vc).
  { do 2 eexists. split; [| split]; cycle 2.
    - eapply rel_trans; [| exact Lc]. unfold Rdiv.
      eapply rel_mult;
        [apply Rmult_le_pos; lra | lra | | apply rel_inv; [exact Pa | exact Ra | exact Ua]].
      eapply rel_trans; [| exact Li].
      eapply rel_mult; [lra | lra | exact Ls | apply rel_refl].
    - simpl. lia.
    - simpl. lia. }
  assert (Hup2 : exists n k, (n <= 8)%nat /\ (k <= 8)%nat /\
                   rel n k (vS * vS) (IZR maxPixel * / (IZR fw * IZR fh))).
  { do 2 eexists. split; [| split]; cycle 2.
    - eapply rel_trans; [exact USq |].
      eapply rel_trans; [exact Ur |]. unfold Rdiv.
      eapply rel_mult; [lra | lra | exact Um |].
      eapply rel_trans; [apply rel_inv; [| | exact Lp]; assumption |].
      apply rel_inv; [exact Rwh | exact Pwh |].
      eapply rel_mult; [lra | lra | exact Lw | exact Lh].
    - simpl. lia.
    - simpl. lia. }
  assert (Hdn2 : exists n k, (n <= 8)%nat /\ (k <= 8)%nat /\
                   rel n k (IZR maxPixel * / (IZR fw * IZR fh)) (vS * vS)).
  { do 2 eexists. split; [| split]; cycle 2.
    - eapply rel_trans; [| exact LSq].
      eapply rel_trans; [| exact Lr]. unfold Rdiv.
      eapply rel_mult; [lra | lra | exact Lm |].
      eapply rel_trans; [| apply rel_inv; [| | exact Up]; assumption].
      apply rel_inv; [exact Pwh | exact Rwh |].
      eapply rel_mult; [lra | lra | exact Uw | exact Uh].
    - simpl. lia.
    - simpl. lia. }
  destruct Hup1 as (n1 & k1 & Hn1 & Hk1 & Hup1).
  destruct Hdn1 as (n2 & k2 & Hn2 & Hk2 & Hdn1).
  destruct Hup2 as (n3 & k3 & Hn3 & Hk3 & Hup2).
  destruct Hdn2 as (n4 & k4 & Hn4 & Hk4 & Hdn2).
  assert (Hmid : 0 < IZR side * vS * / IZR align).
  { apply Rmult_lt_0_compat; [apply Rmult_lt_0_compat |]; assumption. }
  assert (Htgt : 0 < IZR maxPixel * / (IZR fw * IZR fh))
    by (apply Rmult_lt_0_compat; assumption).
  assert (Hsa : 0 < IZR side * IZR side * (/ IZR align * / IZR align)).
  { apply Rmult_lt_0_compat; apply Rmult_lt_0_compat; assumption. }
  assert (ESq : IZR side * vS * / IZR align * (IZR side * vS * / IZR align) =
                IZR side * IZR side * (/ IZR align * / IZR align) * (vS * vS)) by ring.
  assert (ET : IZR side * IZR side * (IZR maxPixel * / (IZR fw * IZR fh)) *
               (/ IZR align * / IZR align) =
               IZR side * IZR side * (/ IZR align * / IZR align) *
               (IZR maxPixel * / (IZR fw * IZR fh))) by ring.
  rewrite ET.
  assert (Hfull : 0 < IZR side * IZR side * (/ IZR align * / IZR align) *
                      (IZR maxPixel * / (IZR fw * IZR fh)))
    by (apply Rmult_lt_0_compat; assumption).
  assert (Hcc : 0 < vc * vc) by (apply Rmult_lt_0_compat; assumption).
  assert (HSS : 0 < vS * vS) by (apply Rmult_lt_0_compat; assumption).
  split.
  - apply (rel_weaken (n1 + n1 + (0 + n3)) (k1 + k1 + (0 + k3)));
      [lra | lra | lia | lia |].
    eapply rel_trans.
    + apply (rel_mult n1 k1 n1 k1); [lra | lra | exact Hup1 | exact Hup1].
    + rewrite ESq. apply rel_mult; [lra | lra | apply rel_refl | exact Hup2].
  - apply (rel_weaken (0 + n4 + (n2 + n2)) (0 + k4 + (k2 + k2)));
      [lra | lra | lia | lia |].
    eapply rel_trans.
    + apply rel_mult; [lra | lra | apply rel_refl | exact Hdn2].
    + rewrite <- ESq. apply (rel_mult n2 k2 n2 k2); [lra | lra | exact Hdn1 | exact Hdn1].
Qed.

(** The cells of one side stay far below 2^53 when the budget is below
    2^31. *)
Lemma cell_bounded side other maxPixel :
  (0 < side < 2 ^ 63)%Z -> (0 < other < 2 ^ 63)%Z -> (0 < maxPixel < 2 ^ 31)%Z ->
  forall fw fh,
    (fw = side /\ fh = other \/ fw = other /\ fh = side) ->
    exists q,
      mathFloor (cellQuotient side fw fh maxPixel 16) = Some q /\
      (0 <= q < 2 ^ 44)%Z.
Proof.
  intros Hs Ho Hm fw fh Hcase.
  assert (Hw : (0 < fw < 2 ^ 63)%Z) by (destruct Hcase as [[-> ->] | [-> ->]]; assumption).
  assert (Hh : (0 < fh < 2 ^ 63)%Z) by (destruct Hcase as [[-> ->] | [-> ->]]; assumption).
  assert (Hm' : (0 < maxPixel < 2 ^ 63)%Z).
  { assert (2 ^ 31 < 2 ^ 63)%Z by reflexivity. lia. }
  pose proof (cellQuotient_normal side fw fh maxPixel 16 Hs Hw Hh Hm' ltac:(lia)) as N.
  destruct (floorSF_value _ _ _ N) as (q & Eq & Hq0 & Hqc).
  exists q. split; [exact Eq |]. split; [exact Hq0 |].
  destruct (cellQuotient_value side fw fh maxPixel 16 Hs Hw Hh Hm' ltac:(lia))
    as (Pc & Up & _).
  cbv zeta in Pc, Up.
  set (c := valueOf (Prim2SF (cellQuotient side fw fh maxPixel 16))) in *.
  assert (Rs : 1 <= IZR side) by (apply IZR_le; lia).
  assert (Ro : 1 <= IZR other) by (apply IZR_le; lia).
  assert (Rs' : IZR side <= 9223372036854775808)
    by (change 9223372036854775808 with (IZR (2 ^ 63)); apply IZR_le; lia).
  assert (Rm : 0 < IZR maxPixel) by (apply IZR_lt; lia).
  assert (Rm' : IZR maxPixel <= 2147483648)
    by (change 2147483648 with (IZR (2 ^ 31)); apply IZR_le; lia).
  assert (ET : IZR side * IZR side * (IZR maxPixel * / (IZR fw * IZR fh)) *
               (/ 16 * / 16) = IZR side * / IZR other * IZR maxPixel * / 256).
  { destruct Hcase as [[-> ->] | [-> ->]]; field; lra. }
  rewrite ET in Up.
  assert (Hio : 0 < / IZR other <= 1).
  { split; [apply Rinv_0_lt_compat; lra |].
    rewrite <- Rinv_1. apply Rinv_le_contravar; lra. }
  assert (HT : IZR side * / IZR other * IZR maxPixel * / 256 <=
               9223372036854775808 * 2147483648 / 256).
  { assert (IZR side * / IZR other <= 9223372036854775808) by nra.
    assert (0 <= IZR side * / IZR other) by (apply Rmult_le_pos; lra).
    assert (IZR side * / IZR other * IZR maxPixel <= 9223372036854775808 * 2147483648)
      by (apply Rmult_le_compat; lra).
    lra. }
  assert (Hcc : c * c <= 2 * (9223372036854775808 * 2147483648 / 256)).
  { unfold rel in Up. pose proof high_low_16 as Hn.
    pose proof (low_pos 16) as Hl. pose proof (high_pos 16) as Hh16.
    set (T := IZR side * / IZR other * IZR maxPixel * / 256) in *.
    assert (T0 : 0 <= T).
    { unfold T. apply Rmult_le_pos; [apply Rmult_le_pos; [apply Rmult_le_pos |] |]; lra. }
    assert (c * c * (1 - ulp) ^ 16 <= 2 * T * (1 - ulp) ^ 16).
    { apply Rle_trans with (T * (1 + ulp) ^ 16); [exact Up |].
      replace (2 * T * (1 - ulp) ^ 16) with (T * (2 * (1 - ulp) ^ 16)) by ring.
      apply Rmult_le_compat_l; lra. }
    assert (c * c <= 2 * T) by (apply Rmult_le_reg_r with ((1 - ulp) ^ 16); lra).
    lra. }
  assert (Hc : c < 17592186044416).
  { destruct (Rlt_le_dec c 17592186044416) as [Hlt | Hge]; [exact Hlt |].
    exfalso.
    assert (17592186044416 * 17592186044416 <= c * c)
      by (apply Rmult_le_compat; lra).
    lra. }
  apply lt_IZR. change (IZR (2 ^ 44)) with 17592186044416. lra.
Qed.

Lemma idealCells_bounded fw fh maxPixel :
  (0 < fw < 2 ^ 63)%Z -> (0 < fh < 2 ^ 63)%Z -> (0 < maxPixel < 2 ^ 31)%Z ->
  exists qw qh,
    idealCells fw fh maxPixel 16 = Some (qw, qh) /\
    (0 <= qw < 2 ^ 44)%Z /\ (0 <= qh < 2 ^ 44)%Z.
Proof.
  intros Hw Hh Hm. rewrite idealCells_unfold.
  destruct (cell_bounded fw fh maxPixel Hw Hh Hm fw fh ltac:(left; split; reflexivity))
    as (qw & -> & Hqw).
  destruct (cell_bounded fh fw maxPixel Hh Hw Hm fw fh ltac:(right; split; reflexivity))
    as (qh & -> & Hqh).
  exists qw, qh. repeat split; lia.
Qed.

(** The cells of a square source: [floor(sqrt(maxPixel) / 16)], unless the
    budget is itself the square of a multiple of 16. *)
Lemma square_cell side maxPixel :
  (0 < side < 2 ^ 63)%Z -> (0 < maxPixel < 2 ^ 31)%Z ->
  (~ exists n, maxPixel = (16 * n) * (16 * n))%Z ->
  mathFloor (cellQuotient side side side maxPixel 16) =
  Some (Z.sqrt maxPixel / 16)%Z.
Proof.
  intros Hs Hm Hsq.
  assert (Hm' : (0 < maxPixel < 2 ^ 63)%Z).
  { assert (2 ^ 31 < 2 ^ 63)%Z by reflexivity. lia. }
  pose proof (cellQuotient_normal side side side maxPixel 16 Hs Hs Hs Hm' ltac:(lia)) as N.
  destruct (floorSF_value _ _ _ N) as (q & Eq & Hq0 & Hqc).
  unfold mathFloor. rewrite Eq. f_equal.
  destruct (cellQuotient_value side side side maxPixel 16 Hs Hs Hs Hm' ltac:(lia))
    as (Pc & Up & Dn).
  cbv zeta in Pc, Up, Dn.
  set (c := valueOf (Prim2SF (cellQuotient side side side maxPixel 16))) in *.
  assert (Rs : 0 < IZR side) by (apply IZR_lt; lia).
  assert (ET : IZR side * IZR side * (IZR maxPixel * / (IZR side * IZR side)) *
               (/ 16 * / 16) = IZR maxPixel / 256) by (field; lra).
  rewrite ET in Up, Dn. unfold rel in Up, Dn.
  set (k := (Z.sqrt maxPixel / 16)%Z).
  pose proof (Z.sqrt_spec maxPixel ltac:(lia)) as Hr. cbv zeta in Hr.
  unfold Z.succ in Hr.
  pose proof (Z.sqrt_nonneg maxPixel) as Hr0.
  pose proof (Z.div_mod (Z.sqrt maxPixel) 16 ltac:(lia)) as Hdm.
  pose proof (Z.mod_pos_bound (Z.sqrt maxPixel) 16 ltac:(lia)) as Hmod.
  fold k in Hdm.
  assert (Hk0 : (0 <= k)%Z) by (apply Z.div_pos; lia).
  assert (Hlow : (256 * (k * k) + 1 <= maxPixel)%Z).
  { assert ((16 * k) * (16 * k) <= maxPixel)%Z by nia.
    assert (maxPixel <> (16 * k) * (16 * k))%Z
      by (intros E; apply Hsq; exists k; exact E).
    lia. }
  assert (Hhigh : (maxPixel + 1 <= 256 * ((k + 1) * (k + 1)))%Z) by nia.
  assert (Hk : ((k + 1) * (k + 1) <= 2 ^ 24)%Z).
  { assert (k * k < 2 ^ 23)%Z.
    { change (2 ^ 31)%Z with (256 * 2 ^ 23)%Z in Hm. lia. }
    assert (k <= 2896)%Z.
    { destruct (Z_le_gt_dec k 2896) as [|Hgt]; [assumption |].
      assert (2897 * 2897 <= k * k)%Z by nia.
      change (2 ^ 23)%Z with 8388608%Z in *. lia. }
    change (2 ^ 24)%Z with 16777216%Z. nia. }
  apply IZR_le in Hlow, Hhigh, Hk.
  rewrite plus_IZR, !mult_IZR in Hlow. rewrite plus_IZR, !mult_IZR, plus_IZR in Hhigh.
  rewrite mult_IZR, plus_IZR in Hk.
  change (IZR (2 ^ 24)) with 16777216 in Hk.
  assert (RK : 0 <= IZR k) by (apply IZR_le; exact Hk0).
  set (K := IZR k) in *. set (M := IZR maxPixel) in *.
  assert (Hc1 : c < K + 1).
  { destruct (Rlt_le_dec c (K + 1)) as [Hlt | Hge]; [exact Hlt |]. exfalso.
    assert (H2 : (K + 1) * (K + 1) <= c * c) by (apply Rmult_le_compat; lra).
    set (Y := (K + 1) * (K + 1)) in *. set (C2 := c * c) in *.
    pose proof (low_pos 16) as Hl.
    assert (Y * (1 - ulp) ^ 16 <= C2 * (1 - ulp) ^ 16)
      by (apply Rmult_le_compat_r; lra).
    assert (M / 256 * (1 + ulp) ^ 16 <= (Y - / 256) * (1 + ulp) ^ 16).
    { pose proof (high_pos 16). apply Rmult_le_compat_r; lra. }
    assert (HY : Y * ((1 + ulp) ^ 16 - (1 - ulp) ^ 16) >= / 256 * (1 + ulp) ^ 16) by lra.
    assert (Hnum : 16777216 * ((1 + ulp) ^ 16 - (1 - ulp) ^ 16) < / 256 * (1 + ulp) ^ 16)
      by (unfold ulp; lra).
    assert (Hdiff : 0 <= (1 + ulp) ^ 16 - (1 - ulp) ^ 16).
    { pose proof (low_le_1 16). pose proof (high_ge_1 16). lra. }
    assert (Y * ((1 + ulp) ^ 16 - (1 - ulp) ^ 16) <=
            16777216 * ((1 + ulp) ^ 16 - (1 - ulp) ^ 16))
      by (apply Rmult_le_compat_r; lra).
    lra. }
  assert (Hc0 : K < c).
  { destruct (Rlt_le_dec K c) as [Hlt | Hge]; [exact Hlt |]. exfalso.
    assert (H2 : c * c <= K * K) by (apply Rmult_le_compat; lra).
    set (Y := K * K) in *. set (C2 := c * c) in *.
    pose proof (high_pos 16) as Hh.
    assert (C2 * (1 + ulp) ^ 16 <= Y * (1 + ulp) ^ 16)
      by (apply Rmult_le_compat_r; lra).
    assert ((Y + / 256) * (1 - ulp) ^ 16 <= M / 256 * (1 - ulp) ^ 16).
    { pose proof (low_pos 16). apply Rmult_le_compat_r; lra. }
    assert (HY : Y * ((1 + ulp) ^ 16 - (1 - ulp) ^ 16) >= / 256 * (1 - ulp) ^ 16) by lra.
    assert (Hnum : 16777216 * ((1 + ulp) ^ 16 - (1 - ulp) ^ 16) < / 256 * (1 - ulp) ^ 16)
      by (unfold ulp; lra).
    assert (Hdiff : 0 <= (1 + ulp) ^ 16 - (1 - ulp) ^ 16).
    { pose proof (low_le_1 16). pose proof (high_ge_1 16). lra. }
    assert (HYb : Y <= 16777216).
    { assert (0 <= Y) by (apply Rmult_le_pos; lra). unfold Y. nra. }
    assert (Y * ((1 + ulp) ^ 16 - (1 - ulp) ^ 16) <=
            16777216 * ((1 + ulp) ^ 16 - (1 - ulp) ^ 16))
      by (apply Rmult_le_compat_r; lra).
    lra. }
  assert (H1 : (q < k + 1)%Z).
  { apply lt_IZR. rewrite plus_IZR. fold K. lra. }
  assert (H2 : (k < q + 1)%Z).
  { apply lt_IZR. rewrite plus_IZR. fold K. lra. }
  lia.
Qed.

End DoubleValues.

(** ** Doubles of integers

    Below [2^53] the arithmetic of the correction loop is exact. *)

Module ExactDoubles.

Import Rounding DoubleFacts.

Lemma Zdigits2_scale z k :
  0 < z -> 0 <= k -> Zdigits2 (z * 2 ^ k) = Zdigits2 z + k.
Proof.
  intros Hz Hk. pose proof (Zdigits2_bounds z Hz) as Hb.
  assert (Hp : 0 < 2 ^ k) by (apply Z.pow_pos_nonneg; lia).
  assert (Hd : 1 <= Zdigits2 z).
  { rewrite Zdigits2_log2 by exact Hz. pose proof (Z.log2_nonneg z). lia. }
  apply Zdigits2_range; [lia |].
  replace (Zdigits2 z + k - 1) with (Zdigits2 z - 1 + k) by lia.
  rewrite !pow2_split by lia. nia.
Qed.

Lemma Zdigits2_pos z : 0 < z -> 1 <= Zdigits2 z.
Proof.
  intros Hz. rewrite Zdigits2_log2 by exact Hz. pose proof (Z.log2_nonneg z). lia.
Qed.

Lemma Zdigits2_le_53 z : 0 < z < 2 ^ 53 -> Zdigits2 z <= 53.
Proof.
  intros Hz.
  pose proof (Zdigits2_between 0 53 z ltac:(lia) ltac:(simpl (2 ^ 0); lia)). lia.
Qed.

Lemma Zdigits2_mono a b : 0 < a <= b -> Zdigits2 a <= Zdigits2 b.
Proof.
  intros H. rewrite !Zdigits2_log2 by lia.
  pose proof (Z.log2_le_mono a b ltac:(lia)). lia.
Qed.

(** A rounding that has nothing to round. *)
Lemma round_exact mx ex :
  2 ^ 52 <= mx ->
  -1074 <= Zdigits2 mx + ex - 53 ->
  Zdigits2 mx + ex - 52 <= 971 ->
  mx mod 2 ^ (Zdigits2 mx - 53) = 0 ->
  exists m,
    binary_round_aux prec emax false mx ex loc_Exact =
      S754_finite false m (ex + (Zdigits2 mx - 53)) /\
    Z.pos m = mx / 2 ^ (Zdigits2 mx - 53).
Proof.
  intros Hmx Hlo Hhi Hdiv.
  destruct (binary_round_aux_value mx ex loc_Exact Hmx Hlo Hhi)
    as (m & s & E & Hd & Hs & _ & Hex).
  specialize (Hex eq_refl Hdiv).
  pose proof (normal_mantissa m Hd) as Hm.
  assert (Hpos : 0 < mx) by (assert (0 < 2 ^ 52) by reflexivity; lia).
  pose proof (Zdigits2_bounds mx Hpos) as Hdb.
  set (d := Zdigits2 mx) in *.
  assert (Hd53 : 53 <= d).
  { destruct (Z_lt_le_dec d 53) as [Hlt |]; [| assumption].
    assert (2 ^ d <= 2 ^ 52) by (apply Z.pow_le_mono_r; lia). lia. }
  assert (Hp : 0 < 2 ^ (d - 53)) by (apply Z.pow_pos_nonneg; lia).
  assert (Hr1 : mx / 2 ^ (d - 53) < 2 ^ 53).
  { apply Z.div_lt_upper_bound; [exact Hp |].
    rewrite <- pow2_split by lia. replace (d - 53 + 53) with d by lia. lia. }
  assert (Es : s = d - 53).
  { destruct (Z.eq_dec s (d - 53)) as [| Hne]; [assumption |].
    assert (s = d - 52) by lia. subst s.
    replace (d - 52 - (d - 53)) with 1 in Hex by lia.
    change (2 ^ 1) with 2 in Hex. lia. }
  subst s. exists m. split; [exact E |].
  replace (d - 53 - (d - 53)) with 0 in Hex by lia.
  rewrite Z.pow_0_r, Z.mul_1_r in Hex. exact Hex.
Qed.

(** The double of an integer of [1, 2^53): its 53-bit mantissa and its
    exponent. *)
Lemma intSF_form z :
  0 < z < 2 ^ 53 ->
  exists m,
    binary_normalize prec emax z 0 false =
      S754_finite false m (Zdigits2 z - 53) /\
    Z.pos m = z * 2 ^ (53 - Zdigits2 z).
Proof.
  intros Hz. rewrite binary_normalize_small by exact Hz.
  pose proof (Zdigits2_bounds z ltac:(lia)) as Hb.
  pose proof (Zdigits2_le_53 z Hz) as Hd53.
  pose proof (Zdigits2_pos z ltac:(lia)) as Hd1.
  set (d := Zdigits2 z) in *.
  assert (Hm : 2 ^ 52 <= z * 2 ^ (53 - d) < 2 ^ 53).
  { assert (0 < 2 ^ (53 - d)) by (apply Z.pow_pos_nonneg; lia).
    replace (2 ^ 52) with (2 ^ (d - 1) * 2 ^ (53 - d))
      by (rewrite <- pow2_split by lia; f_equal; lia).
    replace (2 ^ 53) with (2 ^ d * 2 ^ (53 - d))
      by (rewrite <- pow2_split by lia; f_equal; lia).
    nia. }
  assert (Hdg : Zdigits2 (z * 2 ^ (53 - d)) = 53)
    by (apply Zdigits2_range; [lia | exact Hm]).
  destruct (round_exact (z * 2 ^ (53 - d)) (d - 53)) as (m & E & Em);
    try (rewrite Hdg; lia); [lia | rewrite Hdg; apply Z.mod_1_r |].
  rewrite Hdg in E, Em. change (53 - 53) with 0 in *.
  rewrite Z.pow_0_r, Z.div_1_r in Em. rewrite Z.add_0_r in E.
  exists m. split; assumption.
Qed.

(** The same double, reached from a multiple of a power of 2 with the
    matching negative exponent. *)
Lemma binary_normalize_scaled n k :
  0 <= n < 2 ^ 53 -> 0 <= k <= 1000 ->
  binary_normalize prec emax (n * 2 ^ k) (- k) false =
  binary_normalize prec emax n 0 false.
Proof.
  intros Hn Hk. destruct (Z.eq_dec n 0) as [-> | Hn0]; [reflexivity |].
  assert (Hn' : 0 < n < 2 ^ 53) by lia.
  assert (Hp : 0 < 2 ^ k) by (apply Z.pow_pos_nonneg; lia).
  pose proof (Zdigits2_bounds n ltac:(lia)) as Hb.
  pose proof (Zdigits2_le_53 n Hn') as Hd53.
  pose proof (Zdigits2_pos n ltac:(lia)) as Hd1.
  pose proof (Zdigits2_scale n k ltac:(lia) ltac:(lia)) as Hds.
  destruct (intSF_form n Hn') as (m & En & Em). rewrite En.
  set (d := Zdigits2 n) in *.
  destruct (n * 2 ^ k) as [| p | p] eqn:Ep; try lia.
  cbn [binary_normalize]. unfold binary_round.
  change (Z.pos (digits2_pos p)) with (Zdigits2 (Z.pos p)). rewrite Hds.
  replace (d + k + - k) with d by lia.
  rewrite fexp_normal by lia. unfold shl_align.
  destruct (d - 53 - - k) as [| j | j] eqn:Ej.
  - (* the mantissa has 53 bits already *)
    destruct (round_exact (Z.pos p) (- k)) as (m' & E' & Em');
      try (rewrite Hds; lia).
    + rewrite <- Ep. replace k with (53 - d) by lia.
      assert (0 < 2 ^ (53 - d)) by (apply Z.pow_pos_nonneg; lia).
      replace (2 ^ 52) with (2 ^ (d - 1) * 2 ^ (53 - d))
        by (rewrite <- pow2_split by lia; f_equal; lia). nia.
    + rewrite Hds. replace (d + k - 53) with 0 by lia. apply Z.mod_1_r.
    + rewrite E'. rewrite Hds in *. replace (d + k - 53) with 0 in * by lia.
      rewrite Z.pow_0_r, Z.div_1_r in Em'.
      assert (m' = m).
      { apply Pos2Z.inj. rewrite Em', Em. replace (53 - d) with k by lia. lia. }
      subst m'. f_equal. lia.
  - (* more than 53 bits: the rounding drops zeros *)
    assert (Hj : Z.pos j = d + k - 53) by lia.
    destruct (round_exact (Z.pos p) (- k)) as (m' & E' & Em');
      try (rewrite Hds; lia).
    + rewrite <- Ep.
      assert (2 ^ 52 <= 2 ^ (d - 1 + k)) by (apply Z.pow_le_mono_r; lia).
      rewrite pow2_split in * by lia. nia.
    + rewrite Hds, <- Ep. rewrite <- Hj.
      assert (E2 : 2 ^ k = 2 ^ (k - Z.pos j) * 2 ^ Z.pos j)
        by (rewrite <- pow2_split by lia; f_equal; lia).
      rewrite E2, Z.mul_assoc. apply Z.mod_mul.
      assert (0 < 2 ^ Z.pos j) by (apply Z.pow_pos_nonneg; lia). lia.
    + rewrite E'. rewrite Hds in *.
      assert (m' = m).
      { apply Pos2Z.inj. rewrite Em', Em, <- Hj.
        assert (E2 : 2 ^ k = 2 ^ (53 - d) * 2 ^ Z.pos j)
          by (rewrite <- pow2_split by lia; f_equal; lia).
        rewrite <- Ep, E2, Z.mul_assoc. apply Z.div_mul.
        assert (0 < 2 ^ Z.pos j) by (apply Z.pow_pos_nonneg; lia). lia. }
      subst m'. f_equal. lia.
  - (* fewer than 53 bits: the mantissa is shifted up *)
    assert (Hj : Z.pos j = 53 - d - k) by lia.
    rewrite <- En. rewrite binary_normalize_small by exact Hn'.
    fold d. rewrite pos_iter_xO, <- Ep, Hj.
    rewrite <- Z.mul_assoc, <- pow2_split by lia.
    replace (k + (53 - d - k)) with (53 - d) by lia. reflexivity.
Qed.

Lemma SFcompare_int a b :
  0 <= a < 2 ^ 53 -> 0 <= b < 2 ^ 53 ->
  SFcompare (binary_normalize prec emax a 0 false) (binary_normalize prec emax b 0 false) = Some (a ?= b).
Proof.
  intros Ha Hb.
  destruct (Z.eq_dec a 0) as [-> | Ha0]; destruct (Z.eq_dec b 0) as [-> | Hb0].
  - reflexivity.
  - destruct (intSF_form b ltac:(lia)) as (mb & -> & _). cbn.
    destruct b; try lia. reflexivity.
  - destruct (intSF_form a ltac:(lia)) as (ma & -> & _). cbn.
    destruct a; try lia. reflexivity.
  - destruct (intSF_form a ltac:(lia)) as (ma & -> & Ema).
    destruct (intSF_form b ltac:(lia)) as (mb & -> & Emb).
    pose proof (Zdigits2_bounds a ltac:(lia)) as Hda.
    pose proof (Zdigits2_bounds b ltac:(lia)) as Hdb.
    pose proof (Zdigits2_pos a ltac:(lia)) as Hda1.
    pose proof (Zdigits2_pos b ltac:(lia)) as Hdb1.
    pose proof (Zdigits2_le_53 a ltac:(lia)) as Hda53.
    cbn [SFcompare]. f_equal.
    destruct (Z.compare_spec (Zdigits2 a - 53) (Zdigits2 b - 53)) as [He | He | He].
    + assert (Ed : Zdigits2 b = Zdigits2 a) by lia.
      change (Pos.compare_cont Eq ma mb) with (Z.pos ma ?= Z.pos mb).
      rewrite Ema, Emb, Ed. symmetry.
      apply Zmult_compare_compat_r.
      assert (0 < 2 ^ (53 - Zdigits2 a)) by (apply Z.pow_pos_nonneg; lia). lia.
    + symmetry. apply Z.compare_lt_iff.
      assert (2 ^ Zdigits2 a <= 2 ^ (Zdigits2 b - 1)) by (apply Z.pow_le_mono_r; lia).
      lia.
    + symmetry. apply Z.compare_gt_iff.
      assert (2 ^ Zdigits2 b <= 2 ^ (Zdigits2 a - 1)) by (apply Z.pow_le_mono_r; lia).
      lia.
Qed.

(** The product of two doubles of integers: the double of the product when
    it is below [2^53], and a double of [2^53] or more otherwise. *)
Lemma SFmul_int a b :
  0 < a < 2 ^ 53 -> 0 < b < 2 ^ 53 ->
  (a * b < 2 ^ 53 -> SFmul prec emax (binary_normalize prec emax a 0 false) (binary_normalize prec emax b 0 false) = binary_normalize prec emax (a * b) 0 false) /\
  (2 ^ 53 <= a * b ->
   exists m e, SFmul prec emax (binary_normalize prec emax a 0 false) (binary_normalize prec emax b 0 false) = S754_finite false m e /\ 1 <= e).
Proof.
  intros Ha Hb.
  destruct (intSF_form a Ha) as (ma & -> & Ema).
  destruct (intSF_form b Hb) as (mb & -> & Emb).
  pose proof (Zdigits2_bounds a ltac:(lia)) as Hda.
  pose proof (Zdigits2_bounds b ltac:(lia)) as Hdb.
  pose proof (Zdigits2_pos a ltac:(lia)) as Hda1.
  pose proof (Zdigits2_pos b ltac:(lia)) as Hdb1.
  pose proof (Zdigits2_le_53 a Ha) as Hda53.
  pose proof (Zdigits2_le_53 b Hb) as Hdb53.
  set (da := Zdigits2 a) in *. set (db := Zdigits2 b) in *.
  cbn [SFmul xorb]. rewrite Pos2Z.inj_mul, Ema, Emb.
  set (k := 106 - da - db).
  assert (Emx : a * 2 ^ (53 - da) * (b * 2 ^ (53 - db)) = a * b * 2 ^ k).
  { unfold k. replace (106 - da - db) with (53 - da + (53 - db)) by lia.
    rewrite pow2_split by lia. ring. }
  rewrite Emx.
  assert (Hab : 0 < a * b) by nia.
  pose proof (Zdigits2_scale (a * b) k Hab ltac:(lia)) as Hds.
  pose proof (Zdigits2_bounds (a * b) Hab) as Hdab.
  pose proof (Zdigits2_pos (a * b) Hab) as Hdab1.
  set (D := Zdigits2 (a * b)) in *.
  assert (Hpk : 0 < 2 ^ k) by (apply Z.pow_pos_nonneg; lia).
  assert (Hmx : 2 ^ 104 <= a * b * 2 ^ k).
  { assert (Hm1 : 2 ^ 52 <= a * 2 ^ (53 - da)).
    { assert (0 < 2 ^ (53 - da)) by (apply Z.pow_pos_nonneg; lia).
      replace (2 ^ 52) with (2 ^ (da - 1) * 2 ^ (53 - da))
        by (rewrite <- pow2_split by lia; f_equal; lia). nia. }
    assert (Hm2 : 2 ^ 52 <= b * 2 ^ (53 - db)).
    { assert (0 < 2 ^ (53 - db)) by (apply Z.pow_pos_nonneg; lia).
      replace (2 ^ 52) with (2 ^ (db - 1) * 2 ^ (53 - db))
        by (rewrite <- pow2_split by lia; f_equal; lia). nia. }
    rewrite <- Emx. change (2 ^ 104) with (2 ^ 52 * 2 ^ 52).
    assert (0 < 2 ^ 52) by reflexivity. nia. }
  assert (H52 : 2 ^ 52 <= a * b * 2 ^ k).
  { assert (2 ^ 52 <= 2 ^ 104) by (apply Z.pow_le_mono_r; lia). lia. }
  assert (HD : 105 <= D + k).
  { rewrite <- Hds.
    pose proof (Zdigits2_between 104 (Zdigits2 (a * b * 2 ^ k)) (a * b * 2 ^ k)
                  ltac:(lia)) as Hbt.
    pose proof (Zdigits2_bounds (a * b * 2 ^ k) ltac:(lia)). lia. }
  assert (HDk : D + k <= 106).
  { assert (D <= da + db); [| unfold k; lia].
    destruct (Z_le_gt_dec D (da + db)) as [| Hgt]; [assumption |].
    assert (2 ^ (da + db) <= 2 ^ (D - 1)) by (apply Z.pow_le_mono_r; lia).
    rewrite pow2_split in * by lia. nia. }
  split.
  - intros Hlt.
    assert (HD53 : D <= 53) by (apply Zdigits2_le_53; lia).
    destruct (intSF_form (a * b) ltac:(lia)) as (m & -> & Em). fold D in Em |- *.
    destruct (round_exact (a * b * 2 ^ k) (da - 53 + (db - 53))) as (m' & E' & Em');
      try (rewrite Hds; lia); [exact H52 | |].
    + rewrite Hds.
      assert (E2 : 2 ^ k = 2 ^ (53 - D) * 2 ^ (D + k - 53))
        by (rewrite <- pow2_split by lia; f_equal; lia).
      rewrite E2, Z.mul_assoc. apply Z.mod_mul.
      assert (0 < 2 ^ (D + k - 53)) by (apply Z.pow_pos_nonneg; lia). lia.
    + rewrite E'. rewrite Hds in *.
      assert (m' = m).
      { apply Pos2Z.inj. rewrite Em', Em.
        assert (E2 : 2 ^ k = 2 ^ (53 - D) * 2 ^ (D + k - 53))
          by (rewrite <- pow2_split by lia; f_equal; lia).
        rewrite E2, Z.mul_assoc. apply Z.div_mul.
        assert (0 < 2 ^ (D + k - 53)) by (apply Z.pow_pos_nonneg; lia). lia. }
      subst m'. f_equal. unfold k. lia.
  - intros Hge.
    assert (HD54 : 54 <= D).
    { destruct (Z_le_gt_dec 54 D) as [| Hgt]; [assumption |].
      assert (2 ^ D <= 2 ^ 53) by (apply Z.pow_le_mono_r; lia). lia. }
    destruct (binary_round_aux_value (a * b * 2 ^ k) (da - 53 + (db - 53)) loc_Exact)
      as (m & s & E & _ & Hs & _); try (rewrite Hds; lia); [exact H52 |].
    rewrite Hds in Hs. exists m, (da - 53 + (db - 53) + s).
    split; [exact E | unfold k in *; lia].
Qed.

Lemma SFltb_product M W H :
  0 <= M < 2 ^ 53 -> 0 <= W < 2 ^ 53 -> 0 <= H < 2 ^ 53 ->
  SFltb (binary_normalize prec emax M 0 false) (SFmul prec emax (binary_normalize prec emax W 0 false) (binary_normalize prec emax H 0 false)) = (M <? W * H).
Proof.
  intros HM HW HH. unfold SFltb.
  destruct (Z.eq_dec W 0) as [-> | HW0].
  { destruct (Z.eq_dec H 0) as [-> | HH0].
    - change (SFmul prec emax (binary_normalize prec emax 0 0 false) (binary_normalize prec emax 0 0 false)) with (binary_normalize prec emax 0 0 false).
      rewrite SFcompare_int by lia. cbn. destruct M; try lia; reflexivity.
    - destruct (intSF_form H ltac:(lia)) as (mh & -> & _).
      change (SFmul prec emax (binary_normalize prec emax 0 0 false) (S754_finite false mh (Zdigits2 H - 53)))
        with (binary_normalize prec emax 0 0 false).
      rewrite SFcompare_int by lia. cbn. destruct M; try lia; reflexivity. }
  destruct (Z.eq_dec H 0) as [-> | HH0].
  { destruct (intSF_form W ltac:(lia)) as (mw & -> & _).
    change (SFmul prec emax (S754_finite false mw (Zdigits2 W - 53)) (binary_normalize prec emax 0 0 false))
      with (binary_normalize prec emax 0 0 false).
    rewrite SFcompare_int, Z.mul_0_r by lia. destruct M; try lia; reflexivity. }
  destruct (SFmul_int W H ltac:(lia) ltac:(lia)) as [Hsmall Hlarge].
  destruct (Z_lt_le_dec (W * H) (2 ^ 53)) as [Hlt | Hge].
  - rewrite Hsmall by exact Hlt. rewrite SFcompare_int by nia.
    destruct (Z.ltb_spec M (W * H)) as [Hc | Hc].
    + rewrite (proj2 (Z.compare_lt_iff _ _) Hc). reflexivity.
    + destruct (M ?= W * H) eqn:E; try reflexivity.
      apply (proj1 (Z.compare_lt_iff _ _)) in E. lia.
  - destruct (Hlarge Hge) as (m & e & -> & He).
    rewrite (proj2 (Z.ltb_lt M (W * H))) by lia.
    destruct (Z.eq_dec M 0) as [-> | HM0]; [reflexivity |].
    destruct (intSF_form M ltac:(lia)) as (mm & -> & _).
    pose proof (Zdigits2_le_53 M ltac:(lia)).
    cbn [SFcompare].
    rewrite (proj2 (Z.compare_lt_iff (Zdigits2 M - 53) e)) by lia. reflexivity.
Qed.

Lemma shl_align_fst mx ex ez :
  ez <= ex -> Z.pos (fst (shl_align mx ex ez)) = Z.pos mx * 2 ^ (ex - ez).
Proof.
  intros Hle. unfold shl_align.
  destruct (ez - ex) as [| d | d] eqn:E; try lia; cbn [fst].
  - replace (ex - ez) with 0 by lia. rewrite Z.pow_0_r. lia.
  - rewrite pos_iter_xO. f_equal. f_equal. lia.
Qed.

Lemma SFsub_int a b :
  0 < b <= a -> a < 2 ^ 53 ->
  SFsub prec emax (binary_normalize prec emax a 0 false) (binary_normalize prec emax b 0 false) = binary_normalize prec emax (a - b) 0 false.
Proof.
  intros Hb Ha.
  destruct (intSF_form a ltac:(lia)) as (ma & -> & Ema).
  destruct (intSF_form b ltac:(lia)) as (mb & -> & Emb).
  pose proof (Zdigits2_pos a ltac:(lia)) as Hda1.
  pose proof (Zdigits2_pos b ltac:(lia)) as Hdb1.
  pose proof (Zdigits2_le_53 a ltac:(lia)) as Hda53.
  pose proof (Zdigits2_mono b a ltac:(lia)) as Hmono.
  set (da := Zdigits2 a) in *. set (db := Zdigits2 b) in *.
  cbn [SFsub cond_Zopp]. rewrite Z.min_r by lia.
  rewrite !shl_align_fst by lia.
  rewrite Ema, Emb. replace (db - 53 - (db - 53)) with 0 by lia.
  rewrite Z.pow_0_r, Z.mul_1_r.
  replace (a * 2 ^ (53 - da) * 2 ^ (da - 53 - (db - 53)) - b * 2 ^ (53 - db))
    with ((a - b) * 2 ^ (53 - db)).
  2:{ rewrite <- Z.mul_assoc, <- pow2_split by lia.
      replace (53 - da + (da - 53 - (db - 53))) with (53 - db) by lia. ring. }
  replace (db - 53) with (- (53 - db)) by lia.
  apply binary_normalize_scaled; lia.
Qed.

(** *** The same facts on the doubles of the kernel *)

Lemma Prim2SF_eq x y : Prim2SF x = Prim2SF y -> x = y.
Proof.
  intros H. rewrite <- (FloatAxioms.SF2Prim_Prim2SF x), <- (FloatAxioms.SF2Prim_Prim2SF y).
  f_equal. exact H.
Qed.

Lemma toNumber_int z : 0 <= z < 2 ^ 63 -> Prim2SF (toNumber z) = binary_normalize prec emax z 0 false.
Proof. intros Hz. rewrite toNumber_spec, Z.mod_small by lia. reflexivity. Qed.

Lemma toNumber_mul a b :
  0 <= a -> 0 <= b -> a * b < 2 ^ 53 ->
  a < 2 ^ 53 -> b < 2 ^ 53 ->
  (toNumber a * toNumber b)%float = toNumber (a * b).
Proof.
  intros Ha Hb Hab Ha53 Hb53.
  assert (2 ^ 53 < 2 ^ 63) by reflexivity.
  apply Prim2SF_eq. rewrite FloatAxioms.mul_spec. unfold SF64mul.
  rewrite !toNumber_int by nia.
  destruct (Z.eq_dec a 0) as [-> | Ha0].
  { destruct (Z.eq_dec b 0) as [-> | Hb0]; [reflexivity |].
    destruct (intSF_form b ltac:(lia)) as (mb & -> & _). reflexivity. }
  destruct (Z.eq_dec b 0) as [-> | Hb0].
  { destruct (intSF_form a ltac:(lia)) as (ma & -> & _).
    rewrite Z.mul_0_r. reflexivity. }
  apply (proj1 (SFmul_int a b ltac:(lia) ltac:(lia))). exact Hab.
Qed.

Lemma toNumber_ltb_product M W H :
  0 <= M < 2 ^ 53 -> 0 <= W < 2 ^ 53 -> 0 <= H < 2 ^ 53 ->
  (toNumber M <? toNumber W * toNumber H)%float = (W * H >? M).
Proof.
  intros HM HW HH. assert (2 ^ 53 < 2 ^ 63) by reflexivity.
  rewrite FloatAxioms.ltb_spec, FloatAxioms.mul_spec. unfold SF64mul.
  rewrite !toNumber_int by lia. rewrite SFltb_product by assumption.
  symmetry. apply Z.gtb_ltb.
Qed.

Lemma toNumber_leb a b :
  0 <= a < 2 ^ 53 -> 0 <= b < 2 ^ 53 ->
  (toNumber a <=? toNumber b)%float = (a <=? b).
Proof.
  intros Ha Hb. assert (2 ^ 53 < 2 ^ 63) by reflexivity.
  rewrite FloatAxioms.leb_spec. unfold SFleb.
  rewrite !toNumber_int by lia. rewrite SFcompare_int by assumption.
  destruct (Z.leb_spec a b) as [Hc | Hc].
  - destruct (a ?= b) eqn:E; try reflexivity.
    apply (proj1 (Z.compare_gt_iff _ _)) in E. lia.
  - rewrite (proj2 (Z.compare_gt_iff _ _) Hc). reflexivity.
Qed.

Lemma toNumber_leb_0 a :
  0 <= a < 2 ^ 53 -> (toNumber a <=? 0)%float = (a <=? 0).
Proof.
  intros Ha. change 0%float with (toNumber 0). apply toNumber_leb; [exact Ha |].
  split; [lia | reflexivity].
Qed.

Lemma toNumber_eqb_0 a :
  0 <= a < 2 ^ 53 -> (toNumber a =? 0)%float = (a =? 0).
Proof.
  intros Ha. assert (2 ^ 53 < 2 ^ 63) by reflexivity.
  change 0%float with (toNumber 0).
  rewrite FloatAxioms.eqb_spec. unfold SFeqb.
  rewrite !toNumber_int by lia. rewrite SFcompare_int by (assumption || (split; [lia | reflexivity])).
  destruct (Z.eqb_spec a 0) as [-> | Hne]; [reflexivity |].
  destruct (a ?= 0) eqn:E; try reflexivity.
  apply (proj1 (Z.compare_eq_iff _ _)) in E. contradiction.
Qed.

Lemma toNumber_sub a b :
  0 < b <= a -> a < 2 ^ 53 ->
  (toNumber a - toNumber b)%float = toNumber (a - b).
Proof.
  intros Hb Ha. assert (2 ^ 53 < 2 ^ 63) by reflexivity.
  apply Prim2SF_eq. rewrite FloatAxioms.sub_spec. unfold SF64sub.
  rewrite !toNumber_int by lia. apply SFsub_int; assumption.
Qed.

End ExactDoubles.

(** ** The correction loop *)

Section ShrinkLoop.

Variable maxPixel : Z.
Variable align : positive.

Lemma shrink_onGrid w h :
  onGrid align w h -> shrunk maxPixel align (shrink maxPixel align w h).
Proof.
  funelim (shrink maxPixel align w h); intros (a & b & Hw & Hh & Ha & Hb).
  - (* within the budget: the loop is not entered *)
    unfold shrunk; cbn [fst snd]. exists a, b. repeat split; try assumption.
    left. repeat split; try assumption.
    match goal with E : (_ >? _) = false |- _ => pose proof E as Hgt end.
    rewrite Z.gtb_ltb, Z.ltb_ge in Hgt. exact Hgt.
  - (* a side reached zero: the break *)
    match goal with E : (_ || _) = true |- _ => pose proof E as Hbrk end.
    match goal with E : (_ >? _) = true |- _ => pose proof E as Hgt end.
    rewrite Z.gtb_ltb, Z.ltb_lt in Hgt.
    unfold shrinkW, shrinkH in *.
    destruct (Z.geb_spec w h) as [Hge | Hlt]; unfold shrunk; cbn [fst snd].
    + exists (a - 1), b. split; [lia |]. split; [lia |].
      rewrite orb_true_iff, !Z.leb_le in Hbrk.
      assert (a = 1) by nia.
      assert (b = 1) by nia.
      subst a b. right. split; [left; lia | nia].
    + exists a, (b - 1). split; [lia |]. split; [lia |].
      rewrite orb_true_iff, !Z.leb_le in Hbrk.
      assert (b = 1) by nia.
      nia.
  - (* one more round *)
    match goal with E : (_ || _) = false |- _ => pose proof E as Hbrk end.
    match goal with E : (_ >? _) = true |- _ => pose proof E as Hgt end.
    rewrite Z.gtb_ltb, Z.ltb_lt in Hgt.
    rewrite orb_false_iff, !Z.leb_gt in Hbrk.
    match goal with IH : onGrid _ _ _ -> _ |- _ => apply IH end.
    unfold shrinkW, shrinkH in *.
    destruct (Z.geb_spec w h).
    + exists (a - 1), b. repeat split; try lia. nia.
    + exists a, (b - 1). repeat split; try lia. nia.
Qed.

End ShrinkLoop.

(** ** The planner as a whole *)

Lemma clamp_onGrid (align : positive) (qw qh : Z) :
  0 <= qw -> 0 <= qh ->
  onGrid align
    (if qw * Z.pos align =? 0 then Z.pos align else qw * Z.pos align)
    (if qh * Z.pos align =? 0 then Z.pos align else qh * Z.pos align).
Proof.
  intros Hw Hh.
  exists (if qw * Z.pos align =? 0 then 1 else qw),
         (if qh * Z.pos align =? 0 then 1 else qh).
  destruct (Z.eqb_spec (qw * Z.pos align) 0) as [Ew | Ew];
    destruct (Z.eqb_spec (qh * Z.pos align) 0) as [Eh | Eh];
    repeat split; try lia; nia.
Qed.

Lemma alignAndShrink_shrunk maxPixel align qw qh r :
  0 <= qw -> 0 <= qh ->
  alignAndShrink maxPixel align qw qh = Some r ->
  shrunk maxPixel align r.
Proof.
  intros Hw Hh. unfold alignAndShrink. cbv zeta.
  destruct (_ && _); [| discriminate]. intros E. injection E as <-.
  apply shrink_onGrid, clamp_onGrid; assumption.
Qed.

(** Every finite run of the planner ends in a state the loop may leave. *)
Lemma planner_shrunk fw fh maxPixel align w h :
  resizeWithAspectRatioAndAlign fw fh maxPixel align = Some (w, h) ->
  shrunk maxPixel align (w, h).
Proof.
  unfold resizeWithAspectRatioAndAlign.
  destruct (idealCells fw fh maxPixel (Z.pos align)) as [[qw qh] |] eqn:E;
    [| discriminate].
  intros H. apply idealCells_nonneg in E.
  apply (alignAndShrink_shrunk _ _ qw qh); tauto.
Qed.

Lemma isExact_spec z : isExact z = true <-> 0 <= z < 2 ^ 53.
Proof.
  unfold isExact. rewrite andb_true_iff, Z.leb_le, Z.ltb_lt. reflexivity.
Qed.

(** The state the loop starts from is exact when the budget is below
    [2^31]: the two floors are then below [2^44]. *)
Lemma alignAndShrink_exact maxPixel qw qh :
  0 <= maxPixel < 2 ^ 53 -> 0 <= qw < 2 ^ 44 -> 0 <= qh < 2 ^ 44 ->
  alignAndShrink maxPixel 16 qw qh =
  Some (shrink maxPixel 16
          (if qw * 16 =? 0 then 16 else qw * 16)
          (if qh * 16 =? 0 then 16 else qh * 16)).
Proof.
  intros Hm Hw Hh. unfold alignAndShrink. cbv zeta.
  change (Z.pos 16) with 16.
  assert (E : forall z, 0 <= z < 2 ^ 53 -> isExact z = true).
  { intros z Hz. unfold isExact.
    rewrite (proj2 (Z.leb_le _ _)), (proj2 (Z.ltb_lt _ _)) by lia. reflexivity. }
  assert (2 ^ 44 * 16 < 2 ^ 53) by reflexivity.
  rewrite (E maxPixel Hm).
  rewrite (E (if qw * 16 =? 0 then 16 else qw * 16))
    by (destruct (qw * 16 =? 0); lia).
  rewrite (E (if qh * 16 =? 0 then 16 else qh * 16))
    by (destruct (qh * 16 =? 0); lia).
  reflexivity.
Qed.

(** With sides below [2^63] and a budget below [2^31] the planner
    returns. *)
Lemma planner_total fw fh maxPixel :
  0 < fw < 2 ^ 63 -> 0 < fh < 2 ^ 63 -> 0 < maxPixel < 2 ^ 31 ->
  exists w h, resizeWithAspectRatioAndAlign fw fh maxPixel 16 = Some (w, h).
Proof.
  intros Hw Hh Hm. unfold resizeWithAspectRatioAndAlign.
  destruct (DoubleValues.idealCells_bounded fw fh maxPixel Hw Hh Hm)
    as (qw & qh & E & Hqw & Hqh).
  change (Z.pos 16) with 16. rewrite E.
  assert (2 ^ 31 < 2 ^ 53) by reflexivity.
  rewrite alignAndShrink_exact by lia.
  destruct (shrink maxPixel 16 _ _) as [w h]. exists w, h. reflexivity.
Qed.

(** ** The loop on doubles

    From a state of exact integers the loop of the program, on doubles,
    goes through the doubles of the states of [shrink]. *)

Import ExactDoubles.

Lemma numberOf_toNumber z : 0 <= z < 2 ^ 63 -> numberOf z = toNumber z.
Proof.
  intros Hz. unfold numberOf. rewrite <- toNumber_int by exact Hz.
  apply SF2Prim_Prim2SF.
Qed.

Lemma shrink_round maxPixel align w h :
  shrink maxPixel align w h =
  if w * h >? maxPixel then
    if (shrinkW align w h <=? 0) || (shrinkH align w h <=? 0)
    then (shrinkW align w h, shrinkH align w h)
    else shrink maxPixel align (shrinkW align w h) (shrinkH align w h)
  else (w, h).
Proof.
  funelim (shrink maxPixel align w h).
  - match goal with E : (_ >? _) = false |- _ => rewrite E end. reflexivity.
  - match goal with E : (_ >? _) = true |- _ => rewrite E end.
    match goal with E : (_ || _) = true |- _ => rewrite E end. reflexivity.
  - match goal with E : (_ >? _) = true |- _ => rewrite E end.
    match goal with E : (_ || _) = false |- _ => rewrite E end. reflexivity.
Qed.

Lemma shrinkDoubles_exact (align : positive) M fuel : forall W H,
  0 <= M < 2 ^ 53 -> onGrid align W H -> W < 2 ^ 53 -> H < 2 ^ 53 ->
  W + H <= Z.of_nat fuel ->
  shrinkDoubles fuel (toNumber M) (toNumber (Z.pos align)) (toNumber W) (toNumber H) =
  Some (toNumber (fst (shrink M align W H)), toNumber (snd (shrink M align W H))).
Proof.
  induction fuel as [| fuel IH]; intros W H HM (a & b & Ew & Eh & Ha & Hb) HW HH Hf.
  - exfalso. pose proof (Pos2Z.is_pos align). nia.
  - pose proof (Pos2Z.is_pos align) as Hal.
    assert (HaW : Z.pos align <= W) by nia.
    assert (HaH : Z.pos align <= H) by nia.
    cbn [shrinkDoubles]. rewrite (shrink_round M align W H).
    rewrite toNumber_ltb_product by lia.
    destruct (W * H >? M); [| reflexivity].
    rewrite toNumber_leb by lia. unfold shrinkW, shrinkH. rewrite Z.geb_leb.
    destruct (Z.leb_spec H W) as [Hle | Hlt].
    + rewrite toNumber_sub by lia.
      rewrite !toNumber_leb_0 by lia.
      destruct ((W - Z.pos align <=? 0) || (H <=? 0)) eqn:Eb; [reflexivity |].
      apply orb_false_iff in Eb. destruct Eb as [Eb1 Eb2].
      apply Z.leb_gt in Eb1.
      apply IH; try lia.
      exists (a - 1), b. repeat split; try lia. nia.
    + rewrite toNumber_sub by lia.
      rewrite !toNumber_leb_0 by lia.
      destruct ((W <=? 0) || (H - Z.pos align <=? 0)) eqn:Eb; [reflexivity |].
      apply orb_false_iff in Eb. destruct Eb as [Eb1 Eb2].
      apply Z.leb_gt in Eb2.
      apply IH; try lia.
      exists a, (b - 1). repeat split; try lia. nia.
Qed.

Lemma clamp_doubles (align : positive) q :
  0 <= q ->
  (if q * Z.pos align =? 0 then Z.pos align else q * Z.pos align) < 2 ^ 53 ->
  (if (numberOf q * toNumber (Z.pos align) =? 0)%float
   then toNumber (Z.pos align) else (numberOf q * toNumber (Z.pos align))%float) =
  toNumber (if q * Z.pos align =? 0 then Z.pos align else q * Z.pos align).
Proof.
  intros Hq Hc. pose proof (Pos2Z.is_pos align) as Hal.
  assert (2 ^ 53 < 2 ^ 63) by reflexivity.
  assert (Hqa : q * Z.pos align < 2 ^ 53 /\ q < 2 ^ 53 /\ Z.pos align < 2 ^ 53).
  { revert Hc. destruct (Z.eqb_spec (q * Z.pos align) 0) as [E | E]; intros Hc.
    - assert (q = 0) by nia. subst q. lia.
    - assert (1 <= q) by nia. nia. }
  rewrite numberOf_toNumber by lia.
  rewrite toNumber_mul by lia.
  rewrite toNumber_eqb_0 by nia.
  destruct (q * Z.pos align =? 0); reflexivity.
Qed.

Lemma shrunk_16_cases maxPixel w h :
  shrunk maxPixel 16 (w, h) ->
  (16 <= w /\ 16 <= h /\ w mod 16 = 0 /\ h mod 16 = 0 /\ w * h <= maxPixel /\
   256 <= maxPixel) \/
  ((w = 0 /\ 16 <= h \/ 16 <= w /\ h = 0) /\ maxPixel < 256).
Proof.
  intros (a & b & Hw & Hh & H). cbn [fst snd] in *.
  destruct H as [(Ha & Hb & Hle) | (H0 & Hlt)].
  - left. subst w h. rewrite !Z.mod_mul by lia. repeat split; try lia; nia.
  - right. split; [| lia]. lia.
Qed.

(** C1, as amended: with sides below [2^63] and a budget of at least one
    16 x 16 cell and below [2^31], the planner returns two positive
    multiples of 16 whose product is within the budget. *)
Theorem planner_aligned_within_budget fw fh maxPixel :
  0 < fw < 2 ^ 63 -> 0 < fh < 2 ^ 63 -> 256 <= maxPixel < 2 ^ 31 ->
  exists w h,
    resizeWithAspectRatioAndAlign fw fh maxPixel 16 = Some (w, h) /\
    0 < w /\ 0 < h /\ w mod 16 = 0 /\ h mod 16 = 0 /\ w * h <= maxPixel.
Proof.
  intros Hw Hh Hm.
  destruct (planner_total fw fh maxPixel Hw Hh ltac:(lia)) as (w & h & E).
  exists w, h. split; [exact E |].
  apply planner_shrunk, shrunk_16_cases in E.
  destruct E as [E | [_ E]]; lia.
Qed.

Lemma planner_aligned_within_budget_witness :
  exists w h,
    resizeWithAspectRatioAndAlign 200 100 12288 16 = Some (w, h) /\
    0 < w /\ 0 < h /\ w mod 16 = 0 /\ h mod 16 = 0 /\ w * h <= 12288.
Proof.
  apply (planner_aligned_within_budget 200 100 12288); lia.
Defined.

(** C1, as stated, fails below 256: a budget of 255 pixels drives the width
    of a 100 x 100 image to zero. *)
Lemma planner_small_budget_counterexample :
  0 < 100 /\ 0 < 255 /\
  exists w h,
    resizeWithAspectRatioAndAlign 100 100 255 16 = Some (w, h) /\ ~ 0 < w.
Proof.
  split; [lia |]. split; [lia |]. exists 0, 16. split; [| lia].
  vm_compute. reflexivity.
Qed.

(** The plan does not change when both sides of the source are multiplied
    by the same power of 2. *)
Lemma planner_scaling fw fh maxPixel k :
  0 < fw -> 0 < fh -> 0 <= k ->
  fw * 2 ^ k < 2 ^ 53 -> fh * 2 ^ k < 2 ^ 53 -> 0 < maxPixel < 2 ^ 63 ->
  resizeWithAspectRatioAndAlign (fw * 2 ^ k) (fh * 2 ^ k) maxPixel 16 =
  resizeWithAspectRatioAndAlign fw fh maxPixel 16.
Proof.
  intros Hw Hh Hk Hwk Hhk Hm. unfold resizeWithAspectRatioAndAlign.
  rewrite idealCells_scaling by assumption. reflexivity.
Qed.

(** A square source, within a budget that is not the square of a multiple
    of 16, gets the plan of the exact root: the error of the four roundings
    is too small to carry the quotient across an integer. *)
Lemma square_plan side maxPixel :
  0 < side < 2 ^ 63 -> 0 < maxPixel < 2 ^ 31 ->
  ~ (exists n, maxPixel = (16 * n) * (16 * n)) ->
  resizeWithAspectRatioAndAlign side side maxPixel 16 = Some (squarePlan maxPixel).
Proof.
  intros Hs Hm Hn. unfold resizeWithAspectRatioAndAlign.
  change (Z.pos 16) with 16.
  rewrite idealCells_unfold, (DoubleValues.square_cell side maxPixel Hs Hm Hn).
  pose proof (Z.sqrt_spec maxPixel ltac:(lia)) as Hr. cbv zeta in Hr.
  set (r := Z.sqrt maxPixel) in *.
  assert (Hr0 : 0 <= r) by (apply Z.sqrt_nonneg).
  assert (Hr31 : r < 2 ^ 31).
  { change (2 ^ 31) with 2147483648 in *.
    destruct (Z.lt_ge_cases r 65536) as [Hlt | Hge]; [lia |].
    assert (65536 * 65536 <= r * r) by (apply Z.mul_le_mono_nonneg; lia). lia. }
  assert (Hk : 0 <= r / 16 < 2 ^ 44).
  { change (2 ^ 31) with 2147483648 in *. change (2 ^ 44) with 17592186044416.
    Z.to_euclidean_division_equations. lia. }
  assert (H53 : 2 ^ 31 < 2 ^ 53) by reflexivity.
  rewrite alignAndShrink_exact by lia.
  unfold squarePlan. fold r. cbv zeta.
  destruct (Z.eqb_spec (r / 16) 0) as [E0 | E0].
  - rewrite E0. change (0 * 16 =? 0) with true. cbv iota.
    assert (r < 16) by (Z.to_euclidean_division_equations; lia).
    assert (Hlt : maxPixel < 256) by nia.
    rewrite shrink_round.
    rewrite (proj2 (Z.gtb_gt _ _)) by lia.
    reflexivity.
  - assert (Hk1 : 1 <= r / 16) by lia.
    rewrite (proj2 (Z.eqb_neq (r / 16 * 16) 0)) by lia.
    assert (Hle : r / 16 * 16 <= r) by (Z.to_euclidean_division_equations; lia).
    assert (Hsq : r / 16 * 16 * (r / 16 * 16) <= maxPixel) by nia.
    rewrite shrink_round.
    destruct (Z.gtb_spec (r / 16 * 16 * (r / 16 * 16)) maxPixel) as [Hgt | _]; [lia |].
    rewrite (Z.mul_comm 16 (r / 16)). reflexivity.
Qed.

(** C6, as amended: within a budget below [2^31] that is not the square of
    a multiple of 16, any two square sources with sides below [2^63] get the
    same target dimensions, those of [squarePlan]; 256 and 1024 at 12288
    pixels both get 96 x 96. *)
Theorem square_sources_same_plan side1 side2 maxPixel :
  0 < side1 < 2 ^ 63 -> 0 < side2 < 2 ^ 63 -> 0 < maxPixel < 2 ^ 31 ->
  ~ (exists n, maxPixel = (16 * n) * (16 * n)) ->
  resizeWithAspectRatioAndAlign side1 side1 maxPixel 16 =
    resizeWithAspectRatioAndAlign side2 side2 maxPixel 16 /\
  resizeWithAspectRatioAndAlign side1 side1 maxPixel 16 = Some (squarePlan maxPixel) /\
  resizeWithAspectRatioAndAlign 256 256 12288 16 = Some (96, 96) /\
  resizeWithAspectRatioAndAlign 1024 1024 12288 16 = Some (96, 96).
Proof.
  intros H1 H2 Hm Hn.
  rewrite (square_plan side1 maxPixel H1 Hm Hn), (square_plan side2 maxPixel H2 Hm Hn).
  split; [reflexivity |]. split; [reflexivity |].
  split; vm_compute; reflexivity.
Qed.

Lemma square_sources_same_plan_witness :
  resizeWithAspectRatioAndAlign 300 300 12288 16 =
    resizeWithAspectRatioAndAlign 777 777 12288 16 /\
  resizeWithAspectRatioAndAlign 300 300 12288 16 = Some (squarePlan 12288) /\
  resizeWithAspectRatioAndAlign 256 256 12288 16 = Some (96, 96) /\
  resizeWithAspectRatioAndAlign 1024 1024 12288 16 = Some (96, 96).
Proof.
  apply (square_sources_same_plan 300 777 12288); try lia.
  intros [n Hn].
  assert (Hc : n <= -7 \/ -6 <= n <= 6 \/ 7 <= n) by lia.
  destruct Hc as [Hc | [Hc | Hc]]; nia.
Defined.

(** C6, as stated, fails at a budget that is such a square: at 1024
    pixels, the square of 32, a 1 x 1 source gets 32 x 32, but
    for a 65 x 65 source the double [65 * sqrt(1024 / 4225)] falls just
    short of 32 and the plan is 16 x 16. *)
Lemma square_sources_counterexample :
  resizeWithAspectRatioAndAlign 1 1 1024 16 = Some (32, 32) /\
  resizeWithAspectRatioAndAlign 65 65 1024 16 = Some (16, 16) /\
  resizeWithAspectRatioAndAlign 1 1 1024 16 <>
    resizeWithAspectRatioAndAlign 65 65 1024 16.
Proof.
  assert (H1 : resizeWithAspectRatioAndAlign 1 1 1024 16 = Some (32, 32))
    by (vm_compute; reflexivity).
  assert (H2 : resizeWithAspectRatioAndAlign 65 65 1024 16 = Some (16, 16))
    by (vm_compute; reflexivity).
  split; [exact H1 |]. split; [exact H2 |].
  rewrite H1, H2. discriminate.
Qed.

(** ** Mip levels *)

Lemma ceilDiv_spec a b :
  0 < b -> (ceilDiv a b - 1) * b < a <= ceilDiv a b * b.
Proof.
  intros Hb. unfold ceilDiv.
  pose proof (Z.div_mod (a + b - 1) b ltac:(lia)) as E.
  pose proof (Z.mod_pos_bound (a + b - 1) b Hb) as M.
  nia.
Qed.

Lemma forStride_length i n step :
  Z.of_nat (List.length (forStride i n step)) = Z.max 0 (ceilDiv (n - i) (Z.pos step)).
Proof.
  unfold ceilDiv. funelim (forStride i n step).
  - match goal with E : (_ <? _) = true |- _ => pose proof E as Hlt end.
    apply Z.ltb_lt in Hlt.
    cbn [List.length]. rewrite Nat2Z.inj_succ.
    match goal with IH : Z.of_nat _ = _ |- _ => rewrite IH end.
    replace (n - i + Z.pos step - 1) with (n - (i + Z.pos step) + Z.pos step - 1 + 1 * Z.pos step) by lia.
    rewrite Z.div_add by lia.
    assert (0 <= (n - (i + Z.pos step) + Z.pos step - 1) / Z.pos step)
      by (apply Z.div_pos; lia).
    lia.
  - match goal with E : (_ <? _) = false |- _ => pose proof E as Hge end.
    apply Z.ltb_ge in Hge. cbn [List.length].
    assert ((n - i + Z.pos step - 1) / Z.pos step < 1)
      by (apply Z.div_lt_upper_bound; lia).
    lia.
Qed.

Lemma flat_map_constant_length {A B : Type} (f : A -> list B) (l : list A) (k : nat) :
  (forall x, List.length (f x) = k) ->
  List.length (flat_map f l) = (List.length l * k)%nat.
Proof.
  intros Hf. induction l as [| x l IH]; [reflexivity |].
  cbn [flat_map List.length]. rewrite length_app, Hf, IH. lia.
Qed.

Lemma mipSamples_length indexedPixels w h level :
  Z.of_nat (List.length (mipSamples indexedPixels w h level)) =
  Z.max 0 (ceilDiv h (Z.pos (stepOf level))) * Z.max 0 (ceilDiv w (Z.pos (stepOf level))).
Proof.
  unfold mipSamples. cbv zeta.
  rewrite (flat_map_constant_length _ _ (List.length (forStride 0 w (stepOf level))))
    by (intros y; apply length_map).
  rewrite Nat2Z.inj_mul, !forStride_length, !Z.sub_0_r. reflexivity.
Qed.

Lemma from_length l : List.length (Buffer.from l) = List.length l.
Proof. apply length_map. Qed.

Lemma ceilDiv_pos a b : 0 < a -> 0 < b -> 0 < ceilDiv a b.
Proof. intros Ha Hb. pose proof (ceilDiv_spec a b Hb). nia. Qed.

(** C5: level [k] holds [ceil(w / 2^k) * ceil(h / 2^k)] indices, and level 0
    holds [w * h] of them. *)
Theorem mip_level_length indexedPixels w h k :
  0 < w -> 0 < h -> (k < 4)%nat ->
  Z.of_nat (List.length (nth k (buildMips indexedPixels w h) [])) =
    ceilDiv w (2 ^ Z.of_nat k) * ceilDiv h (2 ^ Z.of_nat k) /\
  Z.of_nat (List.length (nth 0 (buildMips indexedPixels w h) [])) = w * h.
Proof.
  intros Hw Hh Hk.
  assert (Hlevel : forall level,
             Z.of_nat (List.length (Buffer.from (mipSamples indexedPixels w h level))) =
             ceilDiv w (Z.pos (stepOf level)) * ceilDiv h (Z.pos (stepOf level))).
  { intros level. rewrite from_length, mipSamples_length.
    pose proof (ceilDiv_pos w (Z.pos (stepOf level)) Hw ltac:(lia)).
    pose proof (ceilDiv_pos h (Z.pos (stepOf level)) Hh ltac:(lia)).
    lia. }
  split.
  - destruct k as [| [| [| [| k]]]]; try lia; cbn [buildMips levels map nth];
      rewrite Hlevel; reflexivity.
  - cbn [buildMips levels map nth]. rewrite Hlevel.
    change (Z.pos (stepOf 0)) with 1. unfold ceilDiv.
    rewrite !Z.div_1_r. lia.
Qed.

Lemma mip_level_length_witness :
  Z.of_nat (List.length (nth 1 (buildMips [] 48 16) [])) =
    ceilDiv 48 (2 ^ Z.of_nat 1) * ceilDiv 16 (2 ^ Z.of_nat 1) /\
  Z.of_nat (List.length (nth 0 (buildMips [] 48 16) [])) = 48 * 16.
Proof.
  apply (mip_level_length [] 48 16 1); lia.
Defined.

(** ** The index buffer *)

Lemma findIndexFrom_range pred l i :
  findIndexFrom pred l i = -1 \/
  i <= findIndexFrom pred l i < i + Z.of_nat (List.length l).
Proof.
  revert i. induction l as [| c l IH]; intros i; cbn [findIndexFrom List.length].
  - left. reflexivity.
  - destruct (pred c).
    + right. lia.
    + destruct (IH (i + 1)) as [E | E]; [left; exact E | right; lia].
Qed.

Lemma indexOfPixel_range rgbaPalette c :
  List.length rgbaPalette = 256%nat ->
  0 <= indexOfPixel rgbaPalette c <= 255.
Proof.
  intros Hlen. unfold indexOfPixel, findIndex.
  destruct (Color.isTransparent c); [lia |].
  destruct (findIndexFrom_range (fun d => Color.eqb d c) rgbaPalette 0) as [E | E].
  - rewrite E. cbn. lia.
  - destruct (Z.geb_spec (findIndexFrom (fun d => Color.eqb d c) rgbaPalette 0) 0); lia.
Qed.

Lemma indexOfPixel_transparent rgbaPalette c :
  Color.isTransparent c = true -> indexOfPixel rgbaPalette c = 255.
Proof. intros H. unfold indexOfPixel. rewrite H. reflexivity. Qed.

(** A sample of a mip level is an entry of the base buffer or 255. *)
Lemma sample_cases (indexedPixels : list Z) idx :
  orElse (at_ indexedPixels idx) 255 = 255 \/
  In (orElse (at_ indexedPixels idx) 255) indexedPixels.
Proof.
  unfold at_. destruct (idx <? 0); [left; reflexivity |].
  destruct (nth_error indexedPixels (Z.to_nat idx)) as [v |] eqn:E.
  - right. cbn [orElse]. eapply nth_error_In; exact E.
  - left. reflexivity.
Qed.

Lemma mipSamples_cases indexedPixels w h level v :
  In v (mipSamples indexedPixels w h level) -> v = 255 \/ In v indexedPixels.
Proof.
  unfold mipSamples. cbv zeta. rewrite in_flat_map.
  intros (y & _ & Hv). rewrite in_map_iff in Hv. destruct Hv as (x & <- & _).
  apply sample_cases.
Qed.

Lemma buildMips_cases indexedPixels w h mip v :
  In mip (buildMips indexedPixels w h) -> In v mip ->
  exists u, v = u mod 256 /\ (u = 255 \/ In u indexedPixels).
Proof.
  unfold buildMips. rewrite in_map_iff. intros (level & <- & _).
  unfold Buffer.from. rewrite in_map_iff. intros (u & <- & Hu).
  exists u. split; [reflexivity |]. eapply mipSamples_cases; exact Hu.
Qed.

(** C7: when every pixel has an alpha of at most 128, the base index buffer
    and the four mip buffers hold nothing but 255. *)
Theorem transparent_image_all_255 pixelData w h :
  (forall c, In c (pixelsOf pixelData) ->
             exists v, Color.a c = Some v /\ v <= 128) ->
  let pixels := pixelsOf pixelData in
  let indexedPixels := buildIndexedPixels (buildPalette pixels) pixels in
  (forall v, In v indexedPixels -> v = 255) /\
  List.length (buildMips indexedPixels w h) = 4%nat /\
  (forall mip v, In mip (buildMips indexedPixels w h) -> In v mip -> v = 255).
Proof.
  intros Halpha pixels indexedPixels.
  assert (Hbase : forall v, In v indexedPixels -> v = 255).
  { intros v. unfold indexedPixels, buildIndexedPixels. rewrite in_map_iff.
    intros (c & <- & Hc). apply indexOfPixel_transparent.
    destruct (Halpha c Hc) as (a & Ea & Hle).
    unfold Color.isTransparent. rewrite Ea. apply Z.leb_le. exact Hle. }
  split; [exact Hbase |]. split; [reflexivity |].
  intros mip v Hmip Hv.
  destruct (buildMips_cases _ _ _ _ _ Hmip Hv) as (u & -> & [-> | Hu]).
  - reflexivity.
  - rewrite (Hbase u Hu). reflexivity.
Qed.

Lemma transparent_image_all_255_witness :
  let pixels := pixelsOf [9; 8; 7; 0; 1; 2; 3; 128] in
  let indexedPixels := buildIndexedPixels (buildPalette pixels) pixels in
  (forall v, In v indexedPixels -> v = 255) /\
  List.length (buildMips indexedPixels 2 1) = 4%nat /\
  (forall mip v, In mip (buildMips indexedPixels 2 1) -> In v mip -> v = 255).
Proof.
  apply (transparent_image_all_255 [9; 8; 7; 0; 1; 2; 3; 128] 2 1).
  cbn [pixelsOf In]. intros c [<- | [<- | []]]; cbn [Color.a].
  - exists 0. split; [reflexivity | lia].
  - exists 128. split; [reflexivity | lia].
Defined.

(** C8: with a palette of 256 entries, every value of the base index
    buffer and of the four mip buffers is a byte. *)
Theorem index_values_are_bytes pixelData w h :
  let pixels := pixelsOf pixelData in
  let indexedPixels := buildIndexedPixels (buildPalette pixels) pixels in
  List.length (buildPalette pixels) = 256%nat ->
  (forall v, In v indexedPixels -> 0 <= v <= 255) /\
  (forall mip v, In mip (buildMips indexedPixels w h) -> In v mip -> 0 <= v <= 255).
Proof.
  intros pixels indexedPixels Hlen. split.
  - intros v. unfold indexedPixels, buildIndexedPixels. rewrite in_map_iff.
    intros (c & <- & _). apply indexOfPixel_range. exact Hlen.
  - intros mip v Hmip Hv.
    destruct (buildMips_cases _ _ _ _ _ Hmip Hv) as (u & -> & _).
    pose proof (Z.mod_pos_bound u 256 ltac:(lia)). lia.
Qed.

Lemma index_values_are_bytes_witness :
  let pixels := pixelsOf [9; 8; 7; 255; 1; 2; 3; 128] in
  let indexedPixels := buildIndexedPixels (buildPalette pixels) pixels in
  (forall v, In v indexedPixels -> 0 <= v <= 255) /\
  (forall mip v, In mip (buildMips indexedPixels 2 1) -> In v mip -> 0 <= v <= 255).
Proof.
  apply (index_values_are_bytes [9; 8; 7; 255; 1; 2; 3; 128] 2 1).
  vm_compute. reflexivity.
Defined.

(** ** The palette *)

Lemma sameComponent_eq x y : Color.sameComponent x y = true <-> x = y.
Proof.
  destruct x as [u |], y as [v |]; cbn [Color.sameComponent];
    try (split; [discriminate | discriminate]); try tauto.
  rewrite Z.eqb_eq. split; congruence.
Qed.

Lemma Color_eqb_eq c d : Color.eqb c d = true <-> c = d.
Proof.
  destruct c as [r1 g1 b1 a1], d as [r2 g2 b2 a2]. unfold Color.eqb.
  cbn [Color.r Color.g Color.b Color.a].
  rewrite !andb_true_iff, !sameComponent_eq. split.
  - intros [[[-> ->] ->] ->]. reflexivity.
  - intros H. injection H as -> -> -> ->. tauto.
Qed.

Lemma Color_eqb_refl c : Color.eqb c c = true.
Proof. apply Color_eqb_eq. reflexivity. Qed.

Lemma sameKey_keyOf c d : sameKey (keyOf c) (keyOf d) = Color.eqb c d.
Proof. reflexivity. Qed.

Lemma member_In c l : member c l = true <-> In c l.
Proof.
  unfold member. rewrite existsb_exists. split.
  - intros (d & Hd & E). apply Color_eqb_eq in E. subst d. exact Hd.
  - intros H. exists c. split; [exact H | apply Color_eqb_refl].
Qed.

Lemma has_rev_keys acc c : has (rev (map keyOf acc)) (keyOf c) = member c acc.
Proof.
  unfold has, member.
  apply eq_true_iff_eq. rewrite !existsb_exists. split.
  - intros (k & Hk & E). rewrite <- in_rev, in_map_iff in Hk.
    destruct Hk as (d & <- & Hd). exists d. split; [exact Hd |].
    rewrite <- sameKey_keyOf. exact E.
  - intros (d & Hd & E). exists (keyOf d). split.
    + rewrite <- in_rev. apply in_map. exact Hd.
    + rewrite sameKey_keyOf. exact E.
Qed.

Lemma filter_filter {A : Type} (p q : A -> bool) (l : list A) :
  filter p (filter q l) = filter (fun x => q x && p x) l.
Proof.
  induction l as [| x l IH]; [reflexivity |]. cbn [filter].
  destruct (q x); cbn [filter andb]; [destruct (p x) |]; rewrite IH; reflexivity.
Qed.

Lemma firstSeen_filter p l : firstSeen (filter p l) = filter p (firstSeen l).
Proof.
  induction l as [| c l IH]; [reflexivity |]. cbn [filter firstSeen].
  destruct (p c) eqn:Hp; cbn [firstSeen].
  - rewrite IH, !filter_filter. f_equal. apply filter_ext. intros d.
    apply andb_comm.
  - rewrite IH, filter_filter. apply filter_ext. intros d.
    destruct (Color.eqb d c) eqn:E; cbn [negb andb]; [| reflexivity].
    apply Color_eqb_eq in E. subst d. exact Hp.
Qed.

(** The first scan, started from any palette whose keys are the set [seen]. *)
Lemma scan_from acc pixels :
  snd (fold_left scanPixel pixels (rev (map keyOf acc), acc)) =
  acc ++ firstSeen (filter (fun c => negb (member c acc)) pixels).
Proof.
  revert acc. induction pixels as [| c pixels IH]; intros acc.
  - cbn. rewrite app_nil_r. reflexivity.
  - cbn [fold_left filter]. unfold scanPixel at 2. rewrite has_rev_keys.
    destruct (member c acc) eqn:Hm; cbn [negb].
    + apply IH.
    + replace (keyOf c :: rev (map keyOf acc)) with (rev (map keyOf (acc ++ [c])))
        by (rewrite map_app, rev_app_distr; reflexivity).
      rewrite IH. rewrite <- app_assoc. cbn [app firstSeen]. do 2 f_equal.
      rewrite <- firstSeen_filter, filter_filter. f_equal.
      apply filter_ext. intros d. unfold member.
      rewrite existsb_app. cbn [existsb]. rewrite orb_false_r, negb_orb.
      f_equal. 
Qed.

Lemma scanPalette_firstSeen pixels : snd (scanPalette pixels) = firstSeen pixels.
Proof.
  unfold scanPalette. change (@nil key, @nil Color.t) with (rev (map keyOf []), @nil Color.t).
  rewrite (scan_from [] pixels). cbn [app member existsb negb].
  f_equal. induction pixels as [| c l IH]; [reflexivity |].
  cbn [filter]. rewrite IH. reflexivity.
Qed.

Lemma padPalette_repeat rgbaPalette :
  padPalette rgbaPalette =
  rgbaPalette ++ repeat Color.black (255 - List.length rgbaPalette).
Proof.
  funelim (padPalette rgbaPalette).
  - match goal with E : (_ <? _) = true |- _ => pose proof E as Hlt end.
    apply Z.ltb_lt in Hlt.
    match goal with IH : padPalette _ = _ ++ repeat _ _ |- _ => rewrite IH end.
    rewrite length_app. cbn [List.length]. rewrite <- app_assoc. f_equal.
    replace (255 - List.length rgbaPalette)%nat
      with (S (255 - (List.length rgbaPalette + 1)))%nat by lia.
    reflexivity.
  - match goal with E : (_ <? _) = false |- _ => pose proof E as Hge end.
    apply Z.ltb_ge in Hge.
    replace (255 - List.length rgbaPalette)%nat with 0%nat by lia.
    cbn [repeat]. rewrite app_nil_r. reflexivity.
Qed.

Lemma firstSeen_In c l : In c (firstSeen l) <-> In c l.
Proof.
  induction l as [| d l IH]; [tauto |]. cbn [firstSeen In].
  rewrite filter_In, IH. split.
  - intros [-> | [H _]]; [left; reflexivity | right; exact H].
  - intros [-> | H]; [left; reflexivity |].
    destruct (Color.eqb c d) eqn:E.
    + left. apply Color_eqb_eq in E. congruence.
    + right. split; [exact H | reflexivity].
Qed.

Lemma firstSeen_NoDup l : NoDup (firstSeen l).
Proof.
  induction l as [| d l IH]; cbn [firstSeen]; constructor.
  - rewrite filter_In. intros [_ H]. rewrite Color_eqb_refl in H. discriminate.
  - apply NoDup_filter. exact IH.
Qed.

Lemma firstSeen_length_le l colors :
  (forall c, In c l -> In c colors) ->
  (List.length (firstSeen l) <= List.length colors)%nat.
Proof.
  intros H. apply NoDup_incl_length; [apply firstSeen_NoDup |].
  intros c Hc. apply H, firstSeen_In, Hc.
Qed.

Lemma buildPalette_layout pixels :
  buildPalette pixels =
  firstSeen pixels ++
  repeat Color.black (255 - List.length (firstSeen pixels)) ++
  [Color.transparentKey].
Proof.
  unfold buildPalette. rewrite scanPalette_firstSeen, padPalette_repeat.
  rewrite <- app_assoc. reflexivity.
Qed.

(** C4: when the reduced buffer holds at most 255 distinct colours, the
    palette has 256 entries: the colours of the buffer in first-seen order,
    each once, then opaque black up to index 254, then (0,0,255,255). *)
Theorem palette_layout pixelData colors :
  (forall c, In c (pixelsOf pixelData) -> In c colors) ->
  (List.length colors <= 255)%nat ->
  let pixels := pixelsOf pixelData in
  let palette := buildPalette pixels in
  List.length palette = 256%nat /\
  nth_error palette 255 = Some (Color.mk (Some 0) (Some 0) (Some 255) (Some 255)) /\
  palette =
    firstSeen pixels ++
    repeat (Color.mk (Some 0) (Some 0) (Some 0) (Some 255))
           (255 - List.length (firstSeen pixels)) ++
    [Color.mk (Some 0) (Some 0) (Some 255) (Some 255)] /\
  NoDup (firstSeen pixels) /\
  (forall c, In c (firstSeen pixels) <-> In c pixels) /\
  (forall i c, (i < 255)%nat -> nth_error palette i = Some c ->
     In c pixels \/ c = Color.mk (Some 0) (Some 0) (Some 0) (Some 255)).
Proof.
  intros Hin Hlen pixels palette.
  pose proof (firstSeen_length_le pixels colors Hin) as Hle.
  assert (Hpal : palette =
                 (firstSeen pixels ++
                  repeat Color.black (255 - List.length (firstSeen pixels))) ++
                 [Color.transparentKey])
    by (unfold palette; rewrite buildPalette_layout, app_assoc; reflexivity).
  assert (Hbody : List.length (firstSeen pixels ++
                    repeat Color.black (255 - List.length (firstSeen pixels))) = 255%nat)
    by (rewrite length_app, repeat_length; lia).
  split; [rewrite Hpal, length_app, Hbody; reflexivity |].
  split.
  { rewrite Hpal, nth_error_app2 by lia. rewrite Hbody. reflexivity. }
  split; [unfold palette; apply buildPalette_layout |].
  split; [apply firstSeen_NoDup |].
  split; [intros c; apply firstSeen_In |].
  intros i c Hi Hc. rewrite Hpal, nth_error_app1 in Hc by lia.
  apply nth_error_In, in_app_or in Hc. destruct Hc as [Hc | Hc].
  - left. apply firstSeen_In. exact Hc.
  - right. apply repeat_spec in Hc. exact Hc.
Qed.

Lemma palette_layout_witness :
  let pixels := pixelsOf [9; 8; 7; 255; 1; 2; 3; 128; 9; 8; 7; 255] in
  let palette := buildPalette pixels in
  List.length palette = 256%nat /\
  nth_error palette 255 = Some (Color.mk (Some 0) (Some 0) (Some 255) (Some 255)) /\
  palette =
    firstSeen pixels ++
    repeat (Color.mk (Some 0) (Some 0) (Some 0) (Some 255))
           (255 - List.length (firstSeen pixels)) ++
    [Color.mk (Some 0) (Some 0) (Some 255) (Some 255)] /\
  NoDup (firstSeen pixels) /\
  (forall c, In c (firstSeen pixels) <-> In c pixels) /\
  (forall i c, (i < 255)%nat -> nth_error palette i = Some c ->
     In c pixels \/ c = Color.mk (Some 0) (Some 0) (Some 0) (Some 255)).
Proof.
  apply (palette_layout [9; 8; 7; 255; 1; 2; 3; 128; 9; 8; 7; 255]
           (pixelsOf [9; 8; 7; 255; 1; 2; 3; 128; 9; 8; 7; 255])).
  - intros c H. exact H.
  - cbn. lia.
Defined.

(** ** Buffers *)

Lemma blit_length buf offset bytes :
  List.length (Buffer.blit buf offset bytes) = List.length buf.
Proof.
  unfold Buffer.blit.
  rewrite length_firstn, !length_app, length_firstn, length_skipn. lia.
Qed.

Lemma blit_in_range buf offset bytes :
  (offset + List.length bytes <= List.length buf)%nat ->
  Buffer.blit buf offset bytes =
  firstn offset buf ++ bytes ++ skipn (offset + List.length bytes) buf.
Proof.
  intros H. unfold Buffer.blit. apply firstn_all2.
  rewrite !length_app, length_firstn, length_skipn. lia.
Qed.

Lemma nth_error_blit_inside buf offset bytes k :
  (offset + List.length bytes <= List.length buf)%nat ->
  (k < List.length bytes)%nat ->
  nth_error (Buffer.blit buf offset bytes) (offset + k) = nth_error bytes k.
Proof.
  intros H Hk. rewrite blit_in_range by exact H.
  rewrite nth_error_app2 by (rewrite length_firstn; lia).
  rewrite length_firstn, nth_error_app1 by lia.
  f_equal. lia.
Qed.

Lemma nth_error_blit_outside buf offset bytes i :
  (offset + List.length bytes <= List.length buf)%nat ->
  (i < offset \/ offset + List.length bytes <= i)%nat ->
  nth_error (Buffer.blit buf offset bytes) i = nth_error buf i.
Proof.
  intros H Hi. rewrite blit_in_range by exact H.
  destruct Hi as [Hi | Hi].
  - rewrite nth_error_app1 by (rewrite length_firstn; lia).
    rewrite nth_error_firstn.
    destruct (Nat.ltb_spec i offset); [reflexivity | lia].
  - rewrite nth_error_app2 by (rewrite length_firstn; lia).
    rewrite length_firstn, nth_error_app2 by lia.
    rewrite nth_error_skipn. f_equal. lia.
Qed.

Lemma le32_value v :
  0 <= v < 2 ^ 32 ->
  Z.land v 255 + Z.land (Z.shiftr v 8) 255 * 2 ^ 8 +
  Z.land (Z.shiftr v 16) 255 * 2 ^ 16 + Z.land (Z.shiftr v 24) 255 * 2 ^ 24 = v.
Proof.
  intros Hv. change 255 with (Z.ones 8).
  rewrite !Z.land_ones, !Z.shiftr_div_pow2 by lia.
  change (2 ^ 16) with (2 ^ 8 * 2 ^ 8).
  change (2 ^ 24) with (2 ^ 8 * 2 ^ 8 * 2 ^ 8).
  rewrite <- !Z.div_div by lia.
  set (b := 2 ^ 8) in *. assert (Hb : b = 256) by reflexivity.
  pose proof (Z.div_mod v b ltac:(lia)) as E0.
  pose proof (Z.div_mod (v / b) b ltac:(lia)) as E1.
  pose proof (Z.div_mod (v / b / b) b ltac:(lia)) as E2.
  assert (H3 : 0 <= v / b / b / b < b).
  { split.
    - repeat (apply Z.div_pos; [| lia]). lia.
    - repeat (apply Z.div_lt_upper_bound; [lia |]).
      rewrite Hb. change (2 ^ 32) with (256 * (256 * (256 * 256))) in Hv. lia. }
  rewrite (Z.mod_small (v / b / b / b) b) by exact H3.
  lia.
Qed.

Lemma read_blit_same buf offset v :
  (offset + 4 <= List.length buf)%nat -> 0 <= v < 2 ^ 32 ->
  Buffer.readUInt32LE (Buffer.blit buf offset (Buffer.le32 v)) offset = Some v.
Proof.
  intros H Hv. unfold Buffer.readUInt32LE.
  replace offset with (offset + 0)%nat at 2 by lia.
  rewrite !nth_error_blit_inside by (cbn [Buffer.le32 List.length]; lia).
  cbn [Buffer.le32 nth_error]. f_equal. apply le32_value. exact Hv.
Qed.

Lemma read_blit_other buf offset bytes i :
  (offset + List.length bytes <= List.length buf)%nat ->
  (i + 4 <= offset \/ offset + List.length bytes <= i)%nat ->
  Buffer.readUInt32LE (Buffer.blit buf offset bytes) i = Buffer.readUInt32LE buf i.
Proof.
  intros H Hi. unfold Buffer.readUInt32LE.
  rewrite !nth_error_blit_outside by lia. reflexivity.
Qed.

Lemma skipn_blit buf offset bytes n :
  (offset + List.length bytes <= n)%nat -> (n <= List.length buf)%nat ->
  skipn n (Buffer.blit buf offset bytes) = skipn n buf.
Proof.
  intros Hn Hlen. apply nth_error_ext. intros i.
  rewrite !nth_error_skipn. apply nth_error_blit_outside; lia.
Qed.

Lemma skipn_app_exact {A : Type} (l tl : list A) :
  skipn (List.length l) (l ++ tl) = tl.
Proof.
  apply nth_error_ext. intros i.
  rewrite nth_error_skipn, nth_error_app2 by lia. f_equal. lia.
Qed.

Lemma read_app_l hd tl i :
  (i + 4 <= List.length hd)%nat ->
  Buffer.readUInt32LE (hd ++ tl) i = Buffer.readUInt32LE hd i.
Proof.
  intros H. unfold Buffer.readUInt32LE.
  rewrite !nth_error_app1 by lia. reflexivity.
Qed.

(** ** Outcomes *)

Lemma bind_returns {A B : Type} (c : outcome A) (k : A -> outcome B) y :
  bind c k = Returns y -> exists x, c = Returns x /\ k x = Returns y.
Proof.
  destruct c as [x | e |]; cbn [bind]; intros H; try discriminate.
  exists x. split; [reflexivity | exact H].
Qed.

Lemma rangeOnly_bind {A B : Type} (c : outcome A) (k : A -> outcome B) :
  rangeOnly c -> (forall x, rangeOnly (k x)) -> rangeOnly (bind c k).
Proof.
  destruct c as [x | e |]; cbn [bind rangeOnly]; intros Hc Hk;
    [apply Hk | exact Hc | exact Hc].
Qed.

(** A property kept by every round of a loop holds when the loop is left. *)
Lemma fold_left_invariant {S I : Type} (P : S -> Prop) (step : S -> I -> S) l :
  (forall st i, P st -> P (step st i)) ->
  forall st, P st -> P (fold_left step l st).
Proof.
  intros Hstep. induction l as [| i l IH]; intros st Hst; cbn [fold_left].
  - exact Hst.
  - apply IH, Hstep, Hst.
Qed.

Lemma writeUInt_returns width bytes buf value offset out :
  Buffer.writeUInt width bytes buf value offset = Returns out ->
  out = Buffer.blit buf offset (bytes value) /\
  0 <= value <= 2 ^ (8 * Z.of_nat width) - 1 /\
  (offset + width <= List.length buf)%nat.
Proof.
  unfold Buffer.writeUInt.
  destruct ((value <? 0) || (value >? 2 ^ (8 * Z.of_nat width) - 1)) eqn:Hr;
    [discriminate |].
  destruct (Nat.ltb_spec (List.length buf) (offset + width)) as [Hlen | Hlen];
    [discriminate |].
  intros H. injection H as <-.
  apply orb_false_iff in Hr. destruct Hr as [H1 H2].
  apply Z.ltb_ge in H1. rewrite Z.gtb_ltb in H2. apply Z.ltb_ge in H2.
  repeat split; try assumption.
Qed.

Lemma writeUInt_rangeOnly width bytes buf value offset :
  rangeOnly (Buffer.writeUInt width bytes buf value offset).
Proof.
  unfold Buffer.writeUInt.
  destruct ((value <? 0) || _); [reflexivity |].
  destruct (_ <? _)%nat; [reflexivity | exact I].
Qed.

Lemma writeUInt32LE_returns buf value offset out :
  Buffer.writeUInt32LE buf value offset = Returns out ->
  out = Buffer.blit buf offset (Buffer.le32 value) /\
  0 <= value < 2 ^ 32 /\ (offset + 4 <= List.length buf)%nat.
Proof.
  intros H. apply writeUInt_returns in H. destruct H as (-> & Hv & Ho).
  change (2 ^ (8 * Z.of_nat 4)) with (2 ^ 32) in Hv.
  repeat split; try lia.
Qed.

Lemma writeUInt_length width bytes buf value offset out :
  Buffer.writeUInt width bytes buf value offset = Returns out ->
  List.length out = List.length buf.
Proof.
  intros H. apply writeUInt_returns in H. destruct H as (-> & _ & _).
  apply blit_length.
Qed.

(** ** The layout *)

Ltac invert_bind H :=
  let x := fresh "x" in
  let E := fresh "E" in
  apply bind_returns in H; destruct H as (x & E & H).

Lemma buildHeader_rangeOnly w h mipsSizes : rangeOnly (buildHeader w h mipsSizes).
Proof.
  unfold buildHeader. cbv zeta.
  repeat (apply rangeOnly_bind; [apply writeUInt_rangeOnly | intros ?]).
  apply rangeOnly_bind; [| intros ?; exact I].
  apply fold_left_invariant; [| exact I].
  intros st i Hst. unfold mipOffsetStep.
  apply rangeOnly_bind; [exact Hst | intros ?].
  apply rangeOnly_bind; [apply writeUInt_rangeOnly | intros ?; exact I].
Qed.

Lemma writeComponent_rangeOnly buf x offset : rangeOnly (writeComponent buf x offset).
Proof. destruct x; [apply writeUInt_rangeOnly | exact I]. Qed.

Lemma writeComponent_sized buf x offset :
  sized (List.length buf) (writeComponent buf x offset).
Proof.
  destruct x as [v |]; cbn [writeComponent sized].
  - destruct (Buffer.writeUInt8 buf v offset) as [out | e |] eqn:E; cbn [sized];
      try exact I.
    eapply writeUInt_length. exact E.
  - apply blit_length.
Qed.

Lemma buildPaletteBuf_rangeOnly rgbaPalette : rangeOnly (buildPaletteBuf rgbaPalette).
Proof.
  unfold buildPaletteBuf. apply fold_left_invariant; [| exact I].
  intros st i Hst. unfold paletteStep.
  apply rangeOnly_bind; [exact Hst | intros ?]. cbv zeta.
  repeat (apply rangeOnly_bind; [apply writeComponent_rangeOnly | intros ?]).
  apply writeComponent_rangeOnly.
Qed.

Lemma buildPaletteBuf_sized rgbaPalette : sized 768 (buildPaletteBuf rgbaPalette).
Proof.
  unfold buildPaletteBuf. apply fold_left_invariant; [| apply repeat_length].
  intros st i Hst. unfold paletteStep.
  destruct st as [buf | e |]; cbn [bind sized] in *; try exact I.
  pose proof (writeComponent_sized buf
    (Color.r (orElse (nth_error rgbaPalette i) (Color.mk (Some 0) (Some 0) (Some 0) None)))
    (i * 3)) as H1.
  destruct (writeComponent buf _ (i * 3)) as [b1 | |]; cbn [bind sized] in *; try exact I.
  pose proof (writeComponent_sized b1
    (Color.g (orElse (nth_error rgbaPalette i) (Color.mk (Some 0) (Some 0) (Some 0) None)))
    (i * 3 + 1)) as H2.
  destruct (writeComponent b1 _ (i * 3 + 1)) as [b2 | |]; cbn [bind sized] in *; try exact I.
  pose proof (writeComponent_sized b2
    (Color.b (orElse (nth_error rgbaPalette i) (Color.mk (Some 0) (Some 0) (Some 0) None)))
    (i * 3 + 2)) as H3.
  destruct (writeComponent b2 _ (i * 3 + 2)) as [b3 | |]; cbn [sized] in *; try exact I.
  congruence.
Qed.

Lemma buildLump_rangeOnly mainDataEnd : rangeOnly (buildLump mainDataEnd).
Proof.
  unfold buildLump. cbv zeta.
  repeat (apply rangeOnly_bind; [apply writeUInt_rangeOnly | intros ?]).
  exact I.
Qed.

Lemma buildLump_length mainDataEnd lump :
  buildLump mainDataEnd = Returns lump -> List.length lump = 32%nat.
Proof.
  unfold buildLump. cbv zeta. intros H.
  repeat match goal with
         | H : bind _ _ = Returns _ |- _ =>
             let x := fresh "x" in
             let E := fresh "E" in
             apply bind_returns in H; destruct H as (x & E & H);
             apply writeUInt_length in E
         end.
  injection H as <-. unfold Buffer.write. rewrite blit_length.
  unfold Buffer.alloc in *. rewrite repeat_length in *. congruence.
Qed.

(** The header has 52 bytes and its last four words are the running
    offsets of the mip levels. *)
Lemma buildHeader_returns w h mipsSizes header :
  buildHeader w h mipsSizes = Returns header ->
  List.length header = 52%nat /\
  Buffer.readUInt32LE header 36 = Some 40 /\
  Buffer.readUInt32LE header 40 = Some (40 + nth 0 mipsSizes 0) /\
  Buffer.readUInt32LE header 44 = Some (40 + nth 0 mipsSizes 0 + nth 1 mipsSizes 0) /\
  Buffer.readUInt32LE header 48 =
    Some (40 + nth 0 mipsSizes 0 + nth 1 mipsSizes 0 + nth 2 mipsSizes 0).
Proof.
  unfold buildHeader. cbv zeta. cbn [fold_left]. unfold mipOffsetStep.
  intros H.
  invert_bind H. invert_bind H. invert_bind H. invert_bind H.
  injection H as <-.
  repeat match goal with
         | E : bind _ _ = Returns _ |- _ => invert_bind E
         | E : Returns _ = Returns _ |- _ => injection E as E; subst
         end.
  cbn [fst snd] in *.
  repeat match goal with
         | E : Buffer.writeUInt32LE _ _ _ = Returns _ |- _ =>
             apply writeUInt32LE_returns in E; destruct E as (? & ? & ?)
         end.
  subst. unfold Buffer.write, Buffer.alloc in *.
  repeat rewrite ?blit_length, ?repeat_length in *.
  split; [reflexivity |].
  repeat split.
  all: repeat (rewrite read_blit_other
                 by (rewrite ?blit_length, ?repeat_length; cbn [Buffer.le32 List.length]; lia)).
  all: apply read_blit_same;
    [rewrite ?blit_length, ?repeat_length; lia | assumption].
Qed.

Lemma total_from (l : list Buffer.t) acc :
  fold_left Z.add (map (fun buf => Z.of_nat (List.length buf)) l) acc =
  acc + Z.of_nat (List.length (List.concat l)).
Proof.
  revert acc. induction l as [| buf l IH]; intros acc; cbn [map fold_left List.concat].
  - cbn. lia.
  - rewrite IH, length_app. lia.
Qed.

Lemma total_lengths (l : list Buffer.t) :
  total (map (fun buf => Z.of_nat (List.length buf)) l) =
  Z.of_nat (List.length (List.concat l)).
Proof. unfold total. rewrite total_from. lia. Qed.

Lemma requiredPadding_4 n :
  0 <= n -> 0 <= requiredPadding n 4 <= 3 /\ (n + requiredPadding n 4) mod 4 = 0.
Proof.
  intros Hn. unfold requiredPadding. cbv zeta.
  rewrite Z.rem_mod_nonneg by lia.
  pose proof (Z.mod_pos_bound n 4 ltac:(lia)) as Hm.
  pose proof (Z.div_mod n 4 ltac:(lia)) as Hd.
  destruct (Z.eqb_spec (n mod 4) 0) as [E | E].
  - split; [lia |]. rewrite Z.add_0_r. exact E.
  - split; [lia |].
    replace (n + (4 - n mod 4)) with ((n / 4 + 1) * 4) by lia.
    apply Z.mod_mul. lia.
Qed.

Lemma encode_rangeOnly pixelData w h : rangeOnly (encode pixelData w h).
Proof.
  unfold encode. cbv zeta.
  apply rangeOnly_bind; [apply buildHeader_rangeOnly | intros ?].
  apply rangeOnly_bind; [apply buildPaletteBuf_rangeOnly | intros ?].
  apply rangeOnly_bind; [apply buildLump_rangeOnly | intros ?].
  apply writeUInt_rangeOnly.
Qed.

(** What a completed encoding looks like: the directory entry is the last
    32 bytes, its position is stored at byte 8, and the four mip offsets of
    the header are untouched by the backfill. *)
Lemma encode_returns pixelData w h out :
  encode pixelData w h = Returns out ->
  let mips := mipsDataOf pixelData w h in
  let size k := Z.of_nat (List.length (nth k mips [])) in
  Z.of_nat (List.length out) = mainDataEndOf pixelData w h + 32 /\
  (exists lump,
     buildLump (mainDataEndOf pixelData w h) = Returns lump /\
     skipn (List.length out - 32) out = lump) /\
  Buffer.readUInt32LE out 8 = Some (mainDataEndOf pixelData w h) /\
  Buffer.readUInt32LE out 36 = Some 40 /\
  Buffer.readUInt32LE out 40 = Some (40 + size 0%nat) /\
  Buffer.readUInt32LE out 44 = Some (40 + size 0%nat + size 1%nat) /\
  Buffer.readUInt32LE out 48 = Some (40 + size 0%nat + size 1%nat + size 2%nat).
Proof.
  unfold encode. cbv zeta. intros H.
  apply bind_returns in H. destruct H as (header & Eh & H).
  apply bind_returns in H. destruct H as (paletteBuf & Ep & H).
  apply bind_returns in H. destruct H as (lump & El & H).
  apply buildHeader_returns in Eh.
  destruct Eh as (Lh & R36 & R40 & R44 & R48).
  pose proof (buildPaletteBuf_sized (buildPalette (pixelsOf pixelData))) as Lp.
  rewrite Ep in Lp. cbn [sized] in Lp.
  pose proof El as Elump. apply buildLump_length in El.
  apply writeUInt32LE_returns in H. destruct H as (-> & Hrange & Hoff).
  rewrite total_lengths in *.
  fold (indexedPixelsOf pixelData) in *. fold (mipsDataOf pixelData w h) in *.
  set (mips := mipsDataOf pixelData w h) in *.
  set (currentLength := 52 + Z.of_nat (List.length (List.concat mips)) + 4 + 256 * 3) in *.
  fold (mainDataEndOf pixelData w h) in Hrange, Elump.
  assert (Hend : mainDataEndOf pixelData w h = currentLength + requiredPadding currentLength 4)
    by reflexivity.
  destruct (requiredPadding_4 currentLength ltac:(unfold currentLength; lia)) as [Hpad _].
  set (pad := requiredPadding currentLength 4) in *.
  set (padding := if pad >? 0 then [Buffer.alloc (Z.to_nat pad)] else []) in *.
  assert (Lpad : List.length (List.concat padding) = Z.to_nat pad).
  { unfold padding. destruct (Z.gtb_spec pad 0).
    - cbn [List.concat]. rewrite app_nil_r. apply repeat_length.
    - cbn [List.concat List.length]. lia. }
  assert (Lfull : Z.of_nat (List.length
            (Buffer.concat ([header] ++ mips ++ [typeMarker] ++ [paletteBuf] ++ padding ++ [lump]))) =
          mainDataEndOf pixelData w h + 32).
  { unfold Buffer.concat. rewrite !concat_app, !length_app. cbn [List.concat].
    rewrite !app_nil_r, Lh, Lp, El, Lpad. cbn [typeMarker List.length].
    rewrite Hend. unfold currentLength. lia. }
  assert (Hsplit : Buffer.concat ([header] ++ mips ++ [typeMarker] ++ [paletteBuf] ++ padding ++ [lump]) =
                   header ++ Buffer.concat (mips ++ [typeMarker] ++ [paletteBuf] ++ padding ++ [lump]))
    by reflexivity.
  rewrite blit_length.
  split; [exact Lfull |].
  split.
  { exists lump. split; [exact Elump |].
    rewrite skipn_blit by (cbn [Buffer.le32 List.length]; lia).
    set (full := Buffer.concat _) in *.
    assert (Hbody : exists body, full = body ++ lump).
    { exists (header ++ List.concat mips ++ typeMarker ++ paletteBuf ++ List.concat padding).
      unfold full, Buffer.concat. rewrite !concat_app. cbn [List.concat].
      rewrite !app_nil_r, <- !app_assoc. reflexivity. }
    destruct Hbody as (body & Hbody).
    assert (Lbody : (List.length full - 32 = List.length body)%nat)
      by (rewrite Hbody, length_app; lia).
    rewrite Lbody, Hbody. apply skipn_app_exact. }
  split.
  { apply read_blit_same; [lia | exact Hrange]. }
  assert (Hsize : forall k, nth k (map (fun buf => Z.of_nat (List.length buf)) mips) 0 =
                            Z.of_nat (List.length (nth k mips []))).
  { intros k. change 0 with (Z.of_nat (List.length (@nil Z))) at 1.
    apply (map_nth (fun buf : list Z => Z.of_nat (List.length buf))). }
  rewrite !Hsize in *.
  repeat split.
  all: rewrite read_blit_other by (cbn [Buffer.le32 List.length]; lia).
  all: rewrite Hsplit, read_app_l by lia; assumption.
Qed.

(** ** The encoder as a whole *)

Lemma generate_returns sharpRaw width height maxPixiel out :
  generateWad3Spray sharpRaw width height maxPixiel = Returns out ->
  exists fw fh w h pixelData,
    width = Some fw /\ height = Some fh /\
    resizeWithAspectRatioAndAlign fw fh maxPixiel 16 = Some (w, h) /\
    sharpRaw w h = Some pixelData /\
    encode pixelData w h = Returns out.
Proof.
  unfold generateWad3Spray.
  destruct width as [fw |]; [| discriminate].
  destruct height as [fh |]; [| cbn [missing]; rewrite orb_true_r; discriminate].
  destruct (missing (Some fw) || missing (Some fh)); [discriminate |].
  cbn [orElse].
  destruct (resizeWithAspectRatioAndAlign fw fh maxPixiel 16) as [[w h] |] eqn:Ep;
    [| discriminate].
  destruct ((w =? 0) || (h =? 0)); [discriminate |].
  destruct (sharpRaw w h) as [pixelData |] eqn:Er; [| discriminate].
  intros H. exists fw, fh, w, h, pixelData. repeat split; try reflexivity; assumption.
Qed.

(** C2: the word at byte 8 of a completed encoding is the length of the
    output minus 32, and the 32 bytes from that position on are the
    directory entry. *)
Theorem directory_offset_backfilled sharpRaw width height maxPixiel out :
  generateWad3Spray sharpRaw width height maxPixiel = Returns out ->
  exists directoryOffset lump,
    Buffer.readUInt32LE out 8 = Some directoryOffset /\
    directoryOffset = Z.of_nat (List.length out) - 32 /\
    buildLump directoryOffset = Returns lump /\
    List.length lump = 32%nat /\
    skipn (List.length out - 32) out = lump.
Proof.
  intros H. apply generate_returns in H.
  destruct H as (fw & fh & w & h & pixelData & _ & _ & _ & _ & H).
  apply encode_returns in H. cbv zeta in H.
  destruct H as (Hlen & (lump & Elump & Hlump) & H8 & _).
  exists (mainDataEndOf pixelData w h), lump.
  split; [exact H8 |]. split; [lia |]. split; [exact Elump |].
  split; [eapply buildLump_length; exact Elump | exact Hlump].
Qed.

Lemma directory_offset_backfilled_witness :
  exists out,
    generateWad3Spray flatRaw (Some 10) (Some 10) 300 = Returns out /\
    exists directoryOffset lump,
      Buffer.readUInt32LE out 8 = Some directoryOffset /\
      directoryOffset = Z.of_nat (List.length out) - 32 /\
      buildLump directoryOffset = Returns lump /\
      List.length lump = 32%nat /\
      skipn (List.length out - 32) out = lump.
Proof.
  eexists. split.
  - vm_compute. reflexivity.
  - apply (directory_offset_backfilled flatRaw (Some 10) (Some 10) 300).
    vm_compute. reflexivity.
Defined.

(** C3: the words at bytes 36, 40, 44 and 48 of a completed encoding are 40
    plus the lengths of the mip buffers that come before. *)
Theorem mip_offsets_stored sharpRaw width height maxPixiel out :
  generateWad3Spray sharpRaw width height maxPixiel = Returns out ->
  exists fw fh w h pixelData,
    width = Some fw /\ height = Some fh /\
    resizeWithAspectRatioAndAlign fw fh maxPixiel 16 = Some (w, h) /\
    sharpRaw w h = Some pixelData /\
    let mips := mipsDataOf pixelData w h in
    let size k := Z.of_nat (List.length (nth k mips [])) in
    Buffer.readUInt32LE out 36 = Some 40 /\
    Buffer.readUInt32LE out 40 = Some (40 + size 0%nat) /\
    Buffer.readUInt32LE out 44 = Some (40 + size 0%nat + size 1%nat) /\
    Buffer.readUInt32LE out 48 = Some (40 + size 0%nat + size 1%nat + size 2%nat).
Proof.
  intros H. apply generate_returns in H.
  destruct H as (fw & fh & w & h & pixelData & Ew & Eh & Ep & Er & H).
  exists fw, fh, w, h, pixelData. repeat (split; [assumption |]).
  apply encode_returns in H. cbv zeta in H. cbv zeta.
  destruct H as (_ & _ & _ & H). exact H.
Qed.

Lemma mip_offsets_stored_witness :
  exists out,
    generateWad3Spray flatRaw (Some 10) (Some 10) 300 = Returns out /\
    exists fw fh w h pixelData,
      Some 10 = Some fw /\ Some 10 = Some fh /\
      resizeWithAspectRatioAndAlign fw fh 300 16 = Some (w, h) /\
      flatRaw w h = Some pixelData /\
      let mips := mipsDataOf pixelData w h in
      let size k := Z.of_nat (List.length (nth k mips [])) in
      Buffer.readUInt32LE out 36 = Some 40 /\
      Buffer.readUInt32LE out 40 = Some (40 + size 0%nat) /\
      Buffer.readUInt32LE out 44 = Some (40 + size 0%nat + size 1%nat) /\
      Buffer.readUInt32LE out 48 = Some (40 + size 0%nat + size 1%nat + size 2%nat).
Proof.
  eexists. split.
  - vm_compute. reflexivity.
  - apply (mip_offsets_stored flatRaw (Some 10) (Some 10) 300).
    vm_compute. reflexivity.
Defined.






(** * Further properties *)

(** ** The writers, forwards *)

Lemma writeUInt_ok width bytes buf value offset :
  0 <= value <= 2 ^ (8 * Z.of_nat width) - 1 ->
  (offset + width <= List.length buf)%nat ->
  Buffer.writeUInt width bytes buf value offset =
  Returns (Buffer.blit buf offset (bytes value)).
Proof.
  intros Hv Ho. unfold Buffer.writeUInt.
  destruct (Z.ltb_spec value 0); [lia |].
  destruct (Z.gtb_spec value (2 ^ (8 * Z.of_nat width) - 1)); [lia |].
  cbn [orb].
  destruct (Nat.ltb_spec (List.length buf) (offset + width)); [lia | reflexivity].
Qed.

Lemma writeUInt32LE_ok buf value offset :
  0 <= value < 2 ^ 32 -> (offset + 4 <= List.length buf)%nat ->
  Buffer.writeUInt32LE buf value offset =
  Returns (Buffer.blit buf offset (Buffer.le32 value)).
Proof.
  intros Hv Ho. apply writeUInt_ok; [| exact Ho].
  change (2 ^ (8 * Z.of_nat 4)) with (2 ^ 32). lia.
Qed.

Lemma land_255_byte v : 0 <= v <= 255 -> Z.land v 255 = v.
Proof.
  intros Hv. change 255 with (Z.ones 8). rewrite Z.land_ones by lia.
  apply Z.mod_small. change (2 ^ 8) with 256. lia.
Qed.

Lemma componentOk_range x :
  componentOk x = true <-> 0 <= componentByte x <= 255 /\
                           (forall v, x = Some v -> 0 <= v <= 255).
Proof.
  destruct x as [v |]; cbn [componentOk componentByte orElse].
  - rewrite andb_true_iff, !Z.leb_le. split.
    + intros H. split; [exact H |]. intros u E. injection E as <-. exact H.
    + intros [H _]. exact H.
  - split; [| reflexivity]. intros _. split; [lia | discriminate].
Qed.

(** One component written at [offset]: the byte is stored, or the value is
    out of range. *)
Lemma writeComponent_spec buf x offset :
  (offset + 1 <= List.length buf)%nat ->
  writeComponent buf x offset =
  if componentOk x then Returns (Buffer.blit buf offset [componentByte x])
  else Throws RangeError.
Proof.
  intros Ho. destruct x as [v |]; cbn [writeComponent componentOk componentByte orElse].
  - unfold Buffer.writeUInt8, Buffer.writeUInt.
    change (2 ^ (8 * Z.of_nat 1) - 1) with 255.
    destruct (Z.ltb_spec v 0), (Z.gtb_spec v 255), (Z.leb_spec 0 v), (Z.leb_spec v 255);
      cbn [orb andb]; try lia; try reflexivity.
    destruct (Nat.ltb_spec (List.length buf) (offset + 1)); [lia |].
    rewrite land_255_byte by lia. reflexivity.
  - reflexivity.
Qed.

Lemma blit_middle (A B B' C : list Z) offset :
  offset = List.length A -> List.length B' = List.length B ->
  Buffer.blit (A ++ B ++ C) offset B' = A ++ B' ++ C.
Proof.
  intros -> Hlen. rewrite blit_in_range by (rewrite !length_app; lia).
  rewrite Hlen.
  replace (firstn (List.length A) (A ++ B ++ C)) with A
    by (rewrite firstn_app, firstn_all, Nat.sub_diag; cbn [firstn]; rewrite app_nil_r; reflexivity).
  do 2 f_equal.
  rewrite app_assoc.
  replace (List.length A + List.length B)%nat with (List.length (A ++ B))
    by apply length_app.
  apply skipn_app_exact.
Qed.

(** ** The palette bytes *)

Lemma paletteBytesUpTo_length rgbaPalette n :
  List.length (paletteBytesUpTo rgbaPalette n) = (3 * n)%nat.
Proof.
  unfold paletteBytesUpTo.
  rewrite (flat_map_constant_length _ _ 3) by reflexivity.
  rewrite length_seq. lia.
Qed.

Lemma paletteBytesUpTo_S rgbaPalette n :
  paletteBytesUpTo rgbaPalette (S n) =
  paletteBytesUpTo rgbaPalette n ++ entryBytes (paletteEntry rgbaPalette n).
Proof.
  unfold paletteBytesUpTo. rewrite seq_S, flat_map_app. cbn [flat_map].
  rewrite app_nil_r. reflexivity.
Qed.

(** One round of the palette loop on a buffer filled up to entry [i]. *)
Lemma paletteStep_spec rgbaPalette (P R : list Z) i :
  List.length P = (3 * i)%nat ->
  paletteStep rgbaPalette (Returns (P ++ [0; 0; 0] ++ R)) i =
  if entryOk (paletteEntry rgbaPalette i)
  then Returns ((P ++ entryBytes (paletteEntry rgbaPalette i)) ++ R)
  else Throws RangeError.
Proof.
  intros HP. unfold paletteStep. cbn [bind]. cbv zeta.
  fold (paletteEntry rgbaPalette i).
  set (c := paletteEntry rgbaPalette i). unfold entryOk, entryBytes.
  rewrite writeComponent_spec by (rewrite !length_app; cbn [List.length]; lia).
  destruct (componentOk (Color.r c)); cbn [andb bind]; [| reflexivity].
  rewrite (blit_middle P [0] [componentByte (Color.r c)] ([0; 0] ++ R))
    by (reflexivity || lia).
  rewrite writeComponent_spec by (rewrite !length_app; cbn [List.length]; lia).
  destruct (componentOk (Color.g c)); cbn [andb bind]; [| reflexivity].
  rewrite (app_assoc P [componentByte (Color.r c)]).
  rewrite (blit_middle (P ++ [componentByte (Color.r c)]) [0]
             [componentByte (Color.g c)] ([0] ++ R))
    by (rewrite ?length_app; cbn [List.length]; lia).
  rewrite writeComponent_spec by (rewrite !length_app; cbn [List.length]; lia).
  destruct (componentOk (Color.b c)); [| reflexivity].
  rewrite (app_assoc (P ++ [componentByte (Color.r c)])).
  rewrite (blit_middle ((P ++ [componentByte (Color.r c)]) ++ [componentByte (Color.g c)])
             [0] [componentByte (Color.b c)] R)
    by (rewrite ?length_app; cbn [List.length]; lia).
  rewrite <- !app_assoc. reflexivity.
Qed.

Lemma paletteStep_throws rgbaPalette e i :
  paletteStep rgbaPalette (Throws e) i = Throws e.
Proof. reflexivity. Qed.

Lemma paletteFold_spec rgbaPalette n :
  (n <= 256)%nat ->
  fold_left (paletteStep rgbaPalette) (seq 0 n) (Returns (Buffer.alloc 768)) =
  if forallb (fun i => entryOk (paletteEntry rgbaPalette i)) (seq 0 n)
  then Returns (paletteBytesUpTo rgbaPalette n ++ repeat 0 (768 - 3 * n))
  else Throws RangeError.
Proof.
  induction n as [| n IH]; intros Hn.
  - reflexivity.
  - rewrite seq_S, fold_left_app, forallb_app, IH by lia. cbn [fold_left forallb Nat.add].
    destruct (forallb _ (seq 0 n)); cbn [andb]; [| reflexivity].
    replace (768 - 3 * n)%nat with (3 + (768 - 3 * S n))%nat by lia.
    rewrite repeat_app. cbn [repeat].
    rewrite paletteStep_spec by apply paletteBytesUpTo_length.
    rewrite andb_true_r.
    destruct (entryOk (paletteEntry rgbaPalette n)); [| reflexivity].
    rewrite paletteBytesUpTo_S. reflexivity.
Qed.

(** The palette buffer is the 768 bytes of the first 256 entries, unless a
    component is not a byte. *)
Lemma buildPaletteBuf_spec rgbaPalette :
  buildPaletteBuf rgbaPalette =
  if forallb (fun i => entryOk (paletteEntry rgbaPalette i)) (seq 0 256)
  then Returns (paletteBytes rgbaPalette)
  else Throws RangeError.
Proof.
  unfold buildPaletteBuf. change (256 * 3)%nat with 768%nat.
  rewrite paletteFold_spec by lia.
  destruct (forallb _ _); [| reflexivity].
  change (768 - 3 * 256)%nat with 0%nat. cbn [repeat]. rewrite app_nil_r. reflexivity.
Qed.

(** ** Header and directory entry *)

Lemma writeUInt32LE_spec buf value offset :
  (offset + 4 <= List.length buf)%nat ->
  Buffer.writeUInt32LE buf value offset =
  if isUInt32 value then Returns (Buffer.blit buf offset (Buffer.le32 value))
  else Throws RangeError.
Proof.
  intros Ho. unfold isUInt32.
  destruct (Z.leb_spec 0 value); destruct (Z.ltb_spec value (2 ^ 32)); cbn [andb].
  - apply writeUInt32LE_ok; [lia | exact Ho].
  - unfold Buffer.writeUInt32LE, Buffer.writeUInt.
    change (2 ^ (8 * Z.of_nat 4)) with (2 ^ 32).
    destruct (Z.gtb_spec value (2 ^ 32 - 1)); [| lia]. rewrite orb_true_r. reflexivity.
  - unfold Buffer.writeUInt32LE, Buffer.writeUInt.
    destruct (Z.ltb_spec value 0); [reflexivity | lia].
  - unfold Buffer.writeUInt32LE, Buffer.writeUInt.
    destruct (Z.ltb_spec value 0); [reflexivity | lia].
Qed.

Lemma buildHeader_spec w h mipsSizes :
  buildHeader w h mipsSizes =
  if isUInt32 w && isUInt32 h &&
     isUInt32 (40 + nth 0 mipsSizes 0) &&
     isUInt32 (40 + nth 0 mipsSizes 0 + nth 1 mipsSizes 0) &&
     isUInt32 (40 + nth 0 mipsSizes 0 + nth 1 mipsSizes 0 + nth 2 mipsSizes 0)
  then Returns (headerBytes w h mipsSizes 0)
  else Throws RangeError.
Proof.
  unfold buildHeader. cbv zeta. cbn [fold_left]. unfold mipOffsetStep.
  unfold Buffer.write, Buffer.alloc.
  rewrite writeUInt32LE_spec by (rewrite ?blit_length, ?repeat_length; lia).
  change (isUInt32 1) with true. cbn [bind].
  rewrite writeUInt32LE_spec by (rewrite ?blit_length, ?repeat_length; lia).
  destruct (isUInt32 w); cbn [bind andb]; [| reflexivity].
  rewrite writeUInt32LE_spec by (rewrite ?blit_length, ?repeat_length; lia).
  destruct (isUInt32 h); cbn [bind andb fst snd]; [| reflexivity].
  rewrite writeUInt32LE_spec by (rewrite ?blit_length, ?repeat_length; lia).
  change (isUInt32 40) with true. cbn [bind fst snd].
  rewrite writeUInt32LE_spec by (rewrite ?blit_length, ?repeat_length; lia).
  destruct (isUInt32 (40 + nth 0 mipsSizes 0)); cbn [bind andb fst snd]; [| reflexivity].
  rewrite writeUInt32LE_spec by (rewrite ?blit_length, ?repeat_length; lia).
  destruct (isUInt32 (40 + nth 0 mipsSizes 0 + nth 1 mipsSizes 0));
    cbn [bind andb fst snd]; [| reflexivity].
  rewrite writeUInt32LE_spec by (rewrite ?blit_length, ?repeat_length; lia).
  destruct (isUInt32 (40 + nth 0 mipsSizes 0 + nth 1 mipsSizes 0 + nth 2 mipsSizes 0));
    cbn [bind andb fst snd]; [| reflexivity].
  reflexivity.
Qed.

Lemma buildLump_spec mainDataEnd :
  buildLump mainDataEnd =
  if isUInt32 (mainDataEnd - 40) then Returns (lumpBytes mainDataEnd)
  else Throws RangeError.
Proof.
  unfold buildLump. cbv zeta. unfold Buffer.write, Buffer.alloc.
  rewrite writeUInt32LE_spec by (rewrite ?blit_length, ?repeat_length; lia).
  change (isUInt32 12) with true. cbn [bind].
  rewrite writeUInt32LE_spec by (rewrite ?blit_length, ?repeat_length; lia).
  destruct (isUInt32 (mainDataEnd - 40)) eqn:E; cbn [bind]; [| reflexivity].
  rewrite writeUInt32LE_spec by (rewrite ?blit_length, ?repeat_length; lia).
  rewrite E. cbn [bind].
  reflexivity.
Qed.

(** ** The whole encoding *)

Lemma mipsSizes_nth (mips : list Buffer.t) k :
  nth k (map (fun buf => Z.of_nat (List.length buf)) mips) 0 =
  Z.of_nat (List.length (nth k mips [])).
Proof.
  change 0 with (Z.of_nat (List.length (@nil Z))) at 1.
  apply (map_nth (fun buf : list Z => Z.of_nat (List.length buf))).
Qed.

Lemma isUInt32_range v : isUInt32 v = true <-> 0 <= v < 2 ^ 32.
Proof. unfold isUInt32. rewrite andb_true_iff, Z.leb_le, Z.ltb_lt. tauto. Qed.

(** [encode] returns the file written out above, or raises a [RangeError]
    when a number does not fit its field. *)
Lemma encode_spec pixelData w h :
  encode pixelData w h =
  if encodable pixelData w h then Returns (wadFile pixelData w h)
  else Throws RangeError.
Proof.
  unfold encode, encodable, wadFile. cbv zeta.
  fold (indexedPixelsOf pixelData). fold (mipsDataOf pixelData w h).
  set (mips := mipsDataOf pixelData w h).
  set (mipsSizes := map (fun buf => Z.of_nat (List.length buf)) mips).
  rewrite buildHeader_spec. unfold mipsSizes at 1 2 3 4 5 6. rewrite !mipsSizes_nth.
  fold mipsSizes.
  set (okHeader := isUInt32 w && isUInt32 h && _ && _ && _).
  destruct okHeader; cbn [bind andb]; [| reflexivity].
  rewrite buildPaletteBuf_spec.
  destruct (forallb _ (seq 0 256)); cbn [bind andb]; [| reflexivity].
  assert (Htot : total mipsSizes = Z.of_nat (List.length (List.concat mips)))
    by apply total_lengths.
  rewrite !Htot.
  set (currentLength := 52 + Z.of_nat (List.length (List.concat mips)) + 4 + 256 * 3).
  assert (Hend : mainDataEndOf pixelData w h =
                 currentLength + requiredPadding currentLength 4) by reflexivity.
  destruct (requiredPadding_4 currentLength ltac:(unfold currentLength; lia)) as [Hpad _].
  rewrite <- !Hend.
  rewrite buildLump_spec.
  destruct (isUInt32 (mainDataEndOf pixelData w h - 40)); cbn [bind andb]; [| reflexivity].
  set (padding := if requiredPadding currentLength 4 >? 0
                  then [Buffer.alloc (Z.to_nat (requiredPadding currentLength 4))]
                  else []).
  assert (Epad : List.concat padding =
                 repeat 0 (Z.to_nat (mainDataEndOf pixelData w h - currentLength))).
  { replace (mainDataEndOf pixelData w h - currentLength)
      with (requiredPadding currentLength 4) by lia.
    unfold padding. destruct (Z.gtb_spec (requiredPadding currentLength 4) 0).
    - cbn [List.concat]. apply app_nil_r.
    - replace (requiredPadding currentLength 4) with 0 by lia. reflexivity. }
  set (full := Buffer.concat _).
  assert (Efull :
    full =
    (Buffer.codes "WAD3" ++ Buffer.le32 1) ++ Buffer.le32 0 ++
    (logoName ++ Buffer.le32 w ++ Buffer.le32 h ++
     Buffer.le32 40 ++
     Buffer.le32 (40 + nth 0 mipsSizes 0) ++
     Buffer.le32 (40 + nth 0 mipsSizes 0 + nth 1 mipsSizes 0) ++
     Buffer.le32 (40 + nth 0 mipsSizes 0 + nth 1 mipsSizes 0 + nth 2 mipsSizes 0)) ++
    List.concat mips ++ typeMarker ++
    paletteBytes (buildPalette (pixelsOf pixelData)) ++
    repeat 0 (Z.to_nat (mainDataEndOf pixelData w h - currentLength)) ++
    lumpBytes (mainDataEndOf pixelData w h)).
  { unfold full, Buffer.concat. rewrite !concat_app. cbn [List.concat].
    rewrite !app_nil_r, Epad. unfold headerBytes. rewrite <- !app_assoc. reflexivity. }
  rewrite Efull.
  rewrite writeUInt32LE_spec by (rewrite !length_app; cbn [Buffer.le32 List.length]; lia).
  destruct (isUInt32 (mainDataEndOf pixelData w h)); [| reflexivity].
  rewrite blit_middle by reflexivity.
  unfold headerBytes. rewrite <- !app_assoc. reflexivity.
Qed.

(** X1: a completed encoding is, byte for byte, the file written out in
    [wadFile]: magic, lump count, directory offset, name, dimensions, the
    four mip offsets, the mip data, the type marker, the palette of 256 RGB
    triples, the zero padding and the directory entry. *)
Theorem completed_encoding_layout sharpRaw width height maxPixiel out :
  generateWad3Spray sharpRaw width height maxPixiel = Returns out ->
  exists fw fh w h pixelData,
    width = Some fw /\ height = Some fh /\
    resizeWithAspectRatioAndAlign fw fh maxPixiel 16 = Some (w, h) /\
    sharpRaw w h = Some pixelData /\
    out = wadFile pixelData w h.
Proof.
  intros H. apply generate_returns in H.
  destruct H as (fw & fh & w & h & pixelData & Ew & Eh & Ep & Er & H).
  exists fw, fh, w, h, pixelData. repeat (split; [assumption |]).
  rewrite encode_spec in H. destruct (encodable pixelData w h); [| discriminate].
  injection H as <-. reflexivity.
Qed.

Lemma completed_encoding_layout_witness :
  exists out,
    generateWad3Spray flatRaw (Some 10) (Some 10) 300 = Returns out /\
    exists fw fh w h pixelData,
      Some 10 = Some fw /\ Some 10 = Some fh /\
      resizeWithAspectRatioAndAlign fw fh 300 16 = Some (w, h) /\
      flatRaw w h = Some pixelData /\
      out = wadFile pixelData w h.
Proof.
  eexists. split.
  - vm_compute. reflexivity.
  - apply (completed_encoding_layout flatRaw (Some 10) (Some 10) 300).
    vm_compute. reflexivity.
Defined.

Lemma slice_app (P m R : list Z) n :
  n = List.length P ->
  firstn (List.length m) (skipn n (P ++ m ++ R)) = m.
Proof.
  intros ->. rewrite skipn_app_exact, firstn_app, firstn_all, Nat.sub_diag.
  cbn [firstn]. apply app_nil_r.
Qed.

Lemma headerBytes_length w h mipsSizes directoryOffset :
  List.length (headerBytes w h mipsSizes directoryOffset) = 52%nat.
Proof. reflexivity. Qed.

(** X2: the mip offsets of the header are relative to the texture header at
    byte 12 (the [textureoffset] of the directory entry): the bytes of
    level [k] are found at 12 plus the offset stored for level [k]. *)
Theorem mip_offsets_point_at_data sharpRaw width height maxPixiel out :
  generateWad3Spray sharpRaw width height maxPixiel = Returns out ->
  exists fw fh w h pixelData,
    width = Some fw /\ height = Some fh /\
    resizeWithAspectRatioAndAlign fw fh maxPixiel 16 = Some (w, h) /\
    sharpRaw w h = Some pixelData /\
    forall k, (k < 4)%nat ->
      exists offset,
        Buffer.readUInt32LE out (36 + 4 * k) = Some offset /\
        firstn (List.length (nth k (mipsDataOf pixelData w h) []))
               (skipn (Z.to_nat (12 + offset)) out) =
        nth k (mipsDataOf pixelData w h) [].
Proof.
  intros H. apply generate_returns in H.
  destruct H as (fw & fh & w & h & pixelData & Ew & Eh & Ep & Er & H).
  exists fw, fh, w, h, pixelData. repeat (split; [assumption |]).
  pose proof (encode_returns _ _ _ _ H) as Hr. cbv zeta in Hr.
  destruct Hr as (_ & _ & _ & R36 & R40 & R44 & R48).
  rewrite encode_spec in H. destruct (encodable pixelData w h); [| discriminate].
  injection H as <-.
  unfold wadFile in *. cbv zeta in *.
  set (mipsSizes := map (fun buf => Z.of_nat (List.length buf)) (mipsDataOf pixelData w h)) in *.
  set (header := headerBytes w h mipsSizes (mainDataEndOf pixelData w h)) in *.
  assert (Lh : List.length header = 52%nat) by reflexivity.
  set (rest := typeMarker ++ _) in *.
  assert (Emips : exists m0 m1 m2 m3, mipsDataOf pixelData w h = [m0; m1; m2; m3])
    by (unfold mipsDataOf, buildMips; cbn [levels map]; eauto).
  destruct Emips as (m0 & m1 & m2 & m3 & Emips). rewrite Emips in *.
  cbn [List.concat nth List.length] in *. rewrite app_nil_r in *.
  intros k Hk.
  destruct k as [| [| [| [| k]]]]; try lia; cbn [nth Nat.mul Nat.add].
  - exists 40. split; [exact R36 |].
    rewrite <- !app_assoc. apply slice_app. rewrite Lh. reflexivity.
  - eexists. split; [exact R40 |].
    replace (header ++ (m0 ++ m1 ++ m2 ++ m3) ++ rest)
      with ((header ++ m0) ++ m1 ++ (m2 ++ m3 ++ rest))
      by (rewrite <- !app_assoc; reflexivity).
    apply slice_app. rewrite length_app, Lh. lia.
  - eexists. split; [exact R44 |].
    replace (header ++ (m0 ++ m1 ++ m2 ++ m3) ++ rest)
      with ((header ++ m0 ++ m1) ++ m2 ++ (m3 ++ rest))
      by (rewrite <- !app_assoc; reflexivity).
    apply slice_app. rewrite !length_app, Lh. lia.
  - eexists. split; [exact R48 |].
    replace (header ++ (m0 ++ m1 ++ m2 ++ m3) ++ rest)
      with ((header ++ m0 ++ m1 ++ m2) ++ m3 ++ rest)
      by (rewrite <- !app_assoc; reflexivity).
    apply slice_app. rewrite !length_app, Lh. lia.
Qed.

Lemma mip_offsets_point_at_data_witness :
  exists out,
    generateWad3Spray flatRaw (Some 10) (Some 10) 300 = Returns out /\
    exists fw fh w h pixelData,
      Some 10 = Some fw /\ Some 10 = Some fh /\
      resizeWithAspectRatioAndAlign fw fh 300 16 = Some (w, h) /\
      flatRaw w h = Some pixelData /\
      forall k, (k < 4)%nat ->
        exists offset,
          Buffer.readUInt32LE out (36 + 4 * k) = Some offset /\
          firstn (List.length (nth k (mipsDataOf pixelData w h) []))
                 (skipn (Z.to_nat (12 + offset)) out) =
          nth k (mipsDataOf pixelData w h) [].
Proof.
  eexists. split.
  - vm_compute. reflexivity.
  - apply (mip_offsets_point_at_data flatRaw (Some 10) (Some 10) 300).
    vm_compute. reflexivity.
Defined.

(** ** Sizes *)

Lemma generate_returns_dims sharpRaw width height maxPixiel out :
  generateWad3Spray sharpRaw width height maxPixiel = Returns out ->
  exists fw fh w h pixelData,
    width = Some fw /\ height = Some fh /\
    resizeWithAspectRatioAndAlign fw fh maxPixiel 16 = Some (w, h) /\
    sharpRaw w h = Some pixelData /\
    encode pixelData w h = Returns out /\
    16 <= w /\ 16 <= h /\ w mod 16 = 0 /\ h mod 16 = 0 /\
    w * h <= maxPixiel.
Proof.
  intros H. pose proof (generate_returns _ _ _ _ _ H) as G.
  destruct G as (fw & fh & w & h & pixelData & -> & -> & Ep & Er & He).
  exists fw, fh, w, h, pixelData. repeat (split; [assumption || reflexivity |]).
  unfold generateWad3Spray in H.
  destruct (missing (Some fw) || missing (Some fh)); [discriminate |].
  cbn [orElse] in H. rewrite Ep in H.
  destruct (Z.eqb_spec w 0) as [| Hw]; [discriminate |].
  destruct (Z.eqb_spec h 0) as [| Hh]; [discriminate |].
  apply planner_shrunk, shrunk_16_cases in Ep. lia.
Qed.

(** The four levels of an image whose sides are multiples of 16. *)
Lemma mips_sizes_16 indexedPixels a b :
  1 <= a -> 1 <= b ->
  exists m0 m1 m2 m3,
    buildMips indexedPixels (16 * a) (16 * b) = [m0; m1; m2; m3] /\
    Z.of_nat (List.length m0) = 256 * (a * b) /\
    Z.of_nat (List.length m1) = 64 * (a * b) /\
    Z.of_nat (List.length m2) = 16 * (a * b) /\
    Z.of_nat (List.length m3) = 4 * (a * b).
Proof.
  intros Ha Hb. unfold buildMips. cbn [levels map].
  do 4 eexists. split; [reflexivity |].
  rewrite !from_length, !mipSamples_length. unfold ceilDiv.
  change (Z.pos (stepOf 0)) with 1. change (Z.pos (stepOf 1)) with 2.
  change (Z.pos (stepOf 2)) with 4. change (Z.pos (stepOf 3)) with 8.
  replace ((16 * a + 1 - 1) / 1) with (16 * a) by (rewrite Z.div_1_r; lia).
  replace ((16 * b + 1 - 1) / 1) with (16 * b) by (rewrite Z.div_1_r; lia).
  replace ((16 * a + 2 - 1) / 2) with (8 * a) by (Z.to_euclidean_division_equations; lia).
  replace ((16 * b + 2 - 1) / 2) with (8 * b) by (Z.to_euclidean_division_equations; lia).
  replace ((16 * a + 4 - 1) / 4) with (4 * a) by (Z.to_euclidean_division_equations; lia).
  replace ((16 * b + 4 - 1) / 4) with (4 * b) by (Z.to_euclidean_division_equations; lia).
  replace ((16 * a + 8 - 1) / 8) with (2 * a) by (Z.to_euclidean_division_equations; lia).
  replace ((16 * b + 8 - 1) / 8) with (2 * b) by (Z.to_euclidean_division_equations; lia).
  repeat split; lia.
Qed.

Lemma mainDataEnd_16 pixelData a b :
  1 <= a -> 1 <= b ->
  mainDataEndOf pixelData (16 * a) (16 * b) = 824 + 340 * (a * b).
Proof.
  intros Ha Hb. unfold mainDataEndOf, mipsDataOf. cbv zeta.
  destruct (mips_sizes_16 (indexedPixelsOf pixelData) a b Ha Hb)
    as (m0 & m1 & m2 & m3 & -> & L0 & L1 & L2 & L3).
  cbn [List.concat]. rewrite !length_app, !Nat2Z.inj_add. cbn [List.length].
  unfold requiredPadding. cbv zeta.
  set (n := a * b) in *. assert (0 <= n) by (unfold n; nia).
  rewrite Z.rem_mod_nonneg by lia.
  replace ((52 + (Z.of_nat (List.length m0) + (Z.of_nat (List.length m1) +
             (Z.of_nat (List.length m2) + (Z.of_nat (List.length m3) + Z.of_nat 0)))) +
            4 + 256 * 3))
    with (824 + 340 * n) by lia.
  replace ((824 + 340 * n) mod 4) with 0 by (Z.to_euclidean_division_equations; lia).
  cbn. lia.
Qed.



(** ** When the encoder succeeds *)

Lemma list_ind4 {A} (P : list A -> Prop) :
  P [] -> (forall a, P [a]) -> (forall a b, P [a; b]) ->
  (forall a b c, P [a; b; c]) ->
  (forall a b c d rest, P rest -> P (a :: b :: c :: d :: rest)) ->
  forall l, P l.
Proof.
  intros H0 H1 H2 H3 H4. fix IH 1.
  intros [| a [| b [| c [| d rest]]]];
    [exact H0 | apply H1 | apply H2 | apply H3 | apply H4; apply IH].
Qed.

(** Every component of a pixel is an entry of the raw data. *)
Lemma pixelsOf_components pixelData c :
  In c (pixelsOf pixelData) ->
  forall x v,
    x = Color.r c \/ x = Color.g c \/ x = Color.b c \/ x = Color.a c ->
    x = Some v -> In v pixelData.
Proof.
  revert c. induction pixelData as [| r | r g | r g b | r g b a rest IH] using list_ind4;
    intros c Hc x v Hx Hv; cbn [pixelsOf In] in Hc.
  - contradiction.
  - destruct Hc as [<- | []]. cbn in Hx.
    destruct Hx as [-> | [-> | [-> | ->]]]; try discriminate;
      injection Hv as <-; cbn; tauto.
  - destruct Hc as [<- | []]. cbn in Hx.
    destruct Hx as [-> | [-> | [-> | ->]]]; try discriminate;
      injection Hv as <-; cbn; tauto.
  - destruct Hc as [<- | []]. cbn in Hx.
    destruct Hx as [-> | [-> | [-> | ->]]]; try discriminate;
      injection Hv as <-; cbn; tauto.
  - destruct Hc as [<- | Hc].
    + cbn in Hx.
      destruct Hx as [-> | [-> | [-> | ->]]]; injection Hv as <-; cbn; tauto.
    + do 4 right. exact (IH c Hc x v Hx Hv).
Qed.

Lemma componentOk_bytes pixelData c x :
  Forall (fun v => 0 <= v <= 255) pixelData ->
  In c (pixelsOf pixelData) ->
  x = Color.r c \/ x = Color.g c \/ x = Color.b c \/ x = Color.a c ->
  componentOk x = true.
Proof.
  intros Hb Hc Hx. destruct x as [v |]; [| reflexivity].
  pose proof (pixelsOf_components _ _ Hc (Some v) v Hx eq_refl) as Hin.
  rewrite Forall_forall in Hb. specialize (Hb v Hin).
  cbn. apply andb_true_iff. split; [apply Z.leb_le | apply Z.leb_le]; lia.
Qed.

(** The palette of byte data holds bytes only. *)
Lemma buildPalette_entryOk pixelData i :
  Forall (fun v => 0 <= v <= 255) pixelData ->
  entryOk (paletteEntry (buildPalette (pixelsOf pixelData)) i) = true.
Proof.
  intros Hb. unfold paletteEntry.
  destruct (nth_error (buildPalette (pixelsOf pixelData)) i) as [c |] eqn:E;
    [| reflexivity].
  cbn [orElse]. apply nth_error_In in E. rewrite buildPalette_layout in E.
  rewrite !in_app_iff in E. destruct E as [E | [E | [<- | []]]].
  - apply (proj1 (firstSeen_In _ _)) in E. unfold entryOk.
    rewrite (componentOk_bytes pixelData c (Color.r c) Hb E) by (left; reflexivity).
    rewrite (componentOk_bytes pixelData c (Color.g c) Hb E)
      by (right; left; reflexivity).
    rewrite (componentOk_bytes pixelData c (Color.b c) Hb E)
      by (right; right; left; reflexivity).
    reflexivity.
  - apply repeat_spec in E. subst c. reflexivity.
  - reflexivity.
Qed.

Lemma encodable_bytes pixelData a b :
  1 <= a -> 1 <= b -> 256 * (a * b) < 2 ^ 31 ->
  Forall (fun v => 0 <= v <= 255) pixelData ->
  encodable pixelData (16 * a) (16 * b) = true.
Proof.
  intros Ha Hb Hm Hbytes. unfold encodable. cbv zeta.
  rewrite mainDataEnd_16 by assumption. unfold mipsDataOf.
  destruct (mips_sizes_16 (indexedPixelsOf pixelData) a b Ha Hb)
    as (m0 & m1 & m2 & m3 & -> & L0 & L1 & L2 & L3).
  cbn [nth]. rewrite L0, L1, L2.
  assert (Hn : 1 <= a * b) by nia.
  assert (Hwa : 16 * a <= 256 * (a * b)) by nia.
  assert (Hwb : 16 * b <= 256 * (a * b)) by nia.
  set (n := a * b) in *.
  rewrite !andb_true_iff, !isUInt32_range, forallb_forall.
  change (2 ^ 31) with 2147483648 in Hm. change (2 ^ 32) with 4294967296.
  repeat split; try lia.
  intros i _. apply buildPalette_entryOk. exact Hbytes.
Qed.

(** X4: on a source with sides in (0, 2^63) and a budget from 256 up to
    2^31, the encoder cannot fail before or after decoding: the planner
    gives dimensions that are positive multiples of 16, and the outcome is
    [DecodeFailure] when the image pipeline rejects the image, and the
    complete file when it delivers bytes.  No [RangeError], no
    [InvalidImageSize]. *)
Theorem encoder_outcome sharpRaw fw fh maxPixiel :
  0 < fw < 2 ^ 63 -> 0 < fh < 2 ^ 63 -> 256 <= maxPixiel < 2 ^ 31 ->
  exists w h,
    resizeWithAspectRatioAndAlign fw fh maxPixiel 16 = Some (w, h) /\
    match sharpRaw w h with
    | None =>
        generateWad3Spray sharpRaw (Some fw) (Some fh) maxPixiel =
        Throws DecodeFailure
    | Some pixelData =>
        Forall (fun v => 0 <= v <= 255) pixelData ->
        generateWad3Spray sharpRaw (Some fw) (Some fh) maxPixiel =
        Returns (wadFile pixelData w h)
    end.
Proof.
  intros Hw Hh Hm.
  destruct (planner_total fw fh maxPixiel Hw Hh ltac:(lia)) as (w & h & Ep).
  exists w, h. split; [exact Ep |].
  pose proof (planner_shrunk _ _ _ _ _ _ Ep) as Hs.
  apply shrunk_16_cases in Hs. destruct Hs as [Hs | [_ Hs]]; [| lia].
  destruct Hs as (Hw16 & Hh16 & Mw & Mh & Hle & _).
  unfold generateWad3Spray. cbn [missing orElse orb].
  destruct (Z.eqb_spec fw 0) as [| _]; [lia |].
  destruct (Z.eqb_spec fh 0) as [| _]; [lia |]. cbn [orb]. rewrite Ep.
  destruct (Z.eqb_spec w 0) as [| _]; [lia |].
  destruct (Z.eqb_spec h 0) as [| _]; [lia |]. cbn [orb].
  destruct (sharpRaw w h) as [pixelData |]; [| reflexivity].
  intros Hbytes. rewrite encode_spec.
  assert (Ew : w = 16 * (w / 16)) by (Z.to_euclidean_division_equations; lia).
  assert (Eh : h = 16 * (h / 16)) by (Z.to_euclidean_division_equations; lia).
  assert (Ha : 1 <= w / 16) by (Z.to_euclidean_division_equations; lia).
  assert (Hb : 1 <= h / 16) by (Z.to_euclidean_division_equations; lia).
  assert (Hab : 256 * (w / 16 * (h / 16)) < 2 ^ 31) by nia.
  pose proof (encodable_bytes pixelData _ _ Ha Hb Hab Hbytes) as Hok.
  rewrite <- Ew, <- Eh in Hok. rewrite Hok. reflexivity.
Qed.

Lemma encoder_outcome_witness :
  exists w h,
    resizeWithAspectRatioAndAlign 10 10 300 16 = Some (w, h) /\
    match flatRaw w h with
    | None =>
        generateWad3Spray flatRaw (Some 10) (Some 10) 300 = Throws DecodeFailure
    | Some pixelData =>
        Forall (fun v => 0 <= v <= 255) pixelData ->
        generateWad3Spray flatRaw (Some 10) (Some 10) 300 =
        Returns (wadFile pixelData w h)
    end.
Proof.
  apply (encoder_outcome flatRaw 10 10 300); lia.
Defined.

(** ** The index written for a pixel *)

Lemma findIndexFrom_found pred l i d :
  In d l -> pred d = true ->
  exists k e,
    findIndexFrom pred l i = i + Z.of_nat k /\
    nth_error l k = Some e /\ pred e = true /\
    forall j e', (j < k)%nat -> nth_error l j = Some e' -> pred e' = false.
Proof.
  revert i. induction l as [| c l IH]; intros i Hin Hp; [contradiction |].
  cbn [findIndexFrom]. destruct (pred c) eqn:Ec.
  - exists 0%nat, c. repeat split; [lia | assumption | intros j e' Hj; lia].
  - destruct Hin as [-> | Hin]; [congruence |].
    destruct (IH (i + 1) Hin Hp) as (k & e & Hk & Hn & He & Hmin).
    exists (S k), e. repeat split; [lia | exact Hn | exact He |].
    intros [| j] e' Hj Hj'; cbn in Hj'.
    + injection Hj' as <-. exact Ec.
    + apply (Hmin j); [lia | exact Hj'].
Qed.

Lemma In_nth_error_Some {A} (l : list A) x :
  In x l -> exists p, nth_error l p = Some x.
Proof. apply In_nth_error. Qed.

Lemma indexOfPixel_opaque pixels c :
  In c pixels -> Color.isTransparent c = false ->
  exists i,
    indexOfPixel (buildPalette pixels) c = Z.of_nat i /\
    nth_error (buildPalette pixels) i = Some c /\
    nth_error (firstSeen pixels) i = Some c /\
    forall j, (j < i)%nat -> nth_error (buildPalette pixels) j <> Some c.
Proof.
  intros Hin Ht. unfold indexOfPixel, findIndex. rewrite Ht.
  assert (Hfs : In c (firstSeen pixels)) by (apply firstSeen_In; exact Hin).
  assert (Hpal : In c (buildPalette pixels)).
  { rewrite buildPalette_layout. apply in_or_app. left. exact Hfs. }
  destruct (findIndexFrom_found (fun d => Color.eqb d c) _ 0 c Hpal
              (Color_eqb_refl c)) as (k & e & Hk & Hn & He & Hmin).
  apply Color_eqb_eq in He. subst e.
  exists k. rewrite Hk. cbv zeta.
  destruct (Z.geb_spec (0 + Z.of_nat k) 0) as [_ | Hneg]; [| lia].
  split; [lia |]. split; [exact Hn |]. split.
  - destruct (In_nth_error_Some _ _ Hfs) as (p & Hp).
    assert (Hkp : (k <= p)%nat).
    { destruct (Nat.le_gt_cases k p) as [Hle | Hgt]; [exact Hle |].
      assert (Hp' : nth_error (buildPalette pixels) p = Some c).
      { rewrite buildPalette_layout, nth_error_app1; [exact Hp |].
        apply nth_error_Some. congruence. }
      pose proof (Hmin p c Hgt Hp') as Hf. rewrite Color_eqb_refl in Hf.
      discriminate. }
    assert (Hlen : (k < List.length (firstSeen pixels))%nat).
    { assert (p < List.length (firstSeen pixels))%nat
        by (apply nth_error_Some; congruence). lia. }
    rewrite buildPalette_layout, nth_error_app1 in Hn by exact Hlen. exact Hn.
  - intros j Hj Hc. pose proof (Hmin j c Hj Hc) as Hf.
    rewrite Color_eqb_refl in Hf. discriminate.
Qed.

(** X5: an opaque pixel of the image is written as its first-seen rank: the
    palette holds the pixel's own colour at that index, the index lies in
    the colours of the image (never in the black filling, never at the key
    entry), and no earlier entry carries the colour.  The fallback to 255
    for a colour missing from the palette is never taken. *)
Theorem opaque_pixel_index pixelData c :
  In c (pixelsOf pixelData) -> Color.isTransparent c = false ->
  exists i,
    indexOfPixel (buildPalette (pixelsOf pixelData)) c = Z.of_nat i /\
    nth_error (buildPalette (pixelsOf pixelData)) i = Some c /\
    nth_error (firstSeen (pixelsOf pixelData)) i = Some c /\
    forall j, (j < i)%nat ->
      nth_error (buildPalette (pixelsOf pixelData)) j <> Some c.
Proof. apply indexOfPixel_opaque. Qed.

Lemma opaque_pixel_index_witness :
  exists i,
    indexOfPixel (buildPalette (pixelsOf [1; 2; 3; 255; 4; 5; 6; 255]))
                 (Color.mk (Some 4) (Some 5) (Some 6) (Some 255)) = Z.of_nat i /\
    nth_error (buildPalette (pixelsOf [1; 2; 3; 255; 4; 5; 6; 255])) i =
      Some (Color.mk (Some 4) (Some 5) (Some 6) (Some 255)) /\
    nth_error (firstSeen (pixelsOf [1; 2; 3; 255; 4; 5; 6; 255])) i =
      Some (Color.mk (Some 4) (Some 5) (Some 6) (Some 255)) /\
    forall j, (j < i)%nat ->
      nth_error (buildPalette (pixelsOf [1; 2; 3; 255; 4; 5; 6; 255])) j <>
      Some (Color.mk (Some 4) (Some 5) (Some 6) (Some 255)).
Proof.
  apply (opaque_pixel_index [1; 2; 3; 255; 4; 5; 6; 255]
           (Color.mk (Some 4) (Some 5) (Some 6) (Some 255))).
  - cbn. right. left. reflexivity.
  - reflexivity.
Defined.

(** ** What a mip level samples *)

Lemma forStride_closed i n step :
  forStride i n step =
  map (fun k => i + Z.of_nat k * Z.pos step)
      (seq 0 (List.length (forStride i n step))).
Proof.
  funelim (forStride i n step).
  - match goal with IH : forStride _ _ _ = map _ _ |- _ => pose proof IH as Hrec end.
    cbn [List.length seq map]. f_equal; [lia |].
    rewrite <- seq_shift, map_map. rewrite Hrec at 1.
    apply map_ext. intros k. lia.
  - reflexivity.
Qed.

Lemma forStride_nth i n step k :
  0 <= i -> i + Z.of_nat k * Z.pos step < n ->
  nth_error (forStride i n step) k = Some (i + Z.of_nat k * Z.pos step).
Proof.
  intros Hi Hk. rewrite forStride_closed.
  pose proof (forStride_length i n step) as L.
  pose proof (ceilDiv_spec (n - i) (Z.pos step) ltac:(lia)) as C.
  assert (Hlt : (k < List.length (forStride i n step))%nat) by nia.
  rewrite nth_error_map, nth_error_seq.
  destruct (Nat.ltb_spec k (List.length (forStride i n step))) as [_ | Hge];
    [reflexivity | lia].
Qed.

Lemma nth_error_flat_map_constant {A B : Type} (f : A -> list B) (l : list A)
    (k j i : nat) (x : A) :
  (forall y, List.length (f y) = k) ->
  nth_error l j = Some x -> (i < k)%nat ->
  nth_error (flat_map f l) (j * k + i) = nth_error (f x) i.
Proof.
  intros Hf. revert j. induction l as [| y l IH]; intros j Hj Hi.
  - destruct j; discriminate.
  - cbn [flat_map]. destruct j as [| j]; cbn in Hj.
    + injection Hj as ->. cbn. apply nth_error_app1. rewrite Hf. exact Hi.
    + rewrite nth_error_app2 by (rewrite Hf; cbn; lia).
      rewrite Hf. replace (S j * k + i - k)%nat with (j * k + i)%nat by (cbn; lia).
      apply IH; assumption.
Qed.

Lemma mipSamples_nth indexedPixels w h level i j :
  Z.of_nat i * Z.pos (stepOf level) < w ->
  Z.of_nat j * Z.pos (stepOf level) < h ->
  nth_error (mipSamples indexedPixels w h level)
            (j * Z.to_nat (ceilDiv w (Z.pos (stepOf level))) + i) =
  Some (orElse (at_ indexedPixels
                    (Z.of_nat j * Z.pos (stepOf level) * w +
                     Z.of_nat i * Z.pos (stepOf level))) 255).
Proof.
  intros Hi Hj. unfold mipSamples. cbv zeta.
  set (step := stepOf level) in *.
  pose proof (forStride_length 0 w step) as Lw. rewrite Z.sub_0_r in Lw.
  pose proof (ceilDiv_spec w (Z.pos step) ltac:(lia)) as Cw.
  assert (Hcw : 0 < ceilDiv w (Z.pos step)) by (apply ceilDiv_pos; lia).
  rewrite (nth_error_flat_map_constant _ _ (Z.to_nat (ceilDiv w (Z.pos step)))
             j i (Z.of_nat j * Z.pos step)).
  - rewrite nth_error_map, (forStride_nth 0 w step i) by lia. reflexivity.
  - intros y. rewrite length_map. lia.
  - rewrite (forStride_nth 0 h step j) by lia. reflexivity.
  - nia.
Qed.

(** X6: the entry of mip level [level] in row [j] and column [i] is the
    index of the source pixel in row [j * 2^level] and column [i * 2^level]
    -- one pixel picked, nothing averaged -- stored modulo 256, and 255
    where the index buffer has no such entry. *)
Theorem mip_entry_samples_one_pixel indexedPixels w h level i j :
  Z.of_nat i * Z.pos (stepOf level) < w ->
  Z.of_nat j * Z.pos (stepOf level) < h ->
  nth_error (Buffer.from (mipSamples indexedPixels w h level))
            (j * Z.to_nat (ceilDiv w (Z.pos (stepOf level))) + i) =
  Some (orElse (at_ indexedPixels
                    ((Z.of_nat j * Z.pos (stepOf level)) * w +
                     Z.of_nat i * Z.pos (stepOf level))) 255 mod 256).
Proof.
  intros Hi Hj. unfold Buffer.from.
  rewrite nth_error_map, mipSamples_nth by assumption. reflexivity.
Qed.

Lemma mip_entry_samples_one_pixel_witness :
  nth_error (Buffer.from (mipSamples [10; 11; 12; 13; 14; 15; 16; 17] 4 2 1))
            (0 * Z.to_nat (ceilDiv 4 (Z.pos (stepOf 1))) + 1) =
  Some (orElse (at_ [10; 11; 12; 13; 14; 15; 16; 17]
                    ((Z.of_nat 0 * Z.pos (stepOf 1)) * 4 +
                     Z.of_nat 1 * Z.pos (stepOf 1))) 255 mod 256).
Proof.
  apply (mip_entry_samples_one_pixel [10; 11; 12; 13; 14; 15; 16; 17] 4 2 1 1 0);
    reflexivity.
Defined.

(** The number of rounds of [for (i = 0; i < pixelData.length; i += 4)]. *)
Lemma pixelsOf_length pixelData :
  Z.of_nat (List.length (pixelsOf pixelData)) =
  (Z.of_nat (List.length pixelData) + 3) / 4.
Proof.
  induction pixelData as [| r | r g | r g b | r g b a rest IH] using list_ind4;
    try reflexivity.
  cbn [pixelsOf List.length]. rewrite !Nat2Z.inj_succ, IH.
  Z.to_euclidean_division_equations. lia.
Qed.

Lemma indexedPixelsOf_length pixelData :
  Z.of_nat (List.length (indexedPixelsOf pixelData)) =
  (Z.of_nat (List.length pixelData) + 3) / 4.
Proof.
  unfold indexedPixelsOf, buildIndexedPixels. rewrite length_map.
  apply pixelsOf_length.
Qed.

Lemma mipSamples_level0 indexedPixels w h :
  0 <= w -> 0 <= h ->
  Z.of_nat (List.length indexedPixels) = w * h ->
  mipSamples indexedPixels w h 0 = indexedPixels.
Proof.
  intros Hw Hh Hlen. apply nth_error_ext. intros n.
  pose proof (mipSamples_length indexedPixels w h 0) as L.
  change (Z.pos (stepOf 0)) with 1 in L. unfold ceilDiv in L.
  replace (h + 1 - 1) with h in L by lia. replace (w + 1 - 1) with w in L by lia.
  rewrite !Z.div_1_r in L.
  destruct (Nat.lt_ge_cases n (List.length indexedPixels)) as [Hn | Hn].
  - assert (Hwpos : 0 < w) by nia.
    pose proof (mipSamples_nth indexedPixels w h 0
                  (Z.to_nat (Z.of_nat n mod w)) (Z.to_nat (Z.of_nat n / w))) as S.
    change (Z.pos (stepOf 0)) with 1 in S.
    pose proof (Z.mod_pos_bound (Z.of_nat n) w Hwpos) as Hm.
    pose proof (Z.div_mod (Z.of_nat n) w ltac:(lia)) as Hd.
    assert (Hq : 0 <= Z.of_nat n / w) by (apply Z.div_pos; lia).
    assert (Hqh : Z.of_nat n / w < h).
    { apply Z.div_lt_upper_bound; [lia |]. lia. }
    rewrite !Z2Nat.id, !Z.mul_1_r in S by lia.
    specialize (S ltac:(lia) ltac:(lia)).
    unfold ceilDiv in S. replace (w + 1 - 1) with w in S by lia.
    rewrite Z.div_1_r in S.
    replace (Z.to_nat (Z.of_nat n / w) * Z.to_nat w + Z.to_nat (Z.of_nat n mod w))%nat
      with n in S by nia.
    rewrite S. replace (Z.of_nat n / w * w + Z.of_nat n mod w) with (Z.of_nat n) by lia.
    unfold at_. destruct (Z.ltb_spec (Z.of_nat n) 0) as [| _]; [lia |].
    rewrite Nat2Z.id.
    destruct (nth_error indexedPixels n) as [v |] eqn:E; [reflexivity |].
    apply nth_error_None in E. lia.
  - rewrite (proj2 (nth_error_None indexedPixels n)) by exact Hn.
    apply nth_error_None. nia.
Qed.

(** X7: when the raw buffer holds four bytes for each of the [w * h]
    pixels, mip level 0 is the index buffer itself, pixel for pixel: as many
    indices as the buffer has quadruples, each stored modulo 256. *)
Theorem mip_level_zero_is_index_buffer pixelData w h :
  0 <= w -> 0 <= h ->
  Z.of_nat (List.length pixelData) = 4 * (w * h) ->
  nth 0 (mipsDataOf pixelData w h) [] = Buffer.from (indexedPixelsOf pixelData) /\
  Z.of_nat (List.length (indexedPixelsOf pixelData)) = w * h.
Proof.
  intros Hw Hh Hlen.
  assert (L : Z.of_nat (List.length (indexedPixelsOf pixelData)) = w * h).
  { rewrite indexedPixelsOf_length, Hlen.
    Z.to_euclidean_division_equations. lia. }
  split; [| exact L].
  unfold mipsDataOf, buildMips. cbn [levels map nth].
  rewrite mipSamples_level0 by assumption. reflexivity.
Qed.

Lemma mip_level_zero_is_index_buffer_witness :
  nth 0 (mipsDataOf [1; 2; 3; 255; 4; 5; 6; 255] 2 1) [] =
    Buffer.from (indexedPixelsOf [1; 2; 3; 255; 4; 5; 6; 255]) /\
  Z.of_nat (List.length (indexedPixelsOf [1; 2; 3; 255; 4; 5; 6; 255])) = 2 * 1.
Proof.
  apply (mip_level_zero_is_index_buffer [1; 2; 3; 255; 4; 5; 6; 255] 2 1);
    [lia | lia | reflexivity].
Defined.

(** ** Padding *)

(** X8: for a length that is not negative and a positive multiple,
    [requiredPadding] is the least number of bytes that brings the length to
    a multiple: it is below the multiple, the padded length divides evenly,
    and no smaller padding does. *)
Theorem requiredPadding_least length multiple :
  0 <= length -> 0 < multiple ->
  0 <= requiredPadding length multiple < multiple /\
  (length + requiredPadding length multiple) mod multiple = 0 /\
  forall q, 0 <= q -> (length + q) mod multiple = 0 ->
            requiredPadding length multiple <= q.
Proof.
  intros Hl Hm. unfold requiredPadding. cbv zeta.
  rewrite Z.rem_mod_nonneg by lia.
  pose proof (Z.mod_pos_bound length multiple Hm) as Hb.
  pose proof (Z.div_mod length multiple ltac:(lia)) as Hd.
  destruct (Z.eqb_spec (length mod multiple) 0) as [E | E].
  - split; [lia |]. split; [rewrite Z.add_0_r; exact E |]. intros q Hq _. exact Hq.
  - split; [lia |]. split.
    + replace (length + (multiple - length mod multiple))
        with ((length / multiple + 1) * multiple) by lia.
      apply Z.mod_mul. lia.
    + intros q Hq Hz.
      apply Z.mod_divide in Hz; [| lia]. destruct Hz as [k Hk].
      assert (length / multiple < k) by nia.
      nia.
Qed.

Lemma requiredPadding_least_witness :
  0 <= requiredPadding 1081 4 < 4 /\
  (1081 + requiredPadding 1081 4) mod 4 = 0 /\
  forall q, 0 <= q -> (1081 + q) mod 4 = 0 -> requiredPadding 1081 4 <= q.
Proof.
  apply (requiredPadding_least 1081 4); lia.
Defined.

(** ** The correction loop of the planner *)

Import ExactDoubles.

Lemma shrink_least_change maxPixel align w h :
  fst (shrink maxPixel align w h) <= w /\
  snd (shrink maxPixel align w h) <= h /\
  (w * h <= maxPixel -> shrink maxPixel align w h = (w, h)) /\
  (shrink maxPixel align w h <> (w, h) ->
   (fst (shrink maxPixel align w h) + Z.pos align) *
     snd (shrink maxPixel align w h) > maxPixel \/
   fst (shrink maxPixel align w h) *
     (snd (shrink maxPixel align w h) + Z.pos align) > maxPixel).
Proof.
  funelim (shrink maxPixel align w h).
  - cbn [fst snd]. repeat split; try lia. intros Hne. exfalso. apply Hne. reflexivity.
  - match goal with E : (_ >? _) = true |- _ => pose proof E as Hgt end.
    rewrite Z.gtb_ltb, Z.ltb_lt in Hgt.
    cbn [fst snd]. unfold shrinkW, shrinkH.
    destruct (Z.geb_spec w h).
    + split; [lia |]. split; [lia |]. split; [intros; lia |].
      intros _. left. ring_simplify. lia.
    + split; [lia |]. split; [lia |]. split; [intros; lia |].
      intros _. right. ring_simplify. lia.
  - match goal with E : (_ >? _) = true |- _ => pose proof E as Hgt end.
    rewrite Z.gtb_ltb, Z.ltb_lt in Hgt.
    match goal with
    | IH : _ <= shrinkW _ _ _ /\ _ |- _ =>
        destruct IH as (Hw & Hh & _ & Htight)
    end.
    set (r := shrink maxPixel align (shrinkW align w h) (shrinkH align w h)) in *.
    assert (Hsw : shrinkW align w h <= w) by (unfold shrinkW; destruct (w >=? h); lia).
    assert (Hsh : shrinkH align w h <= h) by (unfold shrinkH; destruct (w >=? h); lia).
    split; [lia |]. split; [lia |]. split; [intros; lia |]. intros _.
    destruct (Z.eq_dec (fst r) (shrinkW align w h)) as [Ew | Ew];
      [destruct (Z.eq_dec (snd r) (shrinkH align w h)) as [Eh | Eh] |].
    + rewrite Ew, Eh. unfold shrinkW, shrinkH.
      destruct (Z.geb_spec w h); [left | right]; ring_simplify; lia.
    + apply Htight. intros Hr. apply Eh. rewrite Hr. reflexivity.
    + apply Htight. intros Hr. apply Ew. rewrite Hr. reflexivity.
Qed.

(** X9: from two positive multiples of [align] below [2^53] and a budget
    below [2^53], the correction loop of the program, on doubles, ends
    within [w + h] rounds in the doubles of the state that [shrink]
    returns.  It only takes away, leaves dimensions within the budget as
    they are, and stops at the first state within the budget: when it
    changed anything, giving [align] back to one of the two sides exceeds
    the budget again. *)
Theorem shrink_takes_no_more_than_needed maxPixel (align : positive) w h :
  0 <= maxPixel < 2 ^ 53 -> onGrid align w h -> w < 2 ^ 53 -> h < 2 ^ 53 ->
  exists w' h',
    (forall fuel, (Z.to_nat (w + h) <= fuel)%nat ->
       shrinkDoubles fuel (toNumber maxPixel) (toNumber (Z.pos align))
         (toNumber w) (toNumber h) = Some (toNumber w', toNumber h')) /\
    shrink maxPixel align w h = (w', h') /\
    w' <= w /\ h' <= h /\
    (w * h <= maxPixel -> (w', h') = (w, h)) /\
    ((w', h') <> (w, h) ->
     (w' + Z.pos align) * h' > maxPixel \/ w' * (h' + Z.pos align) > maxPixel).
Proof.
  intros Hm Hg Hw Hh.
  pose proof (shrink_least_change maxPixel align w h) as (H1 & H2 & H3 & H4).
  exists (fst (shrink maxPixel align w h)), (snd (shrink maxPixel align w h)).
  rewrite <- surjective_pairing.
  split; [| repeat split; assumption].
  intros fuel Hfuel. apply shrinkDoubles_exact; try assumption. lia.
Qed.

Lemma shrink_takes_no_more_than_needed_witness :
  exists w' h',
    (forall fuel, (Z.to_nat (48 + 32) <= fuel)%nat ->
       shrinkDoubles fuel (toNumber 1000) (toNumber (Z.pos 16))
         (toNumber 48) (toNumber 32) = Some (toNumber w', toNumber h')) /\
    shrink 1000 16 48 32 = (w', h') /\
    w' <= 48 /\ h' <= 32 /\
    (48 * 32 <= 1000 -> (w', h') = (48, 32)) /\
    ((w', h') <> (48, 32) ->
     (w' + Z.pos 16) * h' > 1000 \/ w' * (h' + Z.pos 16) > 1000).
Proof.
  apply (shrink_takes_no_more_than_needed 1000 16 48 32).
  - split; [lia | reflexivity].
  - exists 3, 2. repeat split; lia.
  - reflexivity.
  - reflexivity.
Defined.

(** X22: whenever the planner of this development returns [(w, h)], the
    planner on doubles throughout, with the loop as the program runs it,
    returns the doubles of [w] and [h] once it is given enough rounds. *)
Theorem planner_follows_doubles fw fh maxPixel align w h :
  resizeWithAspectRatioAndAlign fw fh maxPixel align = Some (w, h) ->
  exists n, forall fuel, (n <= fuel)%nat ->
    resizeDoubles fuel fw fh maxPixel align = Some (toNumber w, toNumber h).
Proof.
  unfold resizeWithAspectRatioAndAlign, resizeDoubles.
  destruct (idealCells fw fh maxPixel (Z.pos align)) as [[qw qh] |] eqn:E;
    [| discriminate].
  apply idealCells_nonneg in E. destruct E as [Hqw Hqh].
  unfold alignAndShrink, alignAndShrinkDoubles. cbv zeta.
  set (W := if qw * Z.pos align =? 0 then Z.pos align else qw * Z.pos align).
  set (H := if qh * Z.pos align =? 0 then Z.pos align else qh * Z.pos align).
  destruct (isExact maxPixel && isExact W && isExact H) eqn:G; [| discriminate].
  rewrite !andb_true_iff, !isExact_spec in G. destruct G as [[GM GW] GH].
  intros Hr. injection Hr as Hr.
  exists (Z.to_nat (W + H)). intros fuel Hfuel.
  rewrite !clamp_doubles by (assumption || apply GW || apply GH).
  fold W H.
  rewrite (shrinkDoubles_exact align maxPixel fuel W H); try lia.
  - rewrite Hr. reflexivity.
  - apply clamp_onGrid; assumption.
Qed.

Lemma planner_follows_doubles_witness :
  exists n, forall fuel, (n <= fuel)%nat ->
    resizeDoubles fuel 640 480 14336 16 = Some (toNumber 128, toNumber 96).
Proof.
  apply (planner_follows_doubles 640 480 14336 16 128 96).
  vm_compute. reflexivity.
Defined.

(** X10: multiplying both sides of a source by the same power of two leaves
    the planned dimensions unchanged, whatever the aspect ratio, as long as
    the sides stay below 2^53 and the budget below 2^31. *)
Theorem planner_ignores_power_of_two_scale fw fh maxPixel k :
  0 < fw -> 0 < fh -> 0 <= k ->
  fw * 2 ^ k < 2 ^ 53 -> fh * 2 ^ k < 2 ^ 53 -> 0 < maxPixel < 2 ^ 31 ->
  resizeWithAspectRatioAndAlign (fw * 2 ^ k) (fh * 2 ^ k) maxPixel 16 =
  resizeWithAspectRatioAndAlign fw fh maxPixel 16 /\
  exists w h, resizeWithAspectRatioAndAlign fw fh maxPixel 16 = Some (w, h).
Proof.
  intros Hw Hh Hk Hwk Hhk Hm. split.
  - apply planner_scaling; try assumption.
    assert (2 ^ 31 < 2 ^ 63) by reflexivity. lia.
  - apply planner_total; [| | exact Hm].
    + assert (fw <= fw * 2 ^ k) by (pose proof (Z.pow_pos_nonneg 2 k); nia).
      change (2 ^ 53) with 9007199254740992 in *.
      change (2 ^ 63) with 9223372036854775808. lia.
    + assert (fh <= fh * 2 ^ k) by (pose proof (Z.pow_pos_nonneg 2 k); nia).
      change (2 ^ 53) with 9007199254740992 in *.
      change (2 ^ 63) with 9223372036854775808. lia.
Qed.

Lemma planner_ignores_power_of_two_scale_witness :
  resizeWithAspectRatioAndAlign (300 * 2 ^ 2) (200 * 2 ^ 2) 12288 16 =
  resizeWithAspectRatioAndAlign 300 200 12288 16 /\
  exists w h, resizeWithAspectRatioAndAlign 300 200 12288 16 = Some (w, h).
Proof.
  apply (planner_ignores_power_of_two_scale 300 200 12288 2); lia.
Defined.

(** ** The command *)

Lemma find_skips {A : Type} (p : A -> bool) (pre : list A) (x : A) (post : list A) :
  forallb (fun e => negb (p e)) pre = true -> p x = true ->
  find p (pre ++ x :: post) = Some x.
Proof.
  intros Hpre Hx. induction pre as [| e pre IH]; cbn [app find].
  - rewrite Hx. reflexivity.
  - cbn [forallb] in Hpre. apply andb_true_iff in Hpre. destruct Hpre as [He Hpre].
    apply negb_true_iff in He. rewrite He. apply IH. exact Hpre.
Qed.

Lemma truthy_Some x : truthy x = true -> exists u, x = Some u /\ u <> EmptyString.
Proof.
  destruct x as [[| c u] |]; cbn; try discriminate.
  intros _. exists (String c u). split; [reflexivity | discriminate].
Qed.

Lemma isImage_src el :
  isImage el = true ->
  Element.type el = "img"%string /\
  exists u, Element.src el = Some u /\ u <> EmptyString.
Proof.
  unfold isImage. intros H. apply andb_true_iff in H. destruct H as [Ht Hs].
  apply String.eqb_eq in Ht. split; [exact Ht |]. apply truthy_Some. exact Hs.
Qed.

(** What [getFirstImageAsBuffer] does, by the result of the search. *)
Lemma getFirstImageAsBuffer_cases httpGet elements :
  (find isImage elements = None /\
   getFirstImageAsBuffer httpGet elements = (None, [])) \/
  (exists el u,
     find isImage elements = Some el /\ Element.type el = "img"%string /\
     Element.src el = Some u /\ u <> EmptyString /\
     getFirstImageAsBuffer httpGet elements = getImageBufferFromUrl httpGet u).
Proof.
  unfold getFirstImageAsBuffer.
  destruct (find isImage elements) as [el |] eqn:E; [right | left; split; reflexivity].
  pose proof (find_some _ _ E) as [_ Hel].
  pose proof Hel as Hel'. apply isImage_src in Hel'. destruct Hel' as (Ht & u & Hu & Hne).
  exists el, u. repeat split; try assumption.
  rewrite Hu. destruct u as [| c u]; [contradiction Hne; reflexivity |]. reflexivity.
Qed.

(** X11: the image taken from a message is its first element of type
    [img] with a source that is not empty: elements of another type and
    images without a source in front of it are passed over, and the
    elements after it play no part. *)
Theorem first_image_is_fetched httpGet pre el post u :
  forallb (fun e => negb (isImage e)) pre = true ->
  Element.type el = "img"%string -> Element.src el = Some u -> u <> EmptyString ->
  getFirstImageAsBuffer httpGet (pre ++ el :: post) =
  getImageBufferFromUrl httpGet u.
Proof.
  intros Hpre Ht Hs Hu.
  assert (Hel : isImage el = true).
  { unfold isImage. rewrite Ht, Hs. destruct u; [contradiction Hu; reflexivity |].
    reflexivity. }
  unfold getFirstImageAsBuffer. rewrite (find_skips isImage pre el post Hpre Hel).
  rewrite Hs. destruct u; [contradiction Hu; reflexivity |]. reflexivity.
Qed.

Lemma first_image_is_fetched_witness :
  getFirstImageAsBuffer (fun _ => Some [1; 2; 3])
    ([Element.mk "text" None; Element.mk "img" (Some EmptyString)] ++
     Element.mk "img" (Some "a"%string) :: [Element.mk "img" (Some "b"%string)]) =
  getImageBufferFromUrl (fun _ => Some [1; 2; 3]) "a".
Proof.
  apply (first_image_is_fetched (fun _ => Some [1; 2; 3])
           [Element.mk "text" None; Element.mk "img" (Some EmptyString)]
           (Element.mk "img" (Some "a"%string))
           [Element.mk "img" (Some "b"%string)] "a");
    [reflexivity | reflexivity | reflexivity | discriminate].
Defined.

(** X12: the command asks for an image in two cases only: there is no URL
    argument and no image in the message, and then nothing is requested;
    or the one request made has failed, and then a warning is logged. *)
Theorem prompt_only_without_image httpGet metadata sharpRaw maxPixiel elements
    authorId url :
  fst (action httpGet metadata sharpRaw maxPixiel elements authorId url) =
    Returns Prompt <->
  (url = None /\ find isImage elements = None /\
   snd (action httpGet metadata sharpRaw maxPixiel elements authorId url) = []) \/
  (exists u,
     httpGet u = None /\
     snd (action httpGet metadata sharpRaw maxPixiel elements authorId url) =
       [Request u; Warning u] /\
     (url = Some u \/
      url = None /\ exists el, find isImage elements = Some el /\
                               Element.src el = Some u)).
Proof.
  unfold action. destruct url as [u |].
  - unfold getImageBufferFromUrl. destruct (httpGet u) as [image |] eqn:E;
      cbn [fst snd].
    + split.
      * destruct (generateWad3SprayOf metadata sharpRaw image maxPixiel);
          cbn [bind]; discriminate.
      * intros [(H & _) | (u' & Hu' & Hlog & _)]; [discriminate |].
        discriminate Hlog.
    + split; [| reflexivity]. intros _. right. exists u. auto.
  - destruct (getFirstImageAsBuffer_cases httpGet elements)
      as [(Hf & ->) | (el & u & Hf & _ & Hs & _ & ->)]; cbn [fst snd].
    + split; [| reflexivity]. intros _. left. auto.
    + unfold getImageBufferFromUrl. destruct (httpGet u) as [image |] eqn:E;
        cbn [fst snd].
      * split.
        -- destruct (generateWad3SprayOf metadata sharpRaw image maxPixiel);
             cbn [bind]; discriminate.
        -- intros [(_ & H & _) | (u' & Hu' & Hlog & _)]; [congruence |].
           discriminate Hlog.
      * split; [| reflexivity]. intros _. right. exists u.
        split; [exact E |]. split; [reflexivity |]. right.
        split; [reflexivity |]. exists el. auto.
Qed.

(** X13: every other outcome of the command is the outcome of the encoder
    on the one image downloaded: exactly one request is made, to the URL
    argument when there is one and to the first image of the message
    otherwise, the file replied is the buffer of the encoder under the type
    [application/wad3] and a name made of the author's id, and an error of
    the encoder is the error of the command. *)
Theorem reply_comes_from_encoder httpGet metadata sharpRaw maxPixiel elements
    authorId url :
  fst (action httpGet metadata sharpRaw maxPixiel elements authorId url) <>
    Returns Prompt ->
  exists u image,
    httpGet u = Some image /\
    snd (action httpGet metadata sharpRaw maxPixiel elements authorId url) =
      [Request u] /\
    (url = Some u \/
     url = None /\ exists el, find isImage elements = Some el /\
                              Element.src el = Some u /\ u <> EmptyString) /\
    fst (action httpGet metadata sharpRaw maxPixiel elements authorId url) =
      match generateWad3SprayOf metadata sharpRaw image maxPixiel with
      | Returns wadBuffer =>
          Returns (File wadBuffer "application/wad3"
                        ("tempdecal-" ++ authorId ++ ".wad"))
      | Throws e => Throws e
      | Unrepresented => Unrepresented
      end.
Proof.
  unfold action. destruct url as [u |].
  - unfold getImageBufferFromUrl. destruct (httpGet u) as [image |] eqn:E;
      cbn [fst snd]; intros H; [| contradiction H; reflexivity].
    exists u, image. split; [exact E |]. split; [reflexivity |].
    split; [left; reflexivity |].
    destruct (generateWad3SprayOf metadata sharpRaw image maxPixiel); reflexivity.
  - destruct (getFirstImageAsBuffer_cases httpGet elements)
      as [(Hf & ->) | (el & u & Hf & _ & Hs & Hne & ->)]; cbn [fst snd];
      [intros H; contradiction H; reflexivity |].
    unfold getImageBufferFromUrl. destruct (httpGet u) as [image |] eqn:E;
      cbn [fst snd]; intros H; [| contradiction H; reflexivity].
    exists u, image. split; [exact E |]. split; [reflexivity |].
    split; [right; split; [reflexivity |]; exists el; auto |].
    destruct (generateWad3SprayOf metadata sharpRaw image maxPixiel); reflexivity.
Qed.

Lemma reply_comes_from_encoder_witness :
  exists u image,
    (fun _ : string => Some [1; 2; 3]) u = Some image /\
    snd (action (fun _ => Some [1; 2; 3]) (fun _ => Some (Some 10, Some 10))
                (fun _ => flatRaw) 300 [] "7" (Some "a"%string)) = [Request u] /\
    (Some "a"%string = Some u \/
     Some "a"%string = None /\
     exists el, find isImage [] = Some el /\
                Element.src el = Some u /\ u <> EmptyString) /\
    fst (action (fun _ => Some [1; 2; 3]) (fun _ => Some (Some 10, Some 10))
                (fun _ => flatRaw) 300 [] "7" (Some "a"%string)) =
      match generateWad3SprayOf (fun _ => Some (Some 10, Some 10))
                                (fun _ => flatRaw) image 300 with
      | Returns wadBuffer =>
          Returns (File wadBuffer "application/wad3" ("tempdecal-" ++ "7" ++ ".wad"))
      | Throws e => Throws e
      | Unrepresented => Unrepresented
      end.
Proof.
  apply (reply_comes_from_encoder (fun _ => Some [1; 2; 3])
           (fun _ => Some (Some 10, Some 10)) (fun _ => flatRaw) 300 []
           "7" (Some "a"%string)).
  vm_compute. discriminate.
Defined.

(** ** The earlier encoder *)

(** X14: the earlier alignment moves a side to the nearest multiple of 16,
    a side halfway between two multiples going down: the result is at most
    8 below and at most 7 above, and it is 0 exactly for sides up to 8. *)
Theorem alignGap_nearest_multiple fw :
  0 <= fw ->
  Legacy.alignGap fw mod 16 = 0 /\
  fw - 8 <= Legacy.alignGap fw <= fw + 7 /\
  (Legacy.alignGap fw = 0 <-> fw <= 8).
Proof.
  intros Hfw. unfold Legacy.alignGap. cbv zeta.
  rewrite Z.rem_mod_nonneg by lia. change (16 / 2) with 8.
  pose proof (Z.mod_pos_bound fw 16 ltac:(lia)) as Hb.
  pose proof (Z.div_mod fw 16 ltac:(lia)) as Hd.
  assert (Hq : 0 <= fw / 16) by (apply Z.div_pos; lia).
  destruct (Z.gtb_spec (fw mod 16) 8) as [Hgt | Hle].
  - replace (fw + 16 - fw mod 16) with ((fw / 16 + 1) * 16) by lia.
    rewrite Z.mod_mul by lia. repeat split; lia.
  - replace (fw - fw mod 16) with (fw / 16 * 16) by lia.
    rewrite Z.mod_mul by lia. repeat split; lia.
Qed.

Lemma alignGap_nearest_multiple_witness :
  Legacy.alignGap 24 mod 16 = 0 /\
  24 - 8 <= Legacy.alignGap 24 <= 24 + 7 /\
  (Legacy.alignGap 24 = 0 <-> 24 <= 8).
Proof.
  apply (alignGap_nearest_multiple 24). lia.
Defined.

Lemma writeUInt32LE_past_end buf value offset :
  (List.length buf < offset + 4)%nat ->
  Buffer.writeUInt32LE buf value offset = Throws RangeError.
Proof.
  intros Hlen. unfold Buffer.writeUInt32LE, Buffer.writeUInt.
  destruct ((value <? 0) || _); [reflexivity |].
  destruct (Nat.ltb_spec (List.length buf) (offset + 4)); [reflexivity | lia].
Qed.

Lemma writeUInt32LE_then {B : Type} buf value offset (k : Buffer.t -> outcome B) :
  (forall buf', List.length buf' = List.length buf -> k buf' = Throws RangeError) ->
  bind (Buffer.writeUInt32LE buf value offset) k = Throws RangeError.
Proof.
  intros Hk.
  pose proof (writeUInt_rangeOnly 4 Buffer.le32 buf value offset) as Hr.
  fold (Buffer.writeUInt32LE buf value offset) in Hr.
  destruct (Buffer.writeUInt32LE buf value offset) as [buf' | e |] eqn:E;
    cbn [bind rangeOnly] in *.
  - apply Hk. exact (writeUInt_length _ _ _ _ _ _ E).
  - rewrite Hr. reflexivity.
  - contradiction.
Qed.

Lemma Legacy_buildHeader_throws w h mipsOffsets :
  Legacy.buildHeader w h mipsOffsets = Throws RangeError.
Proof.
  unfold Legacy.buildHeader, Buffer.write. cbv zeta.
  apply writeUInt32LE_then. intros b1 L1.
  apply writeUInt32LE_then. intros b2 L2.
  apply writeUInt32LE_then. intros b3 L3.
  apply writeUInt32LE_then. intros b4 L4.
  rewrite writeUInt32LE_past_end; [reflexivity |].
  rewrite L4, L3, L2, blit_length, L1, blit_length. cbn. lia.
Qed.

(** X15: the earlier encoder never returns a file.  Its header has 40
    bytes and the second mip offset is written at byte 40, which the writer
    refuses: whatever the image and the dimensions, the serializer raises a
    [RangeError], and however long the loop is followed the encoder ends
    with an error or is still running. *)
Theorem legacy_encoder_never_returns sharpRaw fuel width height maxPixiel :
  (forall pixelData w h, Legacy.encode pixelData w h = Throws RangeError) /\
  (forall out,
     Legacy.generateWad3Spray sharpRaw fuel width height maxPixiel <>
     Legacy.Finished (Returns out)) /\
  (forall fw fh pixelData,
     width = Some fw -> height = Some fh -> fw <> 0 -> fh <> 0 ->
     fw * fh <= 14336 ->
     sharpRaw (Legacy.alignGap fw) (Legacy.alignGap fh) = Some pixelData ->
     Legacy.generateWad3Spray sharpRaw fuel width height maxPixiel =
     Legacy.Finished (Throws RangeError)).
Proof.
  assert (Henc : forall pixelData w h, Legacy.encode pixelData w h = Throws RangeError).
  { intros pixelData w h. unfold Legacy.encode. cbv zeta.
    rewrite Legacy_buildHeader_throws. reflexivity. }
  split; [exact Henc |]. split.
  - intros out. unfold Legacy.generateWad3Spray.
    destruct (missing width || missing height); [discriminate |].
    destruct (Legacy.plan fuel maxPixiel _ _) as [[[fw fh] |] |];
      try discriminate.
    cbv zeta. destruct (sharpRaw _ _); [rewrite Henc |]; discriminate.
  - intros fw fh pixelData -> -> Hw Hh Harea Hraw.
    unfold Legacy.generateWad3Spray, missing. cbn [orElse].
    destruct (Z.eqb_spec fw 0) as [| _]; [contradiction |].
    destruct (Z.eqb_spec fh 0) as [| _]; [contradiction |]. cbn [orb].
    unfold Legacy.plan.
    destruct (Z.gtb_spec (fw * fh) 14336) as [| _]; [lia |].
    cbv zeta. rewrite Hraw, Henc. reflexivity.
Qed.

(** The rounds of the earlier loop on sides from 0 to 256: a side never
    grows, a side above 16 falls, and a side up to 16 stays. *)
Lemma shrinkStep_table :
  forallb
    (fun k =>
       match Legacy.mathRound (toNumber k * Legacy.ninetySeven)%float with
       | Some k' =>
           (k' <=? k) && (Z.min k 16 <=? k') && ((k <=? 16) || (k' <? k))
       | None => false
       end)
    (map Z.of_nat (seq 0 257)) = true.
Proof. vm_compute. reflexivity. Qed.

Lemma shrinkStep_side k :
  0 <= k <= 256 ->
  exists k',
    Legacy.mathRound (toNumber k * Legacy.ninetySeven)%float = Some k' /\
    Z.min k 16 <= k' <= k /\ (16 < k -> k' < k).
Proof.
  intros Hk. pose proof shrinkStep_table as T.
  rewrite forallb_forall in T. specialize (T k).
  assert (Hin : In k (map Z.of_nat (seq 0 257))).
  { apply in_map_iff. exists (Z.to_nat k). split; [lia |].
    apply in_seq. lia. }
  specialize (T Hin).
  destruct (Legacy.mathRound _) as [k' |]; [| discriminate].
  exists k'. split; [reflexivity |].
  rewrite !andb_true_iff, orb_true_iff, !Z.leb_le, Z.ltb_lt in T. lia.
Qed.

Lemma shrinkStep_sides fw fh :
  0 <= fw <= 256 -> 0 <= fh <= 256 ->
  exists fw' fh',
    Legacy.shrinkStep fw fh = Some (fw', fh') /\
    Z.min fw 16 <= fw' <= fw /\ (16 < fw -> fw' < fw) /\
    Z.min fh 16 <= fh' <= fh /\ (16 < fh -> fh' < fh).
Proof.
  intros Hw Hh.
  destruct (shrinkStep_side fw Hw) as (fw' & Ew & Bw & Sw).
  destruct (shrinkStep_side fh Hh) as (fh' & Eh & Bh & Sh).
  exists fw', fh'. unfold Legacy.shrinkStep. rewrite Ew, Eh. auto.
Qed.

(** X16: the earlier loop never ends when the budget is below the product
    of the two sides capped at 16 -- for sides of 16 or more, a budget
    below 256.  A side of 16 or less is its own image under the round, so
    the product cannot fall below that bound. *)
Theorem legacy_loop_never_ends fuel maxPixiel fw fh :
  1 <= fw <= 256 -> 1 <= fh <= 256 ->
  maxPixiel < Z.min fw 16 * Z.min fh 16 ->
  Legacy.shrink fuel maxPixiel fw fh = Legacy.OutOfFuel.
Proof.
  revert fw fh. induction fuel as [| fuel IH]; intros fw fh Hw Hh Hm;
    cbn [Legacy.shrink];
    (destruct (Z.gtb_spec (fw * fh) maxPixiel) as [Hgt | Hle]; [| exfalso; nia]).
  - reflexivity.
  - destruct (shrinkStep_sides fw fh ltac:(lia) ltac:(lia))
      as (fw' & fh' & -> & Bw & _ & Bh & _).
    apply IH; try lia.
    replace (Z.min fw' 16) with (Z.min fw 16) by lia.
    replace (Z.min fh' 16) with (Z.min fh 16) by lia.
    exact Hm.
Qed.

Lemma legacy_loop_never_ends_witness :
  Legacy.shrink 1000 255 256 256 = Legacy.OutOfFuel.
Proof.
  apply (legacy_loop_never_ends 1000 255 256 256); [lia | lia | reflexivity].
Defined.

Lemma Legacy_shrink_ends fuel maxPixiel fw fh :
  0 <= fw <= 256 -> 0 <= fh <= 256 -> 256 <= maxPixiel ->
  fw + fh <= Z.of_nat fuel ->
  exists w h,
    Legacy.shrink fuel maxPixiel fw fh = Legacy.Finished (Some (w, h)) /\
    w * h <= maxPixiel /\ 0 <= w <= fw /\ 0 <= h <= fh.
Proof.
  revert fw fh. induction fuel as [| fuel IH]; intros fw fh Hw Hh Hm Hf;
    cbn [Legacy.shrink];
    destruct (Z.gtb_spec (fw * fh) maxPixiel) as [Hgt | Hle];
    try (exists fw, fh; split; [reflexivity | lia]).
  - exfalso. nia.
  - destruct (shrinkStep_sides fw fh Hw Hh)
      as (fw' & fh' & -> & Bw & Sw & Bh & Sh).
    assert (Hdec : fw' + fh' < fw + fh).
    { destruct (Z.le_gt_cases fw 16) as [Hw16 | Hw16];
        [destruct (Z.le_gt_cases fh 16) as [Hh16 | Hh16] |].
      - exfalso. nia.
      - specialize (Sh Hh16). lia.
      - specialize (Sw Hw16). lia. }
    destruct (IH fw' fh') as (w & h & E & Hb & Hw' & Hh'); try lia.
    exists w, h. split; [exact E | lia].
Qed.

(** X17: with a budget of 256 or more the earlier loop ends: from sides
    between 0 and 256, within 512 rounds, on sides that have not grown and
    whose product is within the budget. *)
Theorem legacy_loop_ends maxPixiel fw fh :
  0 <= fw <= 256 -> 0 <= fh <= 256 -> 256 <= maxPixiel ->
  exists w h,
    Legacy.shrink 512 maxPixiel fw fh = Legacy.Finished (Some (w, h)) /\
    w * h <= maxPixiel /\ 0 <= w <= fw /\ 0 <= h <= fh.
Proof.
  intros Hw Hh Hm. apply Legacy_shrink_ends; try assumption. lia.
Qed.

Lemma legacy_loop_ends_witness :
  exists w h,
    Legacy.shrink 512 12288 256 192 = Legacy.Finished (Some (w, h)) /\
    w * h <= 12288 /\ 0 <= w <= 256 /\ 0 <= h <= 192.
Proof.
  apply (legacy_loop_ends 12288 256 192); lia.
Defined.

(** ** Reading the file back *)

Lemma wadFile_nth_mips pixelData w h n :
  (n < List.length (List.concat (mipsDataOf pixelData w h)))%nat ->
  nth_error (wadFile pixelData w h) (52 + n) =
  nth_error (List.concat (mipsDataOf pixelData w h)) n.
Proof.
  intros Hn. unfold wadFile. cbv zeta.
  rewrite nth_error_app2 by (rewrite headerBytes_length; lia).
  rewrite headerBytes_length. replace (52 + n - 52)%nat with n by lia.
  apply nth_error_app1. exact Hn.
Qed.

Lemma wadFile_nth_palette pixelData w h n :
  (n < 768)%nat ->
  nth_error (wadFile pixelData w h)
            (52 + List.length (List.concat (mipsDataOf pixelData w h)) + 4 + n) =
  nth_error (paletteBytes (buildPalette (pixelsOf pixelData))) n.
Proof.
  intros Hn. unfold wadFile. cbv zeta.
  rewrite nth_error_app2 by (rewrite headerBytes_length; lia).
  rewrite headerBytes_length.
  rewrite nth_error_app2 by lia.
  rewrite nth_error_app2 by (cbn [typeMarker List.length]; lia).
  cbn [typeMarker List.length].
  rewrite nth_error_app1
    by (unfold paletteBytes; rewrite paletteBytesUpTo_length; lia).
  f_equal. lia.
Qed.

Lemma paletteBytes_nth rgbaPalette i j :
  (i < 256)%nat -> (j < 3)%nat ->
  nth_error (paletteBytes rgbaPalette) (i * 3 + j) =
  nth_error (entryBytes (paletteEntry rgbaPalette i)) j.
Proof.
  intros Hi Hj. unfold paletteBytes, paletteBytesUpTo.
  apply (nth_error_flat_map_constant
           (fun i => entryBytes (paletteEntry rgbaPalette i)) (seq 0 256) 3 i j i).
  - reflexivity.
  - rewrite nth_error_seq. destruct (Nat.ltb_spec i 256); [reflexivity | lia].
  - exact Hj.
Qed.

(** With four bytes to every pixel, no component is missing. *)
Lemma pixelsOf_full pixelData c :
  Z.of_nat (List.length pixelData) mod 4 = 0 ->
  In c (pixelsOf pixelData) ->
  exists r g b a,
    c = Color.mk (Some r) (Some g) (Some b) (Some a).
Proof.
  revert c. induction pixelData as [| r | r g | r g b | r g b a rest IH] using list_ind4;
    intros c Hlen Hc; cbn [pixelsOf In] in Hc; try (cbn in Hlen; discriminate).
  - contradiction.
  - destruct Hc as [<- | Hc]; [exists r, g, b, a; reflexivity |].
    apply IH; [| exact Hc].
    cbn [List.length] in Hlen. rewrite !Nat2Z.inj_succ in Hlen.
    revert Hlen. Z.to_euclidean_division_equations. lia.
Qed.

(** X18: the file reads back as the image.  When the raw buffer has four
    bytes for each of the [w * h] pixels and at most 256 distinct colours,
    the byte at [52 + n] is the index of pixel [n]: 255 for a transparent
    pixel, and for an opaque one an index whose palette entry, three bytes
    at [56 + 85 * w * h / 64 + 3 * index], is the red, green and blue of
    that very pixel. *)
Theorem file_reads_back_as_image sharpRaw width height maxPixiel out :
  generateWad3Spray sharpRaw width height maxPixiel = Returns out ->
  exists fw fh w h pixelData,
    width = Some fw /\ height = Some fh /\
    resizeWithAspectRatioAndAlign fw fh maxPixiel 16 = Some (w, h) /\
    sharpRaw w h = Some pixelData /\
    (Z.of_nat (List.length pixelData) = 4 * (w * h) ->
     (List.length (firstSeen (pixelsOf pixelData)) <= 256)%nat ->
     forall n c,
       nth_error (pixelsOf pixelData) n = Some c ->
       if Color.isTransparent c then nth_error out (52 + n) = Some 255
       else
         exists i,
           (i < 256)%nat /\
           nth_error out (52 + n) = Some (Z.of_nat i) /\
           nth_error out (Z.to_nat (56 + 85 * (w * h) / 64) + i * 3) = Color.r c /\
           nth_error out (Z.to_nat (56 + 85 * (w * h) / 64) + i * 3 + 1) = Color.g c /\
           nth_error out (Z.to_nat (56 + 85 * (w * h) / 64) + i * 3 + 2) = Color.b c).
Proof.
  intros H. apply generate_returns_dims in H.
  destruct H as (fw & fh & w & h & pixelData & Ew & Eh & Ep & Er & He &
                 Hw & Hh & Mw & Mh & Hb).
  exists fw, fh, w, h, pixelData. repeat (split; [assumption |]).
  intros Hlen Hcolours n c Hc.
  rewrite encode_spec in He.
  destruct (encodable pixelData w h); [| discriminate]. injection He as <-.
  assert (Ewa : w = 16 * (w / 16)) by (Z.to_euclidean_division_equations; lia).
  assert (Eha : h = 16 * (h / 16)) by (Z.to_euclidean_division_equations; lia).
  assert (Ha : 1 <= w / 16) by (Z.to_euclidean_division_equations; lia).
  assert (Hb' : 1 <= h / 16) by (Z.to_euclidean_division_equations; lia).
  destruct (mips_sizes_16 (indexedPixelsOf pixelData) _ _ Ha Hb')
    as (m0 & m1 & m2 & m3 & Emips & L0 & L1 & L2 & L3).
  rewrite <- Ewa, <- Eha in Emips.
  assert (Hwh : w * h = 256 * (w / 16 * (h / 16))) by nia.
  set (n16 := w / 16 * (h / 16)) in *.
  assert (Lidx : Z.of_nat (List.length (indexedPixelsOf pixelData)) = w * h).
  { rewrite indexedPixelsOf_length, Hlen. Z.to_euclidean_division_equations. lia. }
  assert (Em0 : m0 = Buffer.from (indexedPixelsOf pixelData)).
  { assert (E0 : nth 0 (buildMips (indexedPixelsOf pixelData) w h) [] =
                 Buffer.from (mipSamples (indexedPixelsOf pixelData) w h 0))
      by reflexivity.
    rewrite Emips in E0. cbn [nth] in E0. rewrite E0.
    rewrite mipSamples_level0 by (assumption || lia). reflexivity. }
  assert (Lmips : Z.of_nat (List.length (List.concat (mipsDataOf pixelData w h))) =
                  340 * n16).
  { unfold mipsDataOf. rewrite Emips. cbn [List.concat].
    rewrite !length_app, !Nat2Z.inj_add. cbn [List.length]. lia. }
  assert (Hn : (n < List.length (pixelsOf pixelData))%nat)
    by (apply nth_error_Some; congruence).
  assert (Lpix : List.length (indexedPixelsOf pixelData) =
                 List.length (pixelsOf pixelData))
    by (unfold indexedPixelsOf, buildIndexedPixels; apply length_map).
  assert (Hbyte : nth_error (wadFile pixelData w h) (52 + n) =
                  Some (indexOfPixel (buildPalette (pixelsOf pixelData)) c mod 256)).
  { rewrite wadFile_nth_mips
      by (unfold mipsDataOf; rewrite Emips; cbn [List.concat];
          rewrite length_app, Em0, from_length; lia).
    unfold mipsDataOf. rewrite Emips. cbn [List.concat].
    rewrite nth_error_app1 by (rewrite Em0, from_length; lia).
    rewrite Em0. unfold Buffer.from, indexedPixelsOf, buildIndexedPixels.
    rewrite !nth_error_map, Hc. reflexivity. }
  destruct (Color.isTransparent c) eqn:Et.
  - rewrite Hbyte. unfold indexOfPixel. rewrite Et. reflexivity.
  - destruct (indexOfPixel_opaque (pixelsOf pixelData) c
                (nth_error_In _ _ Hc) Et) as (i & Hi & Hpal & Hfs & _).
    assert (Hi256 : (i < 256)%nat).
    { assert (i < List.length (firstSeen (pixelsOf pixelData)))%nat
        by (apply nth_error_Some; congruence). lia. }
    exists i. split; [exact Hi256 |]. split.
    { rewrite Hbyte, Hi. rewrite Z.mod_small by lia. reflexivity. }
    destruct (pixelsOf_full pixelData c) as (r & g & b & a & Ec).
    { rewrite Hlen. rewrite Z.mul_comm. apply Z.mod_mul. lia. }
    { exact (nth_error_In _ _ Hc). }
    assert (Estart : Z.to_nat (56 + 85 * (w * h) / 64) =
                     (52 + List.length (List.concat (mipsDataOf pixelData w h)) + 4)%nat).
    { assert (85 * (w * h) / 64 = 340 * n16)
        by (rewrite Hwh; Z.to_euclidean_division_equations; lia).
      lia. }
    rewrite Estart.
    assert (Hentry : paletteEntry (buildPalette (pixelsOf pixelData)) i = c)
      by (unfold paletteEntry; rewrite Hpal; reflexivity).
    replace (52 + List.length (List.concat (mipsDataOf pixelData w h)) + 4 + i * 3)%nat
      with (52 + List.length (List.concat (mipsDataOf pixelData w h)) + 4 + (i * 3 + 0))%nat
      by lia.
    rewrite <- !Nat.add_assoc.
    rewrite !(Nat.add_assoc 52), !(Nat.add_assoc (52 + _)).
    rewrite !wadFile_nth_palette by lia.
    rewrite !paletteBytes_nth by lia. rewrite Hentry, Ec. cbn. auto.
Qed.

Lemma file_reads_back_as_image_witness :
  exists out,
    generateWad3Spray flatRaw (Some 10) (Some 10) 300 = Returns out /\
    exists fw fh w h pixelData,
      Some 10 = Some fw /\ Some 10 = Some fh /\
      resizeWithAspectRatioAndAlign fw fh 300 16 = Some (w, h) /\
      flatRaw w h = Some pixelData /\
      (Z.of_nat (List.length pixelData) = 4 * (w * h) ->
       (List.length (firstSeen (pixelsOf pixelData)) <= 256)%nat ->
       forall n c,
         nth_error (pixelsOf pixelData) n = Some c ->
         if Color.isTransparent c then nth_error out (52 + n) = Some 255
         else
           exists i,
             (i < 256)%nat /\
             nth_error out (52 + n) = Some (Z.of_nat i) /\
             nth_error out (Z.to_nat (56 + 85 * (w * h) / 64) + i * 3) = Color.r c /\
             nth_error out (Z.to_nat (56 + 85 * (w * h) / 64) + i * 3 + 1) = Color.g c /\
             nth_error out (Z.to_nat (56 + 85 * (w * h) / 64) + i * 3 + 2) = Color.b c).
Proof.
  eexists. split.
  - vm_compute. reflexivity.
  - apply (file_reads_back_as_image flatRaw (Some 10) (Some 10) 300).
    vm_compute. reflexivity.
Defined.

(** ** The palette beyond 255 colours *)

(** X19: the palette never has fewer than 256 entries, so the writer of the
    palette buffer finds an entry at each of its 256 indices and its
    default of black is never taken.  The key colour is the last entry: at
    index 255 when the image has at most 255 distinct colours, and further
    on when it has more, where index 255 holds the 256th colour of the
    image. *)
Theorem palette_never_short pixels :
  List.length (buildPalette pixels) =
    Nat.max 256 (S (List.length (firstSeen pixels))) /\
  last (buildPalette pixels) Color.black = Color.transparentKey /\
  (forall i, (i < 256)%nat ->
     exists c, nth_error (buildPalette pixels) i = Some c /\
               paletteEntry (buildPalette pixels) i = c) /\
  ((255 < List.length (firstSeen pixels))%nat ->
   nth_error (buildPalette pixels) 255 = nth_error (firstSeen pixels) 255).
Proof.
  assert (Hlen : List.length (buildPalette pixels) =
                 Nat.max 256 (S (List.length (firstSeen pixels)))).
  { rewrite buildPalette_layout, !length_app, repeat_length. cbn [List.length]. lia. }
  split; [exact Hlen |]. split.
  - rewrite buildPalette_layout, !app_assoc. apply last_last.
  - split.
    + intros i Hi.
      destruct (nth_error (buildPalette pixels) i) as [c |] eqn:E.
      * exists c. split; [reflexivity |]. unfold paletteEntry. rewrite E. reflexivity.
      * apply nth_error_None in E. lia.
    + intros Hmany. rewrite buildPalette_layout. apply nth_error_app1. exact Hmany.
Qed.

(** ** Levels as samples of level 0 *)

(** X20: every mip level is a sample of level 0: its entry in row [j] and
    column [i] is the entry of level 0 in row [j * 2^level] and column
    [i * 2^level]. *)
Theorem mip_level_samples_level_zero indexedPixels w h level i j :
  Z.of_nat i * Z.pos (stepOf level) < w ->
  Z.of_nat j * Z.pos (stepOf level) < h ->
  nth_error (Buffer.from (mipSamples indexedPixels w h level))
            (j * Z.to_nat (ceilDiv w (Z.pos (stepOf level))) + i) =
  nth_error (Buffer.from (mipSamples indexedPixels w h 0))
            (j * Pos.to_nat (stepOf level) * Z.to_nat w + i * Pos.to_nat (stepOf level)).
Proof.
  intros Hi Hj. unfold Buffer.from. rewrite !nth_error_map.
  rewrite mipSamples_nth by assumption.
  pose proof (mipSamples_nth indexedPixels w h 0
                (i * Pos.to_nat (stepOf level)) (j * Pos.to_nat (stepOf level))) as S0.
  change (Z.pos (stepOf 0)) with 1 in S0.
  unfold ceilDiv in S0. replace (w + 1 - 1) with w in S0 by lia.
  rewrite Z.div_1_r in S0.
  rewrite !Nat2Z.inj_mul, !positive_nat_Z, !Z.mul_1_r in S0.
  rewrite S0 by assumption. reflexivity.
Qed.

Lemma mip_level_samples_level_zero_witness :
  nth_error (Buffer.from (mipSamples [10; 11; 12; 13; 14; 15; 16; 17] 4 2 1))
            (0 * Z.to_nat (ceilDiv 4 (Z.pos (stepOf 1))) + 1) =
  nth_error (Buffer.from (mipSamples [10; 11; 12; 13; 14; 15; 16; 17] 4 2 0))
            (0 * Pos.to_nat (stepOf 1) * Z.to_nat 4 + 1 * Pos.to_nat (stepOf 1)).
Proof.
  apply (mip_level_samples_level_zero [10; 11; 12; 13; 14; 15; 16; 17] 4 2 1 1 0);
    reflexivity.
Defined.

(** ** The model follows the program *)

(** X21: on a source with sides in (0, 2^63) and a budget in (0, 2^31) the
    planner stays within the exact integers, so that the model follows the
    program to its end: the encoder resolves with a file, or rejects with
    [InvalidImageSize], with a [RangeError] of a writer, or with the
    rejection of the image pipeline. *)
Theorem represented_outcome_cases sharpRaw fw fh maxPixiel :
  0 < fw < 2 ^ 63 -> 0 < fh < 2 ^ 63 -> 0 < maxPixiel < 2 ^ 31 ->
  (exists out,
     generateWad3Spray sharpRaw (Some fw) (Some fh) maxPixiel = Returns out) \/
  generateWad3Spray sharpRaw (Some fw) (Some fh) maxPixiel = Throws InvalidImageSize \/
  generateWad3Spray sharpRaw (Some fw) (Some fh) maxPixiel = Throws RangeError \/
  generateWad3Spray sharpRaw (Some fw) (Some fh) maxPixiel = Throws DecodeFailure.
Proof.
  intros Hw Hh Hm.
  destruct (planner_total fw fh maxPixiel Hw Hh Hm) as (w & h & Ep).
  unfold generateWad3Spray. cbn [missing orElse].
  destruct (Z.eqb_spec fw 0) as [| _]; [lia |].
  destruct (Z.eqb_spec fh 0) as [| _]; [lia |]. cbn [orb]. rewrite Ep.
  destruct ((w =? 0) || (h =? 0)); [right; left; reflexivity |].
  destruct (sharpRaw w h) as [pixelData |]; [| right; right; right; reflexivity].
  pose proof (encode_rangeOnly pixelData w h) as Hr.
  destruct (encode pixelData w h) as [out | e |].
  - left. exists out. reflexivity.
  - cbn in Hr. subst e. right. right. left. reflexivity.
  - contradiction.
Qed.

Lemma represented_outcome_cases_witness :
  (exists out,
     generateWad3Spray flatRaw (Some 10) (Some 10) 300 = Returns out) \/
  generateWad3Spray flatRaw (Some 10) (Some 10) 300 = Throws InvalidImageSize \/
  generateWad3Spray flatRaw (Some 10) (Some 10) 300 = Throws RangeError \/
  generateWad3Spray flatRaw (Some 10) (Some 10) 300 = Throws DecodeFailure.
Proof.
  apply (represented_outcome_cases flatRaw 10 10 300); lia.
Defined.
